(** * MDB bus master: a shallow embedding of [mdb/master.py]

    The master claims the bus over a channel adapter ([usb_handler]), may
    reset the bus, and fans lifecycle operations out to two peripherals
    (bill validator, coin acceptor) with [asyncio.gather].

    Conventions of the embedding:
    - a coroutine of the master that runs alone is a state-passing function
      on [Master]; it yields [None] when it would wait for the lock for ever;
    - the coroutines of the peripherals are programs ([pcode]) over the two
      calls the master offers them, [send] and [sendread]; [asyncio.gather]
      runs a pool of such programs, interleaved as a schedule dictates;
    - a gather without [return_exceptions] raises as soon as one of its
      coroutines raises, and the others stay in the event loop ([loop]),
      one of them possibly inside an exchange, with the lock; a sequence
      of calls ([perform_all]) makes each call when the event loop is
      quiet again;
    - every call that leaves the master (to the adapter, to a peripheral, to
      [asyncio.sleep]) is recorded in [log], stamped with the clock and with
      the value of [initialized] at that moment; the clock is a rational
      that only [asyncio.sleep] advances, so the difference of two stamps is
      a lower bound of the time that passed;
    - the calls of the logger are left out. *)

From Stdlib Require Import QArith Qminmax.
From stdpp Require Import base list strings gmap.

Open Scope string_scope.
Open Scope list_scope.

(** ** Values, exceptions, results *)

(** The exceptions that occur: the two the master raises itself
    ([assert], [RuntimeError]), the one Python raises when an attribute was
    never assigned, and whatever the collaborators raise. *)
Inductive exn : Type :=
| AssertionError
| AttributeError (name : string)
| RuntimeError (msg : string)
| OtherError (name : string).

(** What the peripherals' operations return. *)
Inductive value : Type :=
| VNone
| VStr (s : string)
| VOpaque (n : nat).

(** A call that came back: with a value, or with an exception. *)
Inductive reply (A : Type) : Type :=
| Returned (a : A)
| Raised (e : exn).
Arguments Returned {A} a.
Arguments Raised {A} e.

(** Python's [bytes]. *)
Definition bytes : Type := list Byte.byte.

(** The line feed that ends the literals ['M,1\n'] and ['R,RESET\n']. *)
Definition LF : string := String (Ascii.ascii_of_nat 10) "".

(** Who is talking on the channel: the master's own code, or the [i]-th
    awaitable of the running [gather] (0 is the bill validator, 1 the coin
    acceptor). *)
Inductive caller : Type :=
| Self
| Child (i : nat).

Definition caller_eqb (a b : caller) : bool :=
  match a, b with
  | Self, Self => true
  | Child i, Child j => Nat.eqb i j
  | _, _ => false
  end.

(** ** Peripheral coroutines *)

(** A peripheral's coroutine, as far as the master can tell: it returns,
    raises, suspends on something of its own, or awaits [master.send] or
    [master.sendread] and goes on with what came back. *)
Inductive pcode : Type :=
| Return (v : value)
| Raise (e : exn)
| Yield (k : pcode)
| CallSend (message : string) (k : reply unit -> pcode)
| CallSendRead (message prefix : string) (k : reply string -> pcode).

(** [BillValidator] and [CoinAcceptor]: one coroutine per lifecycle
    operation; [on_initialize] takes the flag [initialize] is called with
    (the master reference is the [CallSend]/[CallSendRead] interface). *)
Record Peripheral : Type := {
  on_initialize : bool -> pcode;
  on_enable : pcode;
  on_disable : pcode;
  on_status : pcode;
  on_run : pcode
}.

(** A coroutine of the pool is running its own code, or it is inside
    [master.send] / [master.sendread] with the lock held and the request
    handed to the adapter, or it is done. *)
Inductive task : Type :=
| Running (c : pcode)
| InFlightSend (message : string) (k : reply unit -> pcode)
| InFlightSendRead (message prefix : string) (k : reply string -> pcode)
| Finished (r : reply value).

(** The operations of a peripheral, with the arguments of the call. *)
Inductive operation : Type :=
| OpInitialize (skip_setup_delay : bool)
| OpEnable
| OpDisable
| OpStatus
| OpRun.

(** ** The log *)

(** What the log records: a request handed to the adapter (with the prefix
    asked for, for [sendread]), the adapter coming back (with the text
    received, for [sendread]), a call of a peripheral's operation, a
    sleep. *)
Inductive event : Type :=
| Transmit (who : caller) (message : string) (expects : option string)
| Complete (who : caller) (r : reply (option string))
| Invoke (i : nat) (op : operation)
| Sleep (d : Q).

Record entry : Type := {
  stamp : Q;
  established : bool;
  what : event
}.

(** ** The channel adapter *)

(** [USBHandler], as far as the master uses it: an object with a state of
    its own and the two coroutines [send] and [sendread], each of which
    changes the state and comes back with a value or an exception. *)
Record USBHandler : Type := {
  adapter_state : Type;
  state : adapter_state;
  adapter_send : adapter_state -> bytes -> adapter_state * reply unit;
  adapter_sendread :
    adapter_state -> bytes -> string -> adapter_state * reply string
}.

Definition with_state (h : USBHandler) (c : adapter_state h) : USBHandler :=
  {| adapter_state := adapter_state h;
     state := c;
     adapter_send := adapter_send h;
     adapter_sendread := adapter_sendread h |}.

Section Master.

(** [to_ascii] and [SETUP_TIME_SECONDS] are imported by [master.py] from
    modules that are not part of the sources. *)
Variable to_ascii : string -> bytes.
Variable SETUP_TIME_SECONDS : Q.

(** ** The master object *)

(** The attributes of [Master]: the lock (held or free), the flag, and the
    three references [initialize] stores, absent until then; with them the
    clock and the log of the embedding, and the coroutines that a gather
    which has raised leaves running in the event loop. *)
Record Master : Type := {
  lock : bool;
  initialized : bool;
  usb_handler : option USBHandler;
  bill_validator : option Peripheral;
  coin_acceptor : option Peripheral;
  clock : Q;
  log : list entry;
  loop : list task
}.

(** [Master.__init__]: a free lock, not initialized, nothing else assigned. *)
Definition Master_init : Master :=
  {| lock := false; initialized := false; usb_handler := None;
     bill_validator := None; coin_acceptor := None;
     clock := 0%Q; log := []; loop := [] |}.

(** Assignments to one attribute. *)
Definition set_lock (b : bool) (m : Master) : Master :=
  {| lock := b; initialized := initialized m; usb_handler := usb_handler m;
     bill_validator := bill_validator m; coin_acceptor := coin_acceptor m;
     clock := clock m; log := log m;
     loop := loop m |}.

Definition set_initialized (b : bool) (m : Master) : Master :=
  {| lock := lock m; initialized := b; usb_handler := usb_handler m;
     bill_validator := bill_validator m; coin_acceptor := coin_acceptor m;
     clock := clock m; log := log m;
     loop := loop m |}.

Definition set_usb_handler (h : option USBHandler) (m : Master) : Master :=
  {| lock := lock m; initialized := initialized m; usb_handler := h;
     bill_validator := bill_validator m; coin_acceptor := coin_acceptor m;
     clock := clock m; log := log m;
     loop := loop m |}.

Definition set_bill_validator (p : option Peripheral) (m : Master) : Master :=
  {| lock := lock m; initialized := initialized m; usb_handler := usb_handler m;
     bill_validator := p; coin_acceptor := coin_acceptor m;
     clock := clock m; log := log m;
     loop := loop m |}.

Definition set_coin_acceptor (p : option Peripheral) (m : Master) : Master :=
  {| lock := lock m; initialized := initialized m; usb_handler := usb_handler m;
     bill_validator := bill_validator m; coin_acceptor := p;
     clock := clock m; log := log m;
     loop := loop m |}.

Definition set_clock (t : Q) (m : Master) : Master :=
  {| lock := lock m; initialized := initialized m; usb_handler := usb_handler m;
     bill_validator := bill_validator m; coin_acceptor := coin_acceptor m;
     clock := t; log := log m;
     loop := loop m |}.

Definition set_log (l : list entry) (m : Master) : Master :=
  {| lock := lock m; initialized := initialized m; usb_handler := usb_handler m;
     bill_validator := bill_validator m; coin_acceptor := coin_acceptor m;
     clock := clock m; log := l;
     loop := loop m |}.

Definition set_loop (ts : list task) (m : Master) : Master :=
  {| lock := lock m; initialized := initialized m; usb_handler := usb_handler m;
     bill_validator := bill_validator m; coin_acceptor := coin_acceptor m;
     clock := clock m; log := log m; loop := ts |}.

(** Append an event to the log, stamped with the present clock and flag. *)
Definition record (e : event) (m : Master) : Master :=
  set_log (log m ++ [ {| stamp := clock m; established := initialized m;
                         what := e |} ]) m.

(** ** Calls on the adapter *)

(** What [Complete] shows of an adapter's answer. *)
Definition seen_of_send (r : reply unit) : reply (option string) :=
  match r with
  | Returned _ => Returned None
  | Raised e => Raised e
  end.

Definition seen_of_sendread (r : reply string) : reply (option string) :=
  match r with
  | Returned s => Returned (Some s)
  | Raised e => Raised e
  end.

(** The two halves of an exchange: the request is handed to the adapter,
    and later the adapter comes back. *)
Definition transmit (who : caller) (message : string)
    (expects : option string) (m : Master) : Master :=
  record (Transmit who message expects) m.

Definition complete_send (who : caller) (message : string) (m : Master)
  : Master * reply unit :=
  match usb_handler m with
  | None => (m, Raised (AttributeError "usb_handler"))
  | Some h =>
      let '(c, r) := adapter_send h (state h) (to_ascii message) in
      (record (Complete who (seen_of_send r))
         (set_usb_handler (Some (with_state h c)) m), r)
  end.

Definition complete_sendread (who : caller) (message prefix : string)
    (m : Master) : Master * reply string :=
  match usb_handler m with
  | None => (m, Raised (AttributeError "usb_handler"))
  | Some h =>
      let '(c, r) := adapter_sendread h (state h) (to_ascii message) prefix in
      (record (Complete who (seen_of_sendread r))
         (set_usb_handler (Some (with_state h c)) m), r)
  end.

(** [await self.usb_handler.send(to_ascii(message))] *)
Definition usb_send (who : caller) (message : string) (m : Master)
  : Master * reply unit :=
  match usb_handler m with
  | None => (m, Raised (AttributeError "usb_handler"))
  | Some _ => complete_send who message (transmit who message None m)
  end.

(** [await self.usb_handler.sendread(to_ascii(message), prefix)] *)
Definition usb_sendread (who : caller) (message prefix : string) (m : Master)
  : Master * reply string :=
  match usb_handler m with
  | None => (m, Raised (AttributeError "usb_handler"))
  | Some _ =>
      complete_sendread who message prefix
        (transmit who message (Some prefix) m)
  end.

(** ** Coroutines of the master *)

(** A coroutine that runs alone: it changes the master and comes back with
    a value or an exception, or never comes back ([None]). *)
Definition coroutine (A : Type) : Type := Master -> Master * option (reply A).

#[local] Instance coroutine_ret : MRet coroutine :=
  fun A a m => (m, Some (Returned a)).

#[local] Instance coroutine_bind : MBind coroutine :=
  fun A B k c m =>
    match c m with
    | (m', Some (Returned a)) => k a m'
    | (m', Some (Raised e)) => (m', Some (Raised e))
    | (m', None) => (m', None)
    end.

(** [raise e] *)
Definition raise {A : Type} (e : exn) : coroutine A :=
  fun m => (m, Some (Raised e)).

(** [self.x = v] and other changes of the master that cannot fail. *)
Definition assign (f : Master -> Master) : coroutine unit :=
  fun m => (f m, Some (Returned tt)).

(** [assert self.initialized] *)
Definition assert_initialized : coroutine unit :=
  fun m => if initialized m then (m, Some (Returned tt))
           else (m, Some (Raised AssertionError)).

(** [self.x] for an attribute that [__init__] does not assign. *)
Definition attribute {A : Type} (get : Master -> option A) (name : string)
  : coroutine A :=
  fun m => match get m with
           | Some a => (m, Some (Returned a))
           | None => (m, Some (Raised (AttributeError name)))
           end.

(** [async with self.lock: body]: with the lock taken there is nobody to
    release it, and the coroutine never comes back; otherwise the lock is
    held for the body and released whatever the body's result. *)
Definition with_lock {A : Type} (body : Master -> Master * reply A)
  : coroutine A :=
  fun m =>
    if lock m then (m, None)
    else let '(m', r) := body (set_lock true m) in (set_lock false m', Some r).

(** [await asyncio.sleep(d)]: at least [d] seconds pass. *)
Definition sleep (d : Q) : coroutine unit :=
  fun m =>
    (set_clock (clock m + Qmax 0 d)%Q (record (Sleep d) m),
     Some (Returned tt)).

(** [Master.send] *)
Definition send (who : caller) (message : string) : coroutine unit :=
  _ ← assert_initialized;
  with_lock (usb_send who message).

(** [Master.sendread] *)
Definition sendread (who : caller) (message prefix : string)
  : coroutine string :=
  _ ← assert_initialized;
  with_lock (usb_sendread who message prefix).

(** ** [asyncio.gather]: a pool of peripheral coroutines *)

(** One step of the [i]-th coroutine.  A call of [master.send] checks the
    assertion, then needs the lock: while another coroutine holds it the
    caller does not move.  With the lock it hands the request to the adapter
    and suspends; its next step takes the adapter's answer, releases the
    lock and resumes the peripheral's code. *)
Definition step_task (i : nat) (t : task) (m : Master) : Master * task :=
  match t with
  | Running (Return v) => (m, Finished (Returned v))
  | Running (Raise e) => (m, Finished (Raised e))
  | Running (Yield k) => (m, Running k)
  | Running (CallSend message k) =>
      if negb (initialized m) then (m, Running (k (Raised AssertionError)))
      else if lock m then (m, t)
      else match usb_handler m with
           | None => (m, Running (k (Raised (AttributeError "usb_handler"))))
           | Some _ =>
               (transmit (Child i) message None (set_lock true m),
                InFlightSend message k)
           end
  | Running (CallSendRead message prefix k) =>
      if negb (initialized m) then (m, Running (k (Raised AssertionError)))
      else if lock m then (m, t)
      else match usb_handler m with
           | None => (m, Running (k (Raised (AttributeError "usb_handler"))))
           | Some _ =>
               (transmit (Child i) message (Some prefix) (set_lock true m),
                InFlightSendRead message prefix k)
           end
  | InFlightSend message k =>
      let '(m', r) := complete_send (Child i) message m in
      (set_lock false m', Running (k r))
  | InFlightSendRead message prefix k =>
      let '(m', r) := complete_sendread (Child i) message prefix m in
      (set_lock false m', Running (k r))
  | Finished _ => (m, t)
  end.

(** One step of the [i]-th coroutine of the pool. *)
Definition step (i : nat) (m : Master) (ts : list task)
  : Master * list task :=
  match ts !! i with
  | None => (m, ts)
  | Some t => let '(m', t') := step_task i t m in (m', <[i := t']> ts)
  end.

(** The exception the coroutine has raised. *)
Definition failure_of (t : task) : option exn :=
  match t with
  | Finished (Raised e) => Some e
  | _ => None
  end.

(** The exception of a coroutine that raised, if there is one. *)
Fixpoint first_failure (ts : list task) : option exn :=
  match ts with
  | [] => None
  | t :: ts' =>
      match failure_of t with
      | Some e => Some e
      | None => first_failure ts'
      end
  end.

(** A strict gather is over: one of its coroutines has raised. *)
Definition stopped (strict : bool) (ts : list task) : bool :=
  strict && bool_decide (is_Some (first_failure ts)).
Arguments stopped : simpl never.

(** The event loop follows a schedule: the indices of the coroutines to
    move, in order.  A strict gather (without [return_exceptions]) is over
    as soon as one coroutine has raised. *)
Fixpoint interleave (move : nat -> Master -> list task -> Master * list task)
    (strict : bool) (sched : list nat) (m : Master) (ts : list task)
  : Master * list task :=
  match sched with
  | [] => (m, ts)
  | i :: sched' =>
      if stopped strict ts then (m, ts)
      else let '(m', ts') := move i m ts in
           interleave move strict sched' m' ts'
  end.

(** The coroutine is inside an exchange. *)
Definition flying (t : task) : bool :=
  match t with
  | InFlightSend _ _ | InFlightSendRead _ _ _ => true
  | _ => false
  end.

(** When the schedule is used up the pool is run to its end: the exchange
    in flight completes ([settle]), then the coroutines run one after the
    other, each to its end ([finish_at]). *)
Definition settle (m : Master) (ts : list task) : Master * list task :=
  match list_find (fun t => flying t = true) ts with
  | Some (i, _) => step i m ts
  | None => (m, ts)
  end.

(** The [i]-th coroutine alone, from the code [c] to its end; it stays
    where it is when it needs the lock and the lock is taken. *)
Fixpoint finish (i : nat) (c : pcode) (m : Master) : Master * task :=
  match c with
  | Return v => (m, Finished (Returned v))
  | Raise e => (m, Finished (Raised e))
  | Yield k => finish i k m
  | CallSend message k =>
      match send (Child i) message m with
      | (m', Some r) => finish i (k r) m'
      | (m', None) => (m', Running c)
      end
  | CallSendRead message prefix k =>
      match sendread (Child i) message prefix m with
      | (m', Some r) => finish i (k r) m'
      | (m', None) => (m', Running c)
      end
  end.

Definition finish_at (i : nat) (m : Master) (ts : list task)
  : Master * list task :=
  match ts !! i with
  | Some (Running c) => let '(m', t') := finish i c m in (m', <[i := t']> ts)
  | _ => (m, ts)
  end.

(** The rest of a pool: the exchange in flight completes, then the
    coroutines run one after the other.  A strict gather follows them no
    further once one of them has raised. *)
Definition drain (strict : bool) (m : Master) (ts : list task)
  : Master * list task :=
  let '(m2, ts2) := settle m ts in
  interleave finish_at strict (seq 0 (length ts2)) m2 ts2.

(** The pool under a schedule, to the end of the gather.  A strict gather
    is over at the moment one of its coroutines raises: the others are
    left as they are, one of them possibly inside an exchange, with the
    lock held. *)
Definition run_pool (strict : bool) (sched : list nat) (m : Master)
    (ts : list task) : Master * list task :=
  let '(m1, ts1) := interleave step strict sched m ts in
  if stopped strict ts1 then (m1, ts1) else drain strict m1 ts1.

(** The result of a coroutine that is done. *)
Definition result_of (t : task) : option (reply value) :=
  match t with
  | Finished r => Some r
  | _ => None
  end.

(** The results of the pool in the order of the awaitables, when all of
    them are done. *)
Definition results (ts : list task) : option (list (reply value)) :=
  mapM result_of ts.

(** [await asyncio.gather(c0, c1, ..., return_exceptions=...)].  Without
    [return_exceptions] the first exception is raised to the caller at
    once, and the other coroutines are not cancelled: they stay in the
    event loop. *)
Definition gather (return_exceptions : bool) (sched : list nat)
    (cs : list pcode) : coroutine (list (reply value)) :=
  fun m =>
    let '(m', ts) :=
      run_pool (negb return_exceptions) sched m (Running <$> cs) in
    if return_exceptions then (m', Returned <$> results ts)
    else match first_failure ts with
         | Some e => (set_loop ts m', Some (Raised e))
         | None => (m', Returned <$> results ts)
         end.

(** The coroutines left in the event loop run to their ends; their
    results are nobody's. *)
Definition quiesce (m : Master) : Master :=
  set_loop [] (fst (drain false m (loop m))).
Arguments quiesce : simpl never.

(** A call of a peripheral's operation, as the log shows it. *)
Definition invoke (i : nat) (op : operation) : coroutine unit :=
  assign (record (Invoke i op)).

(** ** The methods of [Master] *)

(** [Master.initialize] *)
Definition initialize (h : USBHandler) (bv ca : Peripheral)
    (bus_reset : bool) (sched : list nat) : coroutine unit :=
  _ ← assign (set_usb_handler (Some h));
  _ ← assign (set_bill_validator (Some bv));
  _ ← assign (set_coin_acceptor (Some ca));
  status ← with_lock (usb_sendread Self ("M,1" +:+ LF) "m");
  if negb (String.eqb status "m,ACK")
  then raise (RuntimeError "Unable to start master mode on MDB board.")
  else
    _ ← assign (set_initialized true);
    _ ← (if bus_reset
         then _ ← send Self ("R,RESET" +:+ LF);
              sleep (SETUP_TIME_SECONDS + (1 # 10))%Q
         else mret tt);
    _ ← invoke 0 (OpInitialize (negb bus_reset));
    _ ← invoke 1 (OpInitialize (negb bus_reset));
    _ ← gather false sched [on_initialize bv (negb bus_reset);
                            on_initialize ca (negb bus_reset)];
    mret tt.

(** [Master.enable] *)
Definition enable (sched : list nat) : coroutine (list (reply value)) :=
  _ ← assert_initialized;
  bv ← attribute bill_validator "bill_validator";
  _ ← invoke 0 OpEnable;
  ca ← attribute coin_acceptor "coin_acceptor";
  _ ← invoke 1 OpEnable;
  gather true sched [on_enable bv; on_enable ca].

(** [Master.disable] *)
Definition disable (sched : list nat) : coroutine (list (reply value)) :=
  _ ← assert_initialized;
  bv ← attribute bill_validator "bill_validator";
  _ ← invoke 0 OpDisable;
  ca ← attribute coin_acceptor "coin_acceptor";
  _ ← invoke 1 OpDisable;
  gather true sched [on_disable bv; on_disable ca].

(** [Master.status] *)
Definition status (sched : list nat) : coroutine (list (reply value)) :=
  _ ← assert_initialized;
  bv ← attribute bill_validator "bill_validator";
  _ ← invoke 0 OpStatus;
  ca ← attribute coin_acceptor "coin_acceptor";
  _ ← invoke 1 OpStatus;
  gather true sched [on_status bv; on_status ca].

(** [Master.run] *)
Definition run (sched : list nat) : coroutine unit :=
  _ ← assert_initialized;
  bv ← attribute bill_validator "bill_validator";
  _ ← invoke 0 OpRun;
  ca ← attribute coin_acceptor "coin_acceptor";
  _ ← invoke 1 OpRun;
  _ ← gather false sched [on_run bv; on_run ca];
  mret tt.

(** * [mdb/cashless_slave.py] *)

(** What an attribute of a [CashlessSlave] holds: a flag or an adapter. *)
Inductive attr : Type :=
| ABool (b : bool)
| AHandler (h : USBHandler).

(** An instance of [CashlessSlave]: the attributes assigned on it.  The
    class body assigns none (its three annotations do not), so reading a
    data attribute succeeds only when the instance has it. *)
Definition CashlessSlave : Type := gmap string attr.

(** [self.name] *)
Definition getattr (self : CashlessSlave) (name : string) : reply attr :=
  match self !! name with
  | Some a => Returned a
  | None => Raised (AttributeError name)
  end.

(** Python's truth value of an attribute. *)
Definition truth (a : attr) : bool :=
  match a with
  | ABool b => b
  | _ => true
  end.

(** [CashlessSlave.__init__]: the flag is stored under the name
    [_initalized]; then the logger's name is to be built from
    [self._class__.__name__], and neither a flag nor an adapter has a
    [__name__]. *)
Definition CashlessSlave_init (self : CashlessSlave)
  : CashlessSlave * reply unit :=
  let self1 := <["_initalized" := ABool false]> self in
  match getattr self1 "_class__" with
  | Raised e => (self1, Raised e)
  | Returned _ => (self1, Raised (AttributeError "__name__"))
  end.

(** [CashlessSlave()]: a new instance, then [__init__]. *)
Definition CashlessSlave_new : reply CashlessSlave :=
  match CashlessSlave_init ∅ with
  | (self, Returned _) => Returned self
  | (_, Raised e) => Raised e
  end.

(** [CashlessSlave.initialize] *)
Definition slave_initialize (h : USBHandler) (self : CashlessSlave)
  : CashlessSlave :=
  <["_initalized" := ABool true]> (<["_usb_handler" := AHandler h]> self).

(** [CashlessSlave.run]: [assert self._initialized]. *)
Definition slave_run (self : CashlessSlave) : reply unit :=
  match getattr self "_initialized" with
  | Raised e => Raised e
  | Returned a => if truth a then Returned tt else Raised AssertionError
  end.

(** [initialize] called with each of the adapters in turn. *)
Definition slave_initialize_all (hs : list USBHandler)
    (self : CashlessSlave) : CashlessSlave :=
  foldl (fun s h => slave_initialize h s) self hs.

(** * Predicates for the statements *)

(** ** What a call adds to the log *)

(** The events of the log, without their stamps. *)
Definition events (m : Master) : list event := what <$> log m.

(** The events of [who]'s exchanges. *)
Definition exchange_of (who : caller) (e : event) : Prop :=
  match e with
  | Transmit w _ _ | Complete w _ => w = who
  | _ => False
  end.

(** The events of the exchanges of the coroutines of a gather. *)
Definition child_exchange (e : event) : Prop :=
  match e with
  | Transmit (Child _) _ _ | Complete (Child _) _ => True
  | _ => False
  end.

(** An entry written at clock [t] under flag [b], with an event in [P]. *)
Definition written_at (t : Q) (b : bool) (P : event -> Prop) (x : entry)
  : Prop :=
  stamp x = t /\ established x = b /\ P (what x).

(** [m'] is [m] after some exchanges: the log has grown by entries that
    satisfy [P]; the flag, the clock and the peripherals are the same and
    the adapter is still there. *)
Definition grows (P : entry -> Prop) (m m' : Master) : Prop :=
  initialized m' = initialized m /\
  clock m' = clock m /\
  bill_validator m' = bill_validator m /\
  coin_acceptor m' = coin_acceptor m /\
  (is_Some (usb_handler m) -> is_Some (usb_handler m')) /\
  exists new, log m' = log m ++ new /\ Forall P new.

(** The entries a caller writes while the clock shows [clock m] and the
    flag is [initialized m]. *)
Definition by_caller (who : caller) (m : Master) : entry -> Prop :=
  written_at (clock m) (initialized m) (exchange_of who).

Definition by_children (m : Master) : entry -> Prop :=
  written_at (clock m) (initialized m) child_exchange.

(** [m'] is [m] after some exchanges of the coroutines of a gather. *)
Definition pool_grows (m m' : Master) : Prop := grows (by_children m) m m'.

(** ** The lock and the pool *)

(** Reading a log from the left with the caller whose exchange is open:
    a [Transmit] needs the channel free and opens an exchange, a [Complete]
    closes the exchange of the same caller; anything else on the channel
    is a violation ([None]). *)
Fixpoint serial (holder : option caller) (l : list event)
  : option (option caller) :=
  match l with
  | [] => Some holder
  | Transmit w _ _ :: l' =>
      match holder with
      | None => serial (Some w) l'
      | Some _ => None
      end
  | Complete w _ :: l' =>
      match holder with
      | Some w' => if caller_eqb w w' then serial None l' else None
      | None => None
      end
  | _ :: l' => serial holder l'
  end.

(** The log since [m0] is serial and ends with [holder]'s exchange open,
    and the lock is held exactly when an exchange is open. *)
Definition channel_state (m0 m : Master) (holder : option caller) : Prop :=
  (exists new, log m = log m0 ++ new /\
               serial None (what <$> new) = Some holder) /\
  lock m = bool_decide (is_Some holder) /\
  (is_Some holder -> is_Some (usb_handler m)).

(** No coroutine of the pool is in an exchange. *)
Definition quiet (ts : list task) : Prop :=
  forall j t, ts !! j = Some t -> flying t = false.

(** The [i]-th coroutine of the pool is in an exchange, and no other. *)
Definition held_by (i : nat) (ts : list task) : Prop :=
  (exists t, ts !! i = Some t /\ flying t = true) /\
  forall j t, j <> i -> ts !! j = Some t -> flying t = false.

(** The invariant of a pool: nobody is in flight and the channel is free,
    or exactly one coroutine is in flight and it holds the lock. *)
Definition in_step (m0 m : Master) (ts : list task) : Prop :=
  (channel_state m0 m None /\ quiet ts) \/
  (exists i, channel_state m0 m (Some (Child i)) /\ held_by i ts).

(** The first [i] coroutines of the pool are done; all of them are. *)
Definition done_upto (i : nat) (ts : list task) : Prop :=
  forall j t, j < i -> ts !! j = Some t -> is_Some (result_of t).

Definition all_done (ts : list task) : Prop :=
  Forall (fun t => is_Some (result_of t)) ts.

(** ** The ends of a coroutine *)

(** [leads c c']: the code [c] becomes [c'] for some answers to its
    calls. *)
Inductive leads (c : pcode) : pcode -> Prop :=
| leads_here : leads c c
| leads_yield (k : pcode) : leads c (Yield k) -> leads c k
| leads_send (message : string) (k : reply unit -> pcode) (r : reply unit) :
    leads c (CallSend message k) -> leads c (k r)
| leads_sendread (message prefix : string) (k : reply string -> pcode)
    (r : reply string) :
    leads c (CallSendRead message prefix k) -> leads c (k r).

(** The code that ends at once with [r]. *)
Definition code_of (r : reply value) : pcode :=
  match r with
  | Returned v => Return v
  | Raised e => Raise e
  end.

(** The task [t] is a state of the coroutine that started as [c]. *)
Definition follows (c : pcode) (t : task) : Prop :=
  match t with
  | Running c' => leads c c'
  | InFlightSend message k => leads c (CallSend message k)
  | InFlightSendRead message prefix k => leads c (CallSendRead message prefix k)
  | Finished r => leads c (code_of r)
  end.

(** [ends c r]: the code [c] can end with [r], by returning a value or by
    raising. *)
Definition ends (c : pcode) (r : reply value) : Prop := leads c (code_of r).

(** A coroutine whose only possible end is [r]. *)
Definition only_ends (c : pcode) (r : reply value) : Prop :=
  forall r', ends c r' -> r' = r.

(** At most one coroutine of the pool has raised. *)
Definition single_failure (ts : list task) : Prop :=
  forall i j ti tj,
    ts !! i = Some ti -> ts !! j = Some tj ->
    is_Some (failure_of ti) -> is_Some (failure_of tj) -> i = j.

(** A move touches the coroutine it is given and no other. *)
Definition local
    (move : nat -> Master -> list task -> Master * list task) : Prop :=
  forall i m ts, exists t', snd (move i m ts) = <[i := t']> ts.

(** ** The fan-out *)

(** The master once both calls of a fan-out are in the log. *)
Definition invoked (op : operation) (m : Master) : Master :=
  record (Invoke 1 op) (record (Invoke 0 op) m).

(** A fan-out came back with the two outcomes [o0] and [o1], each an end
    of the code of its own peripheral. *)
Definition two_outcomes (r : option (reply (list (reply value))))
    (c0 c1 : pcode) : Prop :=
  exists o0 o1, r = Some (Returned [o0; o1]) /\ ends c0 o0 /\ ends c1 o1.



(** ** The steps of [initialize] *)

(** The two texts the master sends, and the exception of a refused
    claim. *)
Definition claim_text : string := "M,1" +:+ LF.
Definition reset_text : string := "R,RESET" +:+ LF.
Definition refusal : exn :=
  RuntimeError "Unable to start master mode on MDB board.".

(** The settle delay after a bus reset. *)
Definition settle_delay : Q := (SETUP_TIME_SECONDS + (1 # 10))%Q.

(** The adapter's answer to the claim, and the adapter after it. *)
Definition mastership_reply (h : USBHandler) : reply string :=
  snd (adapter_sendread h (state h) (to_ascii claim_text) "m").

Definition claimed_adapter (h : USBHandler) : USBHandler :=
  with_state h (fst (adapter_sendread h (state h) (to_ascii claim_text) "m")).

(** The adapter's answer to the reset that follows, and the adapter after
    it. *)
Definition reset_reply (h : USBHandler) : reply unit :=
  snd (adapter_send h (state (claimed_adapter h)) (to_ascii reset_text)).

Definition reset_adapter (h : USBHandler) : USBHandler :=
  with_state h
    (fst (adapter_send h (state (claimed_adapter h)) (to_ascii reset_text))).

(** The answer is the acknowledgement, exactly. *)
Definition acknowledged (r : reply string) : bool :=
  match r with
  | Returned s => String.eqb s "m,ACK"
  | Raised _ => false
  end.

(** The master with the three references stored. *)
Definition stored (h : USBHandler) (bv ca : Peripheral) (m : Master)
  : Master :=
  set_coin_acceptor (Some ca)
    (set_bill_validator (Some bv) (set_usb_handler (Some h) m)).

(** The entry of the event [e], written at clock [t] under flag [b]. *)
Definition entry_at (t : Q) (b : bool) (e : event) : entry :=
  {| stamp := t; established := b; what := e |}.

(** The master after the claim: references stored, the exchange in the
    log, the lock released. *)
Definition after_claim (h : USBHandler) (bv ca : Peripheral) (m : Master)
  : Master :=
  {| lock := false;
     initialized := initialized m;
     usb_handler := Some (claimed_adapter h);
     bill_validator := Some bv;
     coin_acceptor := Some ca;
     clock := clock m;
     log := log m ++
            [entry_at (clock m) (initialized m)
               (Transmit Self claim_text (Some "m"));
             entry_at (clock m) (initialized m)
               (Complete Self (seen_of_sendread (mastership_reply h)))];
     loop := loop m |}.

(** The master after the reset was sent, from the master after an
    acknowledged claim. *)
Definition after_reset (h : USBHandler) (bv ca : Peripheral) (m : Master)
  : Master :=
  {| lock := false;
     initialized := true;
     usb_handler := Some (reset_adapter h);
     bill_validator := Some bv;
     coin_acceptor := Some ca;
     clock := clock m;
     log := log (after_claim h bv ca m) ++
            [entry_at (clock m) true (Transmit Self reset_text None);
             entry_at (clock m) true
               (Complete Self (seen_of_send (reset_reply h)))];
     loop := loop m |}.

(** The master after the settle delay. *)
Definition after_settle (h : USBHandler) (bv ca : Peripheral) (m : Master)
  : Master :=
  set_clock (clock m + Qmax 0 settle_delay)%Q
    (record (Sleep settle_delay) (after_reset h bv ca m)).

(** The last step of [initialize]: both calls, then the strict gather. *)
Definition bring_up (bv ca : Peripheral) (bus_reset : bool)
    (sched : list nat) (m : Master) : Master * option (reply unit) :=
  match gather false sched [on_initialize bv (negb bus_reset);
                            on_initialize ca (negb bus_reset)]
          (invoked (OpInitialize (negb bus_reset)) m) with
  | (m', Some (Returned _)) => (m', Some (Returned tt))
  | (m', Some (Raised e)) => (m', Some (Raised e))
  | (m', None) => (m', None)
  end.

(** The clock when the bring-up of the peripherals starts. *)
Definition ready_clock (bus_reset : bool) (m : Master) : Q :=
  if bus_reset then (clock m + Qmax 0 settle_delay)%Q else clock m.

(** The entries [initialize] writes, given those of the peripherals'
    coroutines. *)
Definition initialize_entries (h : USBHandler) (bus_reset : bool)
    (m : Master) (pool : list entry) : list entry :=
  [entry_at (clock m) (initialized m) (Transmit Self claim_text (Some "m"));
   entry_at (clock m) (initialized m)
     (Complete Self (seen_of_sendread (mastership_reply h)))] ++
  if acknowledged (mastership_reply h) then
    if bus_reset then
      [entry_at (clock m) true (Transmit Self reset_text None);
       entry_at (clock m) true
         (Complete Self (seen_of_send (reset_reply h)))] ++
      match reset_reply h with
      | Raised _ => []
      | Returned _ =>
          [entry_at (clock m) true (Sleep settle_delay);
           entry_at (ready_clock true m) true (Invoke 0 (OpInitialize false));
           entry_at (ready_clock true m) true (Invoke 1 (OpInitialize false))]
          ++ pool
      end
    else
      [entry_at (clock m) true (Invoke 0 (OpInitialize true));
       entry_at (clock m) true (Invoke 1 (OpInitialize true))] ++ pool
  else [].




(** ** Sequences of calls *)

(** A call of one of the master's methods. *)
Inductive request : Type :=
| ReqInitialize (h : USBHandler) (bv ca : Peripheral) (bus_reset : bool)
    (sched : list nat)
| ReqSend (who : caller) (message : string)
| ReqSendRead (who : caller) (message prefix : string)
| ReqEnable (sched : list nat)
| ReqDisable (sched : list nat)
| ReqStatus (sched : list nat)
| ReqRun (sched : list nat).

(** The call is a call of [initialize]. *)
Definition is_initialize (r : request) : bool :=
  match r with
  | ReqInitialize _ _ _ _ _ => true
  | _ => false
  end.


(** The master when the call comes back. *)
Definition at_return (r : request) (m : Master) : Master :=
  match r with
  | ReqInitialize h bv ca bus_reset sched =>
      fst (initialize h bv ca bus_reset sched m)
  | ReqSend who message => fst (send who message m)
  | ReqSendRead who message prefix => fst (sendread who message prefix m)
  | ReqEnable sched => fst (enable sched m)
  | ReqDisable sched => fst (disable sched m)
  | ReqStatus sched => fst (status sched m)
  | ReqRun sched => fst (run sched m)
  end.

(** The master after the call, once the coroutines that the call may have
    left in the event loop have ended: the next call is made then. *)
Definition perform (r : request) (m : Master) : Master :=
  quiesce (at_return r m).

(** The call is an [initialize] whose claim the adapter acknowledges. *)
Definition claim_acknowledged (r : request) : bool :=
  match r with
  | ReqInitialize h _ _ _ _ => acknowledged (mastership_reply h)
  | _ => false
  end.

(** The master after the calls, one after the other. *)
Definition perform_all (rs : list request) (m : Master) : Master :=
  foldl (fun m' r => perform r m') m rs.

(** ** Whole exchanges *)

(** A log of whole exchanges: each request is followed at once by the
    answer to the same caller. *)
Inductive cycles : list event -> Prop :=
| cycles_nil : cycles []
| cycles_pair (w : caller) (message : string) (expects : option string)
    (r : reply (option string)) (l : list event) :
    cycles l -> cycles (Transmit w message expects :: Complete w r :: l).

(** The same, with possibly one more exchange under way at the end. *)
Definition cycles_so_far (l : list event) : Prop :=
  cycles l \/
  exists l' w message expects,
    l = l' ++ [Transmit w message expects] /\ cycles l'.

(** The events of exchanges, whoever the caller. *)
Definition on_channel (e : event) : Prop :=
  match e with
  | Transmit _ _ _ | Complete _ _ => True
  | _ => False
  end.

(** What [serial] accepts on a log of channel events: whole exchanges, up
    to the one of [holder] that is open at the end. *)
Definition upto_holder (holder : option caller) (l : list event) : Prop :=
  match holder with
  | None => cycles l
  | Some w =>
      exists l' message expects,
        l = l' ++ [Transmit w message expects] /\ cycles l'
  end.

(** ** Every state the master reaches *)

(** The event is on the channel. *)
Definition is_channel (e : event) : bool :=
  match e with
  | Transmit _ _ _ | Complete _ _ => true
  | _ => false
  end.

(** The channel events of some entries, in order. *)
Definition exchanges (l : list entry) : list event :=
  filter (fun e => is_channel e = true) (what <$> l).

(** An entry that may be in the log: written with the session established,
    or part of the exchange of the claim. *)
Definition allowed (x : entry) : Prop :=
  established x = true \/
  what x = Transmit Self ("M,1" +:+ LF) (Some "m") \/
  exists r, what x = Complete Self r.

(** The three references are assigned. *)
Definition equipped (m : Master) : Prop :=
  is_Some (usb_handler m) /\ is_Some (bill_validator m) /\
  is_Some (coin_acceptor m).

(** What holds of the master between two calls, when the event loop is
    quiet. *)
Definition sound (m : Master) : Prop :=
  lock m = false /\
  (initialized m = true -> equipped m) /\
  Forall allowed (log m) /\
  cycles (exchanges (log m)) /\
  loop m = [].

(** What a call does to a sound master, once the event loop is quiet
    again. *)
Definition effect (m m' : Master) : Prop :=
  lock m' = false /\
  (initialized m' = true -> equipped m') /\
  exists new,
    log m' = log m ++ new /\ Forall allowed new /\ cycles (exchanges new) /\
    loop m' = [].

(** The coroutine came back, with a value or an exception. *)
Definition answers {A : Type} (o : option A) : bool :=
  match o with
  | Some _ => true
  | None => false
  end.

(** The call comes back. *)
Definition came_back (r : request) (m : Master) : bool :=
  match r with
  | ReqInitialize h bv ca bus_reset sched =>
      answers (snd (initialize h bv ca bus_reset sched m))
  | ReqSend who message => answers (snd (send who message m))
  | ReqSendRead who message prefix =>
      answers (snd (sendread who message prefix m))
  | ReqEnable sched => answers (snd (enable sched m))
  | ReqDisable sched => answers (snd (disable sched m))
  | ReqStatus sched => answers (snd (status sched m))
  | ReqRun sched => answers (snd (run sched m))
  end.

(** ** The adapter's side of the log *)

(** A request on the channel: who asks, the message and, for [sendread],
    the prefix. *)
Definition request_on_channel : Type := caller * string * option string.

(** The requests among some events, in order. *)
Definition requests (l : list event) : list request_on_channel :=
  omap (fun e => match e with
                 | Transmit who message expects =>
                     Some (who, message, expects)
                 | _ => None
                 end) l.

(** The adapter in the state [s] is handed the message, with [send] or,
    given a prefix, with [sendread]: the state it is left in, and what the
    log shows of its answer. *)
Definition adapter_answer (h : USBHandler) (s : adapter_state h)
    (message : string) (expects : option string)
  : adapter_state h * reply (option string) :=
  match expects with
  | None =>
      (fst (adapter_send h s (to_ascii message)),
       seen_of_send (snd (adapter_send h s (to_ascii message))))
  | Some prefix =>
      (fst (adapter_sendread h s (to_ascii message) prefix),
       seen_of_sendread (snd (adapter_sendread h s (to_ascii message)
                                prefix)))
  end.

(** The adapter, from the state [s], is handed the requests one after the
    other: the exchanges this gives, and the state it is left in. *)
Fixpoint replay (h : USBHandler) (s : adapter_state h)
    (reqs : list request_on_channel) : list event * adapter_state h :=
  match reqs with
  | [] => ([], s)
  | (who, message, expects) :: reqs' =>
      (Transmit who message expects
         :: Complete who (snd (adapter_answer h s message expects))
         :: fst (replay h (fst (adapter_answer h s message expects)) reqs'),
       snd (replay h (fst (adapter_answer h s message expects)) reqs'))
  end.

(** The exchanges [l] are a dialogue with the adapter [h] from the state
    it is given in, and leave it in the state [s]. *)
Definition tuned (h : USBHandler) (l : list event) (s : adapter_state h)
  : Prop :=
  exists reqs, replay h (state h) reqs = (l, s).

(** Since [m0] the master has talked to the adapter [h], given to [m0] in
    the state it holds, and to nothing else; no exchange is open. *)
Definition in_tune (h : USBHandler) (m0 m : Master) : Prop :=
  exists new s,
    log m = log m0 ++ new /\
    usb_handler m = Some (with_state h s) /\
    tuned h (exchanges new) s.

(** The same with the exchange of [who] open: the request is in the log
    and the adapter has not answered yet. *)
Definition in_tune_open (h : USBHandler) (m0 m : Master) (who : caller)
    (message : string) (expects : option string) : Prop :=
  exists new s l,
    log m = log m0 ++ new /\
    usb_handler m = Some (with_state h s) /\
    exchanges new = l ++ [Transmit who message expects] /\
    tuned h l s.

(** The request that a coroutine in an exchange has handed over. *)
Definition pending (t : task) : option (string * option string) :=
  match t with
  | InFlightSend message _ => Some (message, None)
  | InFlightSendRead message prefix _ => Some (message, Some prefix)
  | _ => None
  end.

(** The invariant of a pool on the adapter's side: with the lock free
    nobody is in flight and the log is a dialogue with the adapter; with
    the lock held, the request that is open in the log is the one of the
    coroutine in flight. *)
Definition attuned (h : USBHandler) (m0 m : Master) (ts : list task)
  : Prop :=
  (lock m = false /\ quiet ts /\ in_tune h m0 m) \/
  (lock m = true /\
   exists i t message expects,
     held_by i ts /\ ts !! i = Some t /\
     pending t = Some (message, expects) /\
     in_tune_open h m0 m (Child i) message expects).

(** The adapter a call talks to: the one it is given, for [initialize],
    and else the one the master holds. *)
Definition adapter_of (r : request) (m : Master) : option USBHandler :=
  match r with
  | ReqInitialize h _ _ _ _ => Some h
  | _ => usb_handler m
  end.

(** * Instances for the examples *)

(** [to_ascii] as the ASCII encoder, and a setup time of 0.2 seconds. *)
Definition ascii_bytes : string -> bytes := String.list_byte_of_string.
Definition setup_time : Q := 1 # 5.

(** Three adapters that count their exchanges: one acknowledges the claim
    and accepts everything, one answers the claim with 'x,NAK', one
    acknowledges the claim and then fails every [send]. *)
Definition acking : USBHandler :=
  {| adapter_state := nat;
     state := 0;
     adapter_send := fun c _ => (S c, Returned tt);
     adapter_sendread := fun c _ _ => (S c, Returned "m,ACK") |}.

Definition refusing : USBHandler :=
  {| adapter_state := nat;
     state := 0;
     adapter_send := fun c _ => (S c, Returned tt);
     adapter_sendread := fun c _ _ => (S c, Returned "x,NAK") |}.

Definition mute_after_claim : USBHandler :=
  {| adapter_state := nat;
     state := 0;
     adapter_send := fun c _ => (S c, Raised (OtherError "ChannelError"));
     adapter_sendread := fun c _ _ => (S c, Returned "m,ACK") |}.

(** A peripheral that never fails and one whose [enable] and [run] raise;
    both talk to the master when they are initialized. *)
Definition steady : Peripheral :=
  {| on_initialize := fun _ =>
       CallSendRead "S" "s" (fun _ => Return VNone);
     on_enable := Return VNone;
     on_disable := Return VNone;
     on_status := Return (VStr "ok");
     on_run := Yield (Return VNone) |}.

Definition jammed : Peripheral :=
  {| on_initialize := fun _ =>
       CallSendRead "J" "j" (fun _ => CallSend "K" (fun _ => Return VNone));
     on_enable := Raise (OtherError "jam");
     on_disable := Return VNone;
     on_status := Return (VStr "jammed");
     on_run := Raise (OtherError "jam") |}.

(** An established master: the one a bring-up without bus reset leaves,
    with [acking] as adapter, [jammed] as bill validator and [steady] as
    coin acceptor. *)
Definition brought_up : Master :=
  {| lock := false;
     initialized := true;
     usb_handler := Some (with_state acking 4);
     bill_validator := Some jammed;
     coin_acceptor := Some steady;
     clock := 0;
     log :=
       [entry_at 0 false (Transmit Self ("M,1" +:+ LF) (Some "m"));
        entry_at 0 false (Complete Self (Returned (Some "m,ACK")));
        entry_at 0 true (Invoke 0 (OpInitialize true));
        entry_at 0 true (Invoke 1 (OpInitialize true));
        entry_at 0 true (Transmit (Child 0) "J" (Some "j"));
        entry_at 0 true (Complete (Child 0) (Returned (Some "m,ACK")));
        entry_at 0 true (Transmit (Child 0) "K" None);
        entry_at 0 true (Complete (Child 0) (Returned None));
        entry_at 0 true (Transmit (Child 1) "S" (Some "s"));
        entry_at 0 true (Complete (Child 1) (Returned (Some "m,ACK")))];
     loop := [] |}.


Definition refused_call : request :=
  ReqInitialize refusing jammed steady true [].

(** A peripheral whose [run] talks to the master first, and an
    established master with it as bill validator and [jammed] as coin
    acceptor. *)
Definition polling : Peripheral :=
  {| on_initialize := fun _ => Return VNone;
     on_enable := Return VNone;
     on_disable := Return VNone;
     on_status := Return (VStr "ok");
     on_run := CallSend "P" (fun _ => Return VNone) |}.

Definition polled_up : Master :=
  set_coin_acceptor (Some jammed)
    (set_bill_validator (Some polling) brought_up).

(** * Properties *)

(** ** What one exchange does to the master *)

Lemma grows_refl (P : entry -> Prop) (m : Master) : grows P m m.
Proof.
  repeat split; auto. exists []. rewrite app_nil_r. auto.
Qed.

Lemma grows_trans (P : entry -> Prop) (m1 m2 m3 : Master) :
  grows P m1 m2 -> grows P m2 m3 -> grows P m1 m3.
Proof.
  intros (Hi & Hc & Hb & Ha & Hu & n1 & Hl & Hn)
         (Hi' & Hc' & Hb' & Ha' & Hu' & n2 & Hl' & Hn').
  repeat split; try congruence; auto.
  exists (n1 ++ n2). rewrite Hl', Hl, app_assoc. split; auto.
  apply Forall_app; auto.
Qed.

Lemma grows_weaken (P R : entry -> Prop) (m m' : Master) :
  (forall x, P x -> R x) -> grows P m m' -> grows R m m'.
Proof.
  intros HPR (Hi & Hc & Hb & Ha & Hu & n & Hl & Hn).
  repeat split; auto. exists n. split; auto.
  eapply Forall_impl; eauto.
Qed.

Lemma by_caller_child (i : nat) (m : Master) (x : entry) :
  by_caller (Child i) m x -> by_children m x.
Proof.
  intros (Hs & He & Hw). repeat split; auto.
  destruct (what x) as [w ? ?|w ?| |]; simpl in *; subst; auto.
Qed.

Lemma by_children_eq (m m' : Master) :
  initialized m' = initialized m -> clock m' = clock m ->
  forall x, by_children m' x -> by_children m x.
Proof. unfold by_children. intros -> ->. auto. Qed.

Lemma grows_lock (P : entry -> Prop) (b : bool) (m m' : Master) :
  grows P m m' -> grows P m (set_lock b m').
Proof. intros H. exact H. Qed.

Lemma grows_lock_l (P : entry -> Prop) (b : bool) (m m' : Master) :
  grows P (set_lock b m) m' -> grows P m m'.
Proof. intros H. exact H. Qed.

Lemma transmit_grows (who : caller) (message : string)
    (expects : option string) (m : Master) :
  grows (by_caller who m) m (transmit who message expects m).
Proof.
  repeat split; auto. eexists. split; [reflexivity|].
  repeat constructor.
Qed.

Lemma complete_send_grows (who : caller) (message : string) (m : Master) :
  grows (by_caller who m) m (fst (complete_send who message m)).
Proof.
  unfold complete_send. destruct (usb_handler m) as [h|] eqn:Hh.
  - destruct (adapter_send h (state h) (to_ascii message)) as [c r].
    repeat split; simpl; eauto. eexists. split; [reflexivity|].
    repeat constructor.
  - apply grows_refl.
Qed.

Lemma complete_sendread_grows (who : caller) (message prefix : string)
    (m : Master) :
  grows (by_caller who m) m (fst (complete_sendread who message prefix m)).
Proof.
  unfold complete_sendread. destruct (usb_handler m) as [h|] eqn:Hh.
  - destruct (adapter_sendread h (state h) (to_ascii message) prefix)
      as [c r].
    repeat split; simpl; eauto. eexists. split; [reflexivity|].
    repeat constructor.
  - apply grows_refl.
Qed.

Lemma usb_send_grows (who : caller) (message : string) (m : Master) :
  grows (by_caller who m) m (fst (usb_send who message m)).
Proof.
  unfold usb_send. destruct (usb_handler m); [|apply grows_refl].
  eapply grows_trans; [apply transmit_grows|].
  apply (complete_send_grows who message (transmit who message None m)).
Qed.

Lemma usb_sendread_grows (who : caller) (message prefix : string)
    (m : Master) :
  grows (by_caller who m) m (fst (usb_sendread who message prefix m)).
Proof.
  unfold usb_sendread. destruct (usb_handler m); [|apply grows_refl].
  eapply grows_trans; [apply transmit_grows|].
  apply (complete_sendread_grows who message prefix
           (transmit who message (Some prefix) m)).
Qed.

Lemma with_lock_grows {A : Type} (P : entry -> Prop)
    (body : Master -> Master * reply A) (m : Master) :
  (forall m0, grows P m0 (fst (body m0))) ->
  grows P m (fst (with_lock body m)).
Proof.
  intros Hb. unfold with_lock. destruct (lock m); [apply grows_refl|].
  specialize (Hb (set_lock true m)).
  destruct (body (set_lock true m)) as [m' r]. exact Hb.
Qed.

Lemma send_grows (who : caller) (message : string) (m : Master) :
  grows (by_caller who m) m (fst (send who message m)).
Proof.
  unfold send, mbind, coroutine_bind, assert_initialized.
  destruct (initialized m); [|apply grows_refl].
  unfold with_lock. destruct (lock m); [apply grows_refl|].
  pose proof (usb_send_grows who message (set_lock true m)) as H.
  destruct (usb_send who message (set_lock true m)) as [m' r]. exact H.
Qed.

Lemma sendread_grows (who : caller) (message prefix : string) (m : Master) :
  grows (by_caller who m) m (fst (sendread who message prefix m)).
Proof.
  unfold sendread, mbind, coroutine_bind, assert_initialized.
  destruct (initialized m); [|apply grows_refl].
  unfold with_lock. destruct (lock m); [apply grows_refl|].
  pose proof (usb_sendread_grows who message prefix (set_lock true m)) as H.
  destruct (usb_sendread who message prefix (set_lock true m)) as [m' r].
  exact H.
Qed.

(** ** What a pool does to the master *)

Lemma pool_grows_refl (m : Master) : pool_grows m m.
Proof. apply grows_refl. Qed.

Lemma pool_grows_trans (m1 m2 m3 : Master) :
  pool_grows m1 m2 -> pool_grows m2 m3 -> pool_grows m1 m3.
Proof.
  intros H12 H23. eapply grows_trans; [exact H12|].
  eapply grows_weaken; [|exact H23].
  destruct H12 as (Hi & Hc & _). apply by_children_eq; auto.
Qed.

Lemma caller_pool_grows (i : nat) (m m' : Master) :
  grows (by_caller (Child i) m) m m' -> pool_grows m m'.
Proof. apply grows_weaken, by_caller_child. Qed.

Lemma step_task_grows (i : nat) (t : task) (m : Master) :
  pool_grows m (fst (step_task i t m)).
Proof.
  destruct t as [c|message k|message prefix k|r]; simpl;
    try apply pool_grows_refl.
  - destruct c as [v|e|k|message k|message prefix k]; simpl;
      try apply pool_grows_refl.
    + destruct (initialized m); simpl; [|apply pool_grows_refl].
      destruct (lock m); [apply pool_grows_refl|].
      destruct (usb_handler m) eqn:Hh; [|apply pool_grows_refl].
      apply (caller_pool_grows i), grows_lock_l with (b := true).
      apply (transmit_grows (Child i) message None (set_lock true m)).
    + destruct (initialized m); simpl; [|apply pool_grows_refl].
      destruct (lock m); [apply pool_grows_refl|].
      destruct (usb_handler m) eqn:Hh; [|apply pool_grows_refl].
      apply (caller_pool_grows i), grows_lock_l with (b := true).
      apply (transmit_grows (Child i) message (Some prefix)
               (set_lock true m)).
  - pose proof (complete_send_grows (Child i) message m) as H.
    destruct (complete_send (Child i) message m) as [m' r].
    apply (caller_pool_grows i). exact H.
  - pose proof (complete_sendread_grows (Child i) message prefix m) as H.
    destruct (complete_sendread (Child i) message prefix m) as [m' r].
    apply (caller_pool_grows i). exact H.
Qed.

Lemma step_grows (i : nat) (m : Master) (ts : list task) :
  pool_grows m (fst (step i m ts)).
Proof.
  unfold step. destruct (ts !! i) as [t|]; [|apply pool_grows_refl].
  pose proof (step_task_grows i t m) as H.
  destruct (step_task i t m) as [m' t']. exact H.
Qed.

Lemma finish_grows (i : nat) (c : pcode) (m : Master) :
  pool_grows m (fst (finish i c m)).
Proof.
  revert m.
  induction c as [v|e|k IH|message k IH|message prefix k IH]; intros m;
    simpl; try apply pool_grows_refl; auto.
  - pose proof (send_grows (Child i) message m) as H.
    destruct (send (Child i) message m) as [m' [r|]];
      apply caller_pool_grows in H; [|exact H].
    eapply pool_grows_trans; [exact H|apply IH].
  - pose proof (sendread_grows (Child i) message prefix m) as H.
    destruct (sendread (Child i) message prefix m) as [m' [r|]];
      apply caller_pool_grows in H; [|exact H].
    eapply pool_grows_trans; [exact H|apply IH].
Qed.

Lemma finish_at_grows (i : nat) (m : Master) (ts : list task) :
  pool_grows m (fst (finish_at i m ts)).
Proof.
  unfold finish_at.
  destruct (ts !! i) as [[c| | |]|]; try apply pool_grows_refl.
  pose proof (finish_grows i c m) as H.
  destruct (finish i c m) as [m' t']. exact H.
Qed.

Lemma interleave_grows
    (move : nat -> Master -> list task -> Master * list task)
    (strict : bool) (sched : list nat) (m : Master) (ts : list task) :
  (forall i m0 ts0, pool_grows m0 (fst (move i m0 ts0))) ->
  pool_grows m (fst (interleave move strict sched m ts)).
Proof.
  intros Hmove. revert m ts.
  induction sched as [|i sched IH]; intros m ts; simpl;
    [apply pool_grows_refl|].
  destruct (stopped strict ts); [apply pool_grows_refl|].
  pose proof (Hmove i m ts) as H.
  destruct (move i m ts) as [m' ts'].
  eapply pool_grows_trans; [exact H|apply IH].
Qed.

Lemma settle_grows (m : Master) (ts : list task) :
  pool_grows m (fst (settle m ts)).
Proof.
  unfold settle. destruct (list_find _ ts) as [[i t]|];
    [apply step_grows|apply pool_grows_refl].
Qed.

Lemma drain_grows (strict : bool) (m : Master) (ts : list task) :
  pool_grows m (fst (drain strict m ts)).
Proof.
  unfold drain.
  pose proof (settle_grows m ts) as H2.
  destruct (settle m ts) as [m2 ts2].
  pose proof (interleave_grows finish_at strict (seq 0 (length ts2)) m2 ts2
                finish_at_grows) as H3.
  eapply pool_grows_trans; [exact H2|exact H3].
Qed.

Lemma run_pool_grows (strict : bool) (sched : list nat) (m : Master)
    (ts : list task) :
  pool_grows m (fst (run_pool strict sched m ts)).
Proof.
  unfold run_pool.
  pose proof (interleave_grows step strict sched m ts step_grows) as H1.
  destruct (interleave step strict sched m ts) as [m1 ts1].
  destruct (stopped strict ts1); [exact H1|].
  eapply pool_grows_trans; [exact H1|apply drain_grows].
Qed.

Lemma gather_grows (return_exceptions : bool) (sched : list nat)
    (cs : list pcode) (m : Master) :
  pool_grows m (fst (gather return_exceptions sched cs m)).
Proof.
  unfold gather.
  pose proof (run_pool_grows (negb return_exceptions) sched m
                (Running <$> cs)) as H.
  destruct (run_pool _ sched m _) as [m' ts].
  destruct return_exceptions; [exact H|].
  destruct (first_failure ts); exact H.
Qed.

(** ** The event loop is left alone *)

(** Only a gather that raises puts coroutines in the event loop: the
    exchanges and the steps of a pool leave it as it is. *)
Lemma complete_send_loop (who : caller) (message : string) (m : Master) :
  loop (fst (complete_send who message m)) = loop m.
Proof.
  unfold complete_send. destruct (usb_handler m); [|reflexivity].
  destruct (adapter_send _ _ _). reflexivity.
Qed.

Lemma complete_sendread_loop (who : caller) (message prefix : string)
    (m : Master) :
  loop (fst (complete_sendread who message prefix m)) = loop m.
Proof.
  unfold complete_sendread. destruct (usb_handler m); [|reflexivity].
  destruct (adapter_sendread _ _ _ _). reflexivity.
Qed.

Lemma send_loop (who : caller) (message : string) (m : Master) :
  loop (fst (send who message m)) = loop m.
Proof.
  unfold send, mbind, coroutine_bind, assert_initialized.
  destruct (initialized m); [|reflexivity].
  unfold with_lock. destruct (lock m); [reflexivity|].
  unfold usb_send. simpl. destruct (usb_handler m); [|reflexivity].
  pose proof (complete_send_loop who message
                (transmit who message None (set_lock true m))) as H.
  destruct (complete_send who message _) as [m' r]. exact H.
Qed.

Lemma sendread_loop (who : caller) (message prefix : string)
    (m : Master) :
  loop (fst (sendread who message prefix m)) = loop m.
Proof.
  unfold sendread, mbind, coroutine_bind, assert_initialized.
  destruct (initialized m); [|reflexivity].
  unfold with_lock. destruct (lock m); [reflexivity|].
  unfold usb_sendread. simpl. destruct (usb_handler m); [|reflexivity].
  pose proof (complete_sendread_loop who message prefix
                (transmit who message (Some prefix) (set_lock true m)))
    as H.
  destruct (complete_sendread who message prefix _) as [m' r]. exact H.
Qed.

Lemma step_task_loop (i : nat) (t : task) (m : Master) :
  loop (fst (step_task i t m)) = loop m.
Proof.
  destruct t as [c|message k|message prefix k|r]; simpl; auto.
  - destruct c as [v|e|k|message k|message prefix k]; simpl; auto.
    + destruct (initialized m); simpl; auto.
      destruct (lock m); auto. destruct (usb_handler m); auto.
    + destruct (initialized m); simpl; auto.
      destruct (lock m); auto. destruct (usb_handler m); auto.
  - pose proof (complete_send_loop (Child i) message m) as H.
    destruct (complete_send (Child i) message m) as [m' r]. exact H.
  - pose proof (complete_sendread_loop (Child i) message prefix m) as H.
    destruct (complete_sendread (Child i) message prefix m) as [m' r].
    exact H.
Qed.

Lemma step_loop (i : nat) (m : Master) (ts : list task) :
  loop (fst (step i m ts)) = loop m.
Proof.
  unfold step. destruct (ts !! i) as [t|]; [|reflexivity].
  pose proof (step_task_loop i t m) as H.
  destruct (step_task i t m) as [m' t']. exact H.
Qed.

Lemma finish_loop (i : nat) (c : pcode) (m : Master) :
  loop (fst (finish i c m)) = loop m.
Proof.
  revert m.
  induction c as [v|e|k IH|message k IH|message prefix k IH]; intros m;
    simpl; auto.
  - pose proof (send_loop (Child i) message m) as H.
    destruct (send (Child i) message m) as [m' [r|]]; simpl in *; auto.
    rewrite IH. exact H.
  - pose proof (sendread_loop (Child i) message prefix m) as H.
    destruct (sendread (Child i) message prefix m) as [m' [r|]];
      simpl in *; auto.
    rewrite IH. exact H.
Qed.

Lemma finish_at_loop (i : nat) (m : Master) (ts : list task) :
  loop (fst (finish_at i m ts)) = loop m.
Proof.
  unfold finish_at.
  destruct (ts !! i) as [[c| | |]|]; try reflexivity.
  pose proof (finish_loop i c m) as H.
  destruct (finish i c m) as [m' t']. exact H.
Qed.

Lemma interleave_loop
    (move : nat -> Master -> list task -> Master * list task)
    (strict : bool) (sched : list nat) (m : Master) (ts : list task) :
  (forall i m1 ts1, loop (fst (move i m1 ts1)) = loop m1) ->
  loop (fst (interleave move strict sched m ts)) = loop m.
Proof.
  intros Hmove. revert m ts.
  induction sched as [|i sched IH]; intros m ts; simpl; auto.
  destruct (stopped strict ts); auto.
  pose proof (Hmove i m ts) as H.
  destruct (move i m ts) as [m' ts']. simpl in H. rewrite IH. exact H.
Qed.

Lemma drain_loop (strict : bool) (m : Master) (ts : list task) :
  loop (fst (drain strict m ts)) = loop m.
Proof.
  unfold drain.
  assert (H2 : loop (fst (settle m ts)) = loop m).
  { unfold settle. destruct (list_find _ ts) as [[i t]|]; auto.
    apply step_loop. }
  destruct (settle m ts) as [m2 ts2]. simpl in H2.
  rewrite interleave_loop by apply finish_at_loop. exact H2.
Qed.

Lemma run_pool_loop (strict : bool) (sched : list nat) (m : Master)
    (ts : list task) :
  loop (fst (run_pool strict sched m ts)) = loop m.
Proof.
  unfold run_pool.
  pose proof (interleave_loop step strict sched m ts step_loop) as H1.
  destruct (interleave step strict sched m ts) as [m1 ts1]. simpl in H1.
  destruct (stopped strict ts1); [exact H1|].
  rewrite drain_loop. exact H1.
Qed.

(** With a quiet event loop there is nothing to wait for. *)
Lemma quiesce_quiet (m : Master) : loop m = [] -> quiesce m = m.
Proof. destruct m. simpl. intros ->. reflexivity. Qed.

Lemma quiesce_loop (m : Master) : loop (quiesce m) = [].
Proof. reflexivity. Qed.

(** ** The lock and the order of exchanges *)

Lemma caller_eqb_refl (w : caller) : caller_eqb w w = true.
Proof. destruct w; simpl; auto using Nat.eqb_refl. Qed.

Lemma serial_app (holder : option caller) (l1 l2 : list event) :
  serial holder (l1 ++ l2) =
  match serial holder l1 with
  | Some holder' => serial holder' l2
  | None => None
  end.
Proof.
  revert holder. induction l1 as [|e l1 IH]; intros holder; simpl; auto.
  destruct e as [w ? ?|w ?| |]; auto.
  - destruct holder; auto.
  - destruct holder as [w'|]; auto. destruct (caller_eqb w w'); auto.
Qed.

Lemma channel_state_start (m : Master) :
  lock m = false -> channel_state m m None.
Proof.
  intros Hl. split; [|split]; auto.
  - exists []. rewrite app_nil_r. auto.
  - intros [? ?]. discriminate.
Qed.

Lemma quiet_insert (i : nat) (t : task) (ts : list task) :
  quiet ts -> flying t = false -> quiet (<[i := t]> ts).
Proof.
  intros Hq Ht j t' Hj. destruct (decide (i = j)) as [->|Hne].
  - apply list_lookup_insert_Some in Hj as [(_ & -> & _)|(? & _)];
      [auto|congruence].
  - rewrite list_lookup_insert_ne in Hj by auto. eauto.
Qed.

Lemma held_by_insert_other (i j : nat) (t : task) (ts : list task) :
  held_by i ts -> j <> i -> flying t = false -> held_by i (<[j := t]> ts).
Proof.
  intros [(t0 & Hi & Hf) Ho] Hne Ht. split.
  - exists t0. rewrite list_lookup_insert_ne by auto. auto.
  - intros j' t' Hj' Hl. destruct (decide (j = j')) as [->|Hne'].
    + apply list_lookup_insert_Some in Hl as [(_ & -> & _)|(? & _)];
        [auto|congruence].
    + rewrite list_lookup_insert_ne in Hl by auto. eauto.
Qed.

Lemma held_by_release (i : nat) (t : task) (ts : list task) :
  held_by i ts -> flying t = false -> quiet (<[i := t]> ts).
Proof.
  intros [_ Ho] Ht j t' Hl. destruct (decide (i = j)) as [->|Hne].
  - apply list_lookup_insert_Some in Hl as [(_ & -> & _)|(? & _)];
      [auto|congruence].
  - rewrite list_lookup_insert_ne in Hl by auto. eauto.
Qed.

Lemma quiet_take (i : nat) (t t0 : task) (ts : list task) :
  quiet ts -> ts !! i = Some t0 -> flying t = true ->
  held_by i (<[i := t]> ts).
Proof.
  intros Hq Hi Ht. split.
  - exists t. split; auto. apply list_lookup_insert_eq.
    eapply lookup_lt_Some; eauto.
  - intros j t' Hne Hl. rewrite list_lookup_insert_ne in Hl by auto. eauto.
Qed.

Lemma held_by_holder (i j : nat) (t : task) (ts : list task) :
  held_by i ts -> ts !! j = Some t -> flying t = true -> j = i.
Proof.
  intros [_ Ho] Hj Ht. destruct (decide (j = i)); auto.
  rewrite (Ho j t) in Ht by auto. discriminate.
Qed.

(** A caller opens an exchange on a free channel. *)
Lemma channel_state_open (m0 m : Master) (who : caller)
    (message : string) (expects : option string) :
  channel_state m0 m None -> is_Some (usb_handler m) ->
  channel_state m0 (transmit who message expects (set_lock true m))
    (Some who).
Proof.
  intros ((new & Hl & Hs) & Hk & _) Hu. split; [|split]; auto.
  exists (new ++ [ {| stamp := clock m; established := initialized m;
                      what := Transmit who message expects |} ]).
  split; [simpl; rewrite Hl, app_assoc; auto|].
  rewrite fmap_app, serial_app, Hs. reflexivity.
Qed.

(** The caller whose exchange is open closes it. *)
Lemma channel_state_close_send (m0 m : Master) (who : caller)
    (message : string) :
  channel_state m0 m (Some who) ->
  channel_state m0 (set_lock false (fst (complete_send who message m))) None.
Proof.
  intros ((new & Hl & Hs) & Hk & Hu).
  destruct Hu as [h Hh]; [eauto|]. unfold complete_send. rewrite Hh.
  destruct (adapter_send h (state h) (to_ascii message)) as [c r].
  split; [|split; [reflexivity|intros [? ?]; discriminate]].
  eexists (new ++ [_]). split; [simpl; rewrite Hl, app_assoc; auto|].
  rewrite fmap_app, serial_app, Hs. simpl.
  rewrite caller_eqb_refl. reflexivity.
Qed.

Lemma channel_state_close_sendread (m0 m : Master) (who : caller)
    (message prefix : string) :
  channel_state m0 m (Some who) ->
  channel_state m0
    (set_lock false (fst (complete_sendread who message prefix m))) None.
Proof.
  intros ((new & Hl & Hs) & Hk & Hu).
  destruct Hu as [h Hh]; [eauto|]. unfold complete_sendread. rewrite Hh.
  destruct (adapter_sendread h (state h) (to_ascii message) prefix)
    as [c r].
  split; [|split; [reflexivity|intros [? ?]; discriminate]].
  eexists (new ++ [_]). split; [simpl; rewrite Hl, app_assoc; auto|].
  rewrite fmap_app, serial_app, Hs. simpl.
  rewrite caller_eqb_refl. reflexivity.
Qed.

Lemma in_step_move (m0 m : Master) (ts : list task) (i : nat) (t t' : task) :
  in_step m0 m ts -> ts !! i = Some t -> flying t = false ->
  flying t' = false -> in_step m0 m (<[i := t']> ts).
Proof.
  intros [[Hc Hq]|(j & Hc & Hh)] Hi Ht Ht'.
  - left. split; auto using quiet_insert.
  - right. exists j. split; auto. apply held_by_insert_other; auto.
    intros ->. destruct Hh as [(t0 & Hj & Hf) _]. congruence.
Qed.

Lemma in_step_locked (m0 m : Master) (ts : list task) :
  in_step m0 m ts -> lock m = false -> channel_state m0 m None /\ quiet ts.
Proof.
  intros [H|(j & (_ & Hk & _) & _)] Hl; auto.
  rewrite Hl in Hk. rewrite bool_decide_eq_true_2 in Hk by eauto.
  discriminate.
Qed.

Lemma in_step_flying (m0 m : Master) (ts : list task) (i : nat) (t : task) :
  in_step m0 m ts -> ts !! i = Some t -> flying t = true ->
  channel_state m0 m (Some (Child i)) /\ held_by i ts.
Proof.
  intros [[_ Hq]|(j & Hc & Hh)] Hi Ht.
  - rewrite (Hq i t Hi) in Ht. discriminate.
  - rewrite (held_by_holder j i t ts Hh Hi Ht). auto.
Qed.

Lemma step_task_in_step (m0 m : Master) (ts : list task) (i : nat)
    (t : task) :
  in_step m0 m ts -> ts !! i = Some t ->
  in_step m0 (fst (step_task i t m)) (<[i := snd (step_task i t m)]> ts).
Proof.
  intros Hin Hi.
  destruct t as [c|message k|message prefix k|r]; simpl.
  - destruct c as [v|e|k|message k|message prefix k]; simpl;
      try (eapply in_step_move; eauto; fail).
    + destruct (initialized m); simpl;
        [|eapply in_step_move; eauto; fail].
      destruct (lock m) eqn:Hl; simpl;
        [rewrite list_insert_id by auto; auto|].
      destruct (usb_handler m) as [h|] eqn:Hh; simpl;
        [|eapply in_step_move; eauto; fail].
      destruct (in_step_locked _ _ _ Hin Hl) as [Hc Hq].
      right. exists i. split.
      * apply channel_state_open; eauto.
      * eapply quiet_take; eauto.
    + destruct (initialized m); simpl;
        [|eapply in_step_move; eauto; fail].
      destruct (lock m) eqn:Hl; simpl;
        [rewrite list_insert_id by auto; auto|].
      destruct (usb_handler m) as [h|] eqn:Hh; simpl;
        [|eapply in_step_move; eauto; fail].
      destruct (in_step_locked _ _ _ Hin Hl) as [Hc Hq].
      right. exists i. split.
      * apply channel_state_open; eauto.
      * eapply quiet_take; eauto.
  - destruct (in_step_flying _ _ _ _ _ Hin Hi eq_refl) as [Hc Hh].
    pose proof (channel_state_close_send _ _ _ message Hc) as Hc'.
    destruct (complete_send (Child i) message m) as [m' r]. simpl in *.
    left. split; auto. eapply held_by_release; eauto.
  - destruct (in_step_flying _ _ _ _ _ Hin Hi eq_refl) as [Hc Hh].
    pose proof (channel_state_close_sendread _ _ _ message prefix Hc) as Hc'.
    destruct (complete_sendread (Child i) message prefix m) as [m' r].
    simpl in *.
    left. split; auto. eapply held_by_release; eauto.
  - rewrite list_insert_id by auto. auto.
Qed.

Lemma step_in_step (m0 m : Master) (ts : list task) (i : nat) :
  in_step m0 m ts -> in_step m0 (fst (step i m ts)) (snd (step i m ts)).
Proof.
  intros Hin. unfold step. destruct (ts !! i) as [t|] eqn:Hi; auto.
  pose proof (step_task_in_step _ _ _ _ _ Hin Hi) as H.
  destruct (step_task i t m) as [m' t']. exact H.
Qed.

(** A coroutine that runs to its end on a free channel leaves it free and
    is done; exchange upon exchange, each closed before the next. *)
Lemma send_channel_state (m0 m : Master) (who : caller) (message : string) :
  channel_state m0 m None ->
  channel_state m0 (fst (send who message m)) None /\
  is_Some (snd (send who message m)).
Proof.
  intros Hc. pose proof Hc as (_ & Hk & _). simpl in Hk.
  unfold send, mbind, coroutine_bind, assert_initialized.
  destruct (initialized m); [|split; [auto|eauto]].
  unfold with_lock. rewrite Hk. unfold usb_send. simpl.
  destruct (usb_handler m) as [h|] eqn:Hh.
  - pose proof (channel_state_close_send m0 _ who message
                  (channel_state_open m0 m who message None Hc
                     ltac:(rewrite Hh; eauto))) as H.
    destruct (complete_send who message _) as [m' r]. simpl in *.
    split; eauto.
  - split; eauto. destruct Hc as (Hn & _ & _). split; [|split]; auto.
    intros [? ?]; discriminate.
Qed.

Lemma sendread_channel_state (m0 m : Master) (who : caller)
    (message prefix : string) :
  channel_state m0 m None ->
  channel_state m0 (fst (sendread who message prefix m)) None /\
  is_Some (snd (sendread who message prefix m)).
Proof.
  intros Hc. pose proof Hc as (_ & Hk & _). simpl in Hk.
  unfold sendread, mbind, coroutine_bind, assert_initialized.
  destruct (initialized m); [|split; [auto|eauto]].
  unfold with_lock. rewrite Hk. unfold usb_sendread. simpl.
  destruct (usb_handler m) as [h|] eqn:Hh.
  - pose proof (channel_state_close_sendread m0 _ who message prefix
                  (channel_state_open m0 m who message (Some prefix) Hc
                     ltac:(rewrite Hh; eauto))) as H.
    destruct (complete_sendread who message prefix _) as [m' r].
    simpl in *. split; eauto.
  - split; eauto. destruct Hc as (Hn & _ & _). split; [|split]; auto.
    intros [? ?]; discriminate.
Qed.

Lemma finish_free (m0 m : Master) (i : nat) (c : pcode) :
  channel_state m0 m None ->
  channel_state m0 (fst (finish i c m)) None /\
  is_Some (result_of (snd (finish i c m))).
Proof.
  revert m.
  induction c as [v|e|k IH|message k IH|message prefix k IH]; intros m Hc;
    simpl; eauto.
  - destruct (send_channel_state m0 m (Child i) message Hc) as [Hc' Hr].
    destruct (send (Child i) message m) as [m' [r|]]; simpl in *; auto.
    destruct Hr; discriminate.
  - destruct (sendread_channel_state m0 m (Child i) message prefix Hc)
      as [Hc' Hr].
    destruct (sendread (Child i) message prefix m) as [m' [r|]];
      simpl in *; auto.
    destruct Hr; discriminate.
Qed.

Lemma send_locked (m : Master) (who : caller) (message : string) :
  lock m = true ->
  fst (send who message m) = m /\
  (is_Some (snd (send who message m)) ->
   snd (send who message m) = Some (Raised AssertionError)).
Proof.
  intros Hl. unfold send, mbind, coroutine_bind, assert_initialized.
  destruct (initialized m); simpl; auto.
  unfold with_lock. rewrite Hl. simpl. split; auto.
  intros [? ?]; discriminate.
Qed.

Lemma sendread_locked (m : Master) (who : caller) (message prefix : string) :
  lock m = true ->
  fst (sendread who message prefix m) = m /\
  (is_Some (snd (sendread who message prefix m)) ->
   snd (sendread who message prefix m) = Some (Raised AssertionError)).
Proof.
  intros Hl. unfold sendread, mbind, coroutine_bind, assert_initialized.
  destruct (initialized m); simpl; auto.
  unfold with_lock. rewrite Hl. simpl. split; auto.
  intros [? ?]; discriminate.
Qed.

(** While another coroutine holds the lock, running one to its end does
    not touch the master and leaves it outside any exchange. *)
Lemma finish_locked (m : Master) (i : nat) (c : pcode) :
  lock m = true ->
  fst (finish i c m) = m /\ flying (snd (finish i c m)) = false.
Proof.
  intros Hl.
  induction c as [v|e|k IH|message k IH|message prefix k IH]; simpl; auto.
  - destruct (send_locked m (Child i) message Hl) as [Hm Hr].
    destruct (send (Child i) message m) as [m' [r|]]; simpl in *; subst;
      auto.
  - destruct (sendread_locked m (Child i) message prefix Hl) as [Hm Hr].
    destruct (sendread (Child i) message prefix m) as [m' [r|]];
      simpl in *; subst; auto.
Qed.

Lemma finish_at_in_step (m0 m : Master) (ts : list task) (i : nat) :
  in_step m0 m ts ->
  in_step m0 (fst (finish_at i m ts)) (snd (finish_at i m ts)).
Proof.
  intros Hin. unfold finish_at.
  destruct (ts !! i) as [[c| | |]|] eqn:Hi; auto.
  destruct (lock m) eqn:Hl.
  - destruct (finish_locked m i c Hl) as [Hm Hf].
    destruct (finish i c m) as [m' t']. simpl in *. subst m'.
    eapply in_step_move; eauto.
  - destruct (in_step_locked _ _ _ Hin Hl) as [Hc Hq].
    destruct (finish_free m0 m i c Hc) as [Hc' Hr].
    destruct (finish i c m) as [m' t']. simpl in *.
    left. split; auto. apply quiet_insert; auto.
    destruct t'; simpl in *; auto; destruct Hr; discriminate.
Qed.

Lemma interleave_in_step
    (move : nat -> Master -> list task -> Master * list task)
    (strict : bool) (sched : list nat) (m0 m : Master) (ts : list task) :
  (forall i m1 ts1, in_step m0 m1 ts1 ->
                    in_step m0 (fst (move i m1 ts1)) (snd (move i m1 ts1))) ->
  in_step m0 m ts ->
  in_step m0 (fst (interleave move strict sched m ts))
             (snd (interleave move strict sched m ts)).
Proof.
  intros Hmove. revert m ts.
  induction sched as [|i sched IH]; intros m ts Hin; simpl; auto.
  destruct (stopped strict ts); auto.
  pose proof (Hmove i m ts Hin) as H.
  destruct (move i m ts) as [m' ts']. apply IH, H.
Qed.

(** After [settle] nobody is in flight. *)
Lemma settle_in_step (m0 m : Master) (ts : list task) :
  in_step m0 m ts ->
  channel_state m0 (fst (settle m ts)) None /\ quiet (snd (settle m ts)).
Proof.
  intros Hin. unfold settle.
  destruct (list_find _ ts) as [[i t]|] eqn:Hf.
  - apply list_find_Some in Hf as (Hi & Ht & _).
    destruct (in_step_flying _ _ _ _ _ Hin Hi Ht) as [Hc Hh].
    unfold step. rewrite Hi.
    destruct t as [c|message k|message prefix k|r]; try discriminate;
      simpl.
    + pose proof (channel_state_close_send _ _ _ message Hc) as Hc'.
      destruct (complete_send (Child i) message m) as [m' r]. simpl in *.
      split; auto. eapply held_by_release; eauto.
    + pose proof (channel_state_close_sendread _ _ _ message prefix Hc)
        as Hc'.
      destruct (complete_sendread (Child i) message prefix m) as [m' r].
      simpl in *. split; auto. eapply held_by_release; eauto.
  - apply list_find_None in Hf.
    assert (Hq : quiet ts).
    { intros j t Hj. rewrite Forall_lookup in Hf. specialize (Hf j t Hj).
      destruct (flying t); congruence. }
    destruct Hin as [[Hc _]|(j & _ & (t & Hj & Ht) & _)]; simpl; auto.
    rewrite (Hq j t Hj) in Ht. discriminate.
Qed.

(** ** The pool keeps its size *)

Lemma step_length (i : nat) (m : Master) (ts : list task) :
  length (snd (step i m ts)) = length ts.
Proof.
  unfold step. destruct (ts !! i) as [t|]; auto.
  destruct (step_task i t m) as [m' t']. simpl. apply length_insert.
Qed.

Lemma finish_at_length (i : nat) (m : Master) (ts : list task) :
  length (snd (finish_at i m ts)) = length ts.
Proof.
  unfold finish_at. destruct (ts !! i) as [[c| | |]|]; auto.
  destruct (finish i c m) as [m' t']. simpl. apply length_insert.
Qed.

Lemma interleave_length
    (move : nat -> Master -> list task -> Master * list task)
    (strict : bool) (sched : list nat) (m : Master) (ts : list task) :
  (forall i m1 ts1, length (snd (move i m1 ts1)) = length ts1) ->
  length (snd (interleave move strict sched m ts)) = length ts.
Proof.
  intros Hmove. revert m ts.
  induction sched as [|i sched IH]; intros m ts; simpl; auto.
  destruct (stopped strict ts); auto.
  pose proof (Hmove i m ts) as H.
  destruct (move i m ts) as [m' ts']. simpl in H. rewrite IH. auto.
Qed.

Lemma settle_length (m : Master) (ts : list task) :
  length (snd (settle m ts)) = length ts.
Proof.
  unfold settle. destruct (list_find _ ts) as [[i t]|]; auto.
  apply step_length.
Qed.

Lemma drain_length (strict : bool) (m : Master) (ts : list task) :
  length (snd (drain strict m ts)) = length ts.
Proof.
  unfold drain.
  pose proof (settle_length m ts) as H2.
  destruct (settle m ts) as [m2 ts2]. simpl in *.
  rewrite interleave_length by apply finish_at_length. exact H2.
Qed.

Lemma run_pool_length (strict : bool) (sched : list nat) (m : Master)
    (ts : list task) :
  length (snd (run_pool strict sched m ts)) = length ts.
Proof.
  unfold run_pool.
  pose proof (interleave_length step strict sched m ts step_length) as H1.
  destruct (interleave step strict sched m ts) as [m1 ts1].
  destruct (stopped strict ts1); [exact H1|].
  rewrite drain_length. exact H1.
Qed.

(** ** Every coroutine is run to its end *)

Lemma finish_all_done (strict : bool) (m0 : Master) (k : nat) :
  forall (i : nat) (m : Master) (ts : list task),
    length ts = i + k -> channel_state m0 m None -> quiet ts ->
    done_upto i ts ->
    channel_state m0 (fst (interleave finish_at strict (seq i k) m ts)) None
    /\ (stopped strict (snd (interleave finish_at strict (seq i k) m ts))
        = true
        \/ done_upto (i + k)
             (snd (interleave finish_at strict (seq i k) m ts))).
Proof.
  induction k as [|k IH]; intros i m ts Hlen Hc Hq Hd; simpl.
  - split; auto. right. rewrite Nat.add_0_r. auto.
  - destruct (stopped strict ts) eqn:Hs; simpl; [split; auto|].
    destruct (lookup_lt_is_Some_2 ts i ltac:(lia)) as [t Hi].
    unfold finish_at. rewrite Hi.
    assert (Hnext : forall m' t',
      channel_state m0 m' None -> is_Some (result_of t') ->
      channel_state m0
        (fst (interleave finish_at strict (seq (S i) k) m' (<[i := t']> ts)))
        None /\
      (stopped strict
         (snd (interleave finish_at strict (seq (S i) k) m'
                 (<[i := t']> ts))) = true \/
       done_upto (i + S k)
         (snd (interleave finish_at strict (seq (S i) k) m'
                 (<[i := t']> ts))))).
    { intros m' t' Hc' Hr'.
      replace (i + S k) with (S i + k) by lia.
      apply IH; auto.
      - rewrite length_insert. lia.
      - apply quiet_insert; auto. destruct t'; auto; destruct Hr'; discriminate.
      - intros j t0 Hj Hl. destruct (decide (j = i)) as [->|Hne].
        + apply list_lookup_insert_Some in Hl as [(_ & -> & _)|(? & _)];
            [auto|congruence].
        + rewrite list_lookup_insert_ne in Hl by auto.
          apply (Hd j); auto. lia. }
    destruct t as [c|message0 k0|message0 prefix0 k0|r].
    + destruct (finish_free m0 m i c Hc) as [Hc' Hr].
      destruct (finish i c m) as [m' t']. simpl in *. apply Hnext; auto.
    + specialize (Hq i _ Hi). discriminate.
    + specialize (Hq i _ Hi). discriminate.
    + specialize (Hnext m (Finished r) Hc ltac:(simpl; eauto)).
      rewrite list_insert_id in Hnext by auto. exact Hnext.
Qed.

(** The rest of a pool in step ends with a free lock and nobody in
    flight, and with every coroutine done unless a strict gather stopped
    on a failure. *)
Lemma drain_done (strict : bool) (m0 m : Master) (ts : list task) :
  in_step m0 m ts ->
  channel_state m0 (fst (drain strict m ts)) None /\
  quiet (snd (drain strict m ts)) /\
  (stopped strict (snd (drain strict m ts)) = true \/
   all_done (snd (drain strict m ts))).
Proof.
  intros H1. unfold drain.
  destruct (settle_in_step m0 m ts H1) as [Hc2 Hq2].
  destruct (settle m ts) as [m2 ts2]. simpl in *.
  destruct (finish_all_done strict m0 (length ts2) 0 m2 ts2 eq_refl Hc2 Hq2)
    as [Hc3 Hd3].
  { intros j t Hj. lia. }
  pose proof (interleave_in_step finish_at strict (seq 0 (length ts2)) m0
                m2 ts2 (fun i m3 ts3 => finish_at_in_step m0 m3 ts3 i)
                ltac:(left; split; auto)) as H3.
  split; [exact Hc3|]. split.
  - destruct Hc3 as (_ & Hk & _). simpl in Hk.
    apply (in_step_locked _ _ _ H3 Hk).
  - destruct Hd3 as [Hs|Hd]; auto. right.
    apply Forall_lookup. intros j t Hj. apply (Hd j); auto.
    simpl. apply lookup_lt_Some in Hj.
    rewrite interleave_length in Hj by apply finish_at_length. exact Hj.
Qed.

(** From a free lock, with nobody in flight, the pool is in step when the
    gather is over: either a strict gather has stopped on a failure, or the
    lock is free and every coroutine is done. *)
Lemma run_pool_done (strict : bool) (sched : list nat) (m : Master)
    (ts : list task) :
  lock m = false -> quiet ts ->
  in_step m (fst (run_pool strict sched m ts))
            (snd (run_pool strict sched m ts)) /\
  (stopped strict (snd (run_pool strict sched m ts)) = true \/
   (channel_state m (fst (run_pool strict sched m ts)) None /\
    all_done (snd (run_pool strict sched m ts)))).
Proof.
  intros Hl Hq. unfold run_pool.
  assert (Hin : in_step m m ts)
    by (left; split; auto using channel_state_start).
  pose proof (interleave_in_step step strict sched m m ts
                (fun i m1 ts1 => step_in_step m m1 ts1 i) Hin) as H1.
  destruct (interleave step strict sched m ts) as [m1 ts1]. simpl in H1.
  destruct (stopped strict ts1) eqn:Hs; [split; auto|].
  destruct (drain_done strict m m1 ts1 H1) as (Hc & Hq' & Hd).
  split; [left; split; assumption|].
  destruct Hd as [Hd|Hd]; auto.
Qed.

(** ** What a coroutine of the pool can have become *)

Lemma step_task_follows (c : pcode) (i : nat) (t : task) (m : Master) :
  follows c t -> follows c (snd (step_task i t m)).
Proof.
  intros Hf. destruct t as [c'|message k|message prefix k|r]; simpl in *.
  - destruct c' as [v|e|k|message k|message prefix k]; simpl; auto.
    + apply leads_yield. auto.
    + destruct (initialized m); simpl; [|eapply leads_send; eauto].
      destruct (lock m); simpl; auto.
      destruct (usb_handler m); simpl; auto. eapply leads_send; eauto.
    + destruct (initialized m); simpl; [|eapply leads_sendread; eauto].
      destruct (lock m); simpl; auto.
      destruct (usb_handler m); simpl; auto. eapply leads_sendread; eauto.
  - destruct (complete_send (Child i) message m) as [m' r]. simpl.
    eapply leads_send; eauto.
  - destruct (complete_sendread (Child i) message prefix m) as [m' r].
    simpl. eapply leads_sendread; eauto.
  - auto.
Qed.

Lemma finish_follows (c : pcode) (i : nat) (c' : pcode) (m : Master) :
  leads c c' -> follows c (snd (finish i c' m)).
Proof.
  revert m.
  induction c' as [v|e|k IH|message k IH|message prefix k IH]; intros m Hl;
    simpl; auto.
  - apply IH. apply leads_yield. auto.
  - destruct (send (Child i) message m) as [m' [r|]]; simpl; auto.
    apply IH. eapply leads_send; eauto.
  - destruct (sendread (Child i) message prefix m) as [m' [r|]]; simpl; auto.
    apply IH. eapply leads_sendread; eauto.
Qed.

Lemma Forall2_follows_insert (cs : list pcode) (ts : list task) (i : nat)
    (t' : task) :
  Forall2 follows cs ts ->
  (forall c, cs !! i = Some c -> follows c t') ->
  Forall2 follows cs (<[i := t']> ts).
Proof.
  intros HF Ht. apply Forall2_same_length_lookup.
  apply Forall2_same_length_lookup in HF as [Hlen HF].
  split; [rewrite length_insert; auto|].
  intros j c t Hc Hj. destruct (decide (i = j)) as [->|Hne].
  - apply list_lookup_insert_Some in Hj as [(_ & -> & _)|(? & _)];
      [auto|congruence].
  - rewrite list_lookup_insert_ne in Hj by auto. eauto.
Qed.

Lemma step_follows (cs : list pcode) (i : nat) (m : Master)
    (ts : list task) :
  Forall2 follows cs ts -> Forall2 follows cs (snd (step i m ts)).
Proof.
  intros HF. unfold step. destruct (ts !! i) as [t|] eqn:Hi; auto.
  pose proof (fun c => step_task_follows c i t m) as H.
  destruct (step_task i t m) as [m' t']. simpl in *.
  apply Forall2_follows_insert; auto. intros c Hc. apply H.
  apply Forall2_same_length_lookup in HF as [_ HF]. eauto.
Qed.

Lemma finish_at_follows (cs : list pcode) (i : nat) (m : Master)
    (ts : list task) :
  Forall2 follows cs ts -> Forall2 follows cs (snd (finish_at i m ts)).
Proof.
  intros HF. unfold finish_at.
  destruct (ts !! i) as [[c'| | |]|] eqn:Hi; auto.
  pose proof (fun c => finish_follows c i c' m) as H.
  destruct (finish i c' m) as [m' t']. simpl in *.
  apply Forall2_follows_insert; auto. intros c Hc. apply H.
  apply Forall2_same_length_lookup in HF as [_ HF].
  apply (HF i c (Running c')); auto.
Qed.

Lemma interleave_follows
    (move : nat -> Master -> list task -> Master * list task)
    (cs : list pcode) (strict : bool) (sched : list nat) (m : Master)
    (ts : list task) :
  (forall i m1 ts1, Forall2 follows cs ts1 ->
                    Forall2 follows cs (snd (move i m1 ts1))) ->
  Forall2 follows cs ts ->
  Forall2 follows cs (snd (interleave move strict sched m ts)).
Proof.
  intros Hmove. revert m ts.
  induction sched as [|i sched IH]; intros m ts HF; simpl; auto.
  destruct (stopped strict ts); auto.
  pose proof (Hmove i m ts HF) as H.
  destruct (move i m ts) as [m' ts']. apply IH, H.
Qed.

Lemma drain_follows (cs : list pcode) (strict : bool) (m : Master)
    (ts : list task) :
  Forall2 follows cs ts -> Forall2 follows cs (snd (drain strict m ts)).
Proof.
  intros H1. unfold drain.
  assert (H2 : Forall2 follows cs (snd (settle m ts))).
  { unfold settle. destruct (list_find _ ts) as [[i t]|]; auto.
    apply step_follows, H1. }
  destruct (settle m ts) as [m2 ts2]. simpl in H2.
  apply interleave_follows; auto.
  intros i m' ts'. apply finish_at_follows.
Qed.

Lemma run_pool_follows (cs : list pcode) (strict : bool) (sched : list nat)
    (m : Master) (ts : list task) :
  Forall2 follows cs ts ->
  Forall2 follows cs (snd (run_pool strict sched m ts)).
Proof.
  intros HF. unfold run_pool.
  pose proof (interleave_follows step cs strict sched m ts
                (fun i m1 ts1 => step_follows cs i m1 ts1) HF) as H1.
  destruct (interleave step strict sched m ts) as [m1 ts1]. simpl in H1.
  destruct (stopped strict ts1); [exact H1|].
  apply drain_follows, H1.
Qed.

Lemma follows_start (cs : list pcode) : Forall2 follows cs (Running <$> cs).
Proof.
  induction cs as [|c cs IH]; simpl; constructor; auto. apply leads_here.
Qed.

Lemma quiet_start (cs : list pcode) : quiet (Running <$> cs).
Proof.
  intros j t Hj. apply list_lookup_fmap_Some in Hj as (c & -> & _).
  reflexivity.
Qed.

(** ** The ends of simple coroutines *)





(** ** Failures in a pool *)

Lemma first_failure_Some (ts : list task) (e : exn) :
  first_failure ts = Some e ->
  exists i, ts !! i = Some (Finished (Raised e)).
Proof.
  induction ts as [|t ts IH]; simpl; [discriminate|].
  destruct (failure_of t) as [e'|] eqn:Hf.
  - intros [= ->]. exists 0. simpl.
    destruct t as [| | |[|]]; simpl in Hf; congruence.
  - intros H. destruct (IH H) as [i Hi]. exists (S i). auto.
Qed.

Lemma first_failure_None (ts : list task) :
  first_failure ts = None <->
  forall i t, ts !! i = Some t -> failure_of t = None.
Proof.
  induction ts as [|t ts IH]; simpl.
  - split; auto. intros _ i t Hi. rewrite lookup_nil in Hi. discriminate.
  - destruct (failure_of t) as [e|] eqn:Hf.
    + split; [discriminate|]. intros H. specialize (H 0 t eq_refl).
      congruence.
    + rewrite IH. split.
      * intros H [|i] t' Hi; simpl in Hi; [congruence|eauto].
      * intros H i t' Hi. apply (H (S i)). auto.
Qed.

Lemma single_failure_insert (ts : list task) (i : nat) (t' : task) :
  first_failure ts = None -> single_failure (<[i := t']> ts).
Proof.
  intros Hn a b ta tb Ha Hb Hfa Hfb.
  rewrite first_failure_None in Hn.
  destruct (decide (a = i)) as [->|Hai], (decide (b = i)) as [->|Hbi]; auto.
  - rewrite list_lookup_insert_ne in Hb by auto.
    rewrite (Hn b tb Hb) in Hfb. destruct Hfb; discriminate.
  - rewrite list_lookup_insert_ne in Ha by auto.
    rewrite (Hn a ta Ha) in Hfa. destruct Hfa; discriminate.
  - rewrite list_lookup_insert_ne in Ha by auto.
    rewrite (Hn a ta Ha) in Hfa. destruct Hfa; discriminate.
Qed.

Lemma step_local : local step.
Proof.
  intros i m ts. unfold step. destruct (ts !! i) as [t|] eqn:Hi.
  - destruct (step_task i t m) as [m' t']. eauto.
  - exists (Finished (Returned VNone)). simpl.
    rewrite list_insert_ge; auto. apply lookup_ge_None. auto.
Qed.

Lemma finish_at_local : local finish_at.
Proof.
  intros i m ts. unfold finish_at. destruct (ts !! i) as [t|] eqn:Hi.
  - destruct t as [c| | |];
      try (eexists; simpl; rewrite list_insert_id by eauto; reflexivity).
    destruct (finish i c m) as [m' t']. eauto.
  - exists (Finished (Returned VNone)). simpl.
    rewrite list_insert_ge; auto. apply lookup_ge_None. auto.
Qed.

Lemma stopped_false (ts : list task) :
  stopped true ts = false -> first_failure ts = None.
Proof.
  unfold stopped. simpl. intros H. apply bool_decide_eq_false in H.
  destruct (first_failure ts); auto. destruct H. eauto.
Qed.

Lemma stopped_true (strict : bool) (ts : list task) :
  stopped strict ts = true ->
  strict = true /\ exists e, first_failure ts = Some e.
Proof.
  unfold stopped. intros H. apply andb_true_iff in H as [-> H].
  apply bool_decide_eq_true in H as [e He]. eauto.
Qed.

Lemma interleave_single_failure
    (move : nat -> Master -> list task -> Master * list task)
    (sched : list nat) (m : Master) (ts : list task) :
  local move -> single_failure ts ->
  single_failure (snd (interleave move true sched m ts)).
Proof.
  intros Hmove. revert m ts.
  induction sched as [|i sched IH]; intros m ts Hs; simpl; auto.
  destruct (stopped true ts) eqn:Hst; auto.
  destruct (Hmove i m ts) as [t' Ht'].
  destruct (move i m ts) as [m' ts']. simpl in Ht'. subst ts'.
  apply IH, single_failure_insert, stopped_false, Hst.
Qed.

Lemma settle_failures (m : Master) (ts : list task) :
  failure_of <$> snd (settle m ts) = failure_of <$> ts.
Proof.
  unfold settle. destruct (list_find _ ts) as [[i t]|] eqn:Hf; auto.
  apply list_find_Some in Hf as (Hi & Ht & _).
  unfold step. rewrite Hi.
  destruct (step_task i t m) as [m' t'] eqn:Hst. simpl.
  rewrite list_fmap_insert. apply list_insert_id.
  rewrite list_lookup_fmap, Hi. simpl. f_equal.
  destruct t as [c|message k|message prefix k|r]; try discriminate;
    simpl in Hst.
  - destruct (complete_send (Child i) message m). inversion Hst. auto.
  - destruct (complete_sendread (Child i) message prefix m).
    inversion Hst. auto.
Qed.

Lemma single_failure_fmap (ts ts' : list task) :
  failure_of <$> ts' = failure_of <$> ts ->
  single_failure ts -> single_failure ts'.
Proof.
  intros Heq Hs i j ti tj Hi Hj Hfi Hfj.
  assert (Hl : forall a t, ts' !! a = Some t -> is_Some (failure_of t) ->
                 exists t0, ts !! a = Some t0 /\ is_Some (failure_of t0)).
  { intros a t Ha Hf.
    assert (H : (failure_of <$> ts') !! a = Some (failure_of t))
      by (rewrite list_lookup_fmap, Ha; auto).
    rewrite Heq in H. apply list_lookup_fmap_Some in H as (t0 & H0 & Ht0).
    exists t0. split; auto. rewrite <- H0. auto. }
  destruct (Hl i ti Hi Hfi) as (t1 & H1 & Hf1).
  destruct (Hl j tj Hj Hfj) as (t2 & H2 & Hf2).
  eapply Hs; eauto.
Qed.

Lemma run_pool_single_failure (sched : list nat) (m : Master)
    (ts : list task) :
  single_failure ts -> single_failure (snd (run_pool true sched m ts)).
Proof.
  intros Hs. unfold run_pool.
  pose proof (interleave_single_failure step sched m ts step_local Hs) as H1.
  destruct (interleave step true sched m ts) as [m1 ts1]. simpl in H1.
  destruct (stopped true ts1); [exact H1|]. unfold drain.
  pose proof (single_failure_fmap ts1 _ (settle_failures m1 ts1) H1) as H2.
  destruct (settle m1 ts1) as [m2 ts2]. simpl in H2.
  apply interleave_single_failure; auto using finish_at_local.
Qed.

Lemma single_failure_start (cs : list pcode) :
  single_failure (Running <$> cs).
Proof.
  intros i j ti tj Hi _ Hf _.
  apply list_lookup_fmap_Some in Hi as (c & -> & _).
  destruct Hf; discriminate.
Qed.

(** ** What [gather] gives back *)

Lemma results_all_done (cs : list pcode) (ts : list task) :
  Forall2 follows cs ts -> all_done ts ->
  exists os, results ts = Some os /\ Forall2 ends cs os /\
             ts = Finished <$> os.
Proof.
  intros HF Hd.
  destruct (mapM_is_Some_2 result_of ts) as [os Hos].
  { eapply Forall_impl; [exact Hd|]. auto. }
  exists os. split; [exact Hos|].
  apply mapM_Some_1 in Hos.
  assert (Hts : ts = Finished <$> os).
  { clear HF Hd. induction Hos as [|t o ts os Ht _ IH]; simpl; auto.
    destruct t; simpl in Ht; try discriminate.
    inversion Ht; subst. f_equal; auto. }
  split; auto. subst ts.
  exact (proj1 (Forall2_fmap_r Finished follows cs os) HF).
Qed.

(** With [return_exceptions=True], from a free lock: the gather comes back
    with one result for each awaitable, in their order, each one an end of
    that awaitable's own code; the lock is free again. *)
Lemma gather_isolated (sched : list nat) (cs : list pcode) (m : Master) :
  lock m = false ->
  exists os,
    snd (gather true sched cs m) = Some (Returned os) /\
    Forall2 ends cs os /\
    channel_state m (fst (gather true sched cs m)) None.
Proof.
  intros Hl. unfold gather. simpl negb.
  destruct (run_pool_done false sched m (Running <$> cs) Hl
              (quiet_start cs)) as [Hc Hd].
  pose proof (run_pool_follows cs false sched m (Running <$> cs)
                (follows_start cs)) as HF.
  destruct (run_pool false sched m (Running <$> cs)) as [m' ts].
  simpl in *. destruct Hd as [Hs|[Hk Hd]]; [discriminate|].
  destruct (results_all_done cs ts HF Hd) as (os & Hos & He & _).
  exists os. rewrite Hos. auto.
Qed.

(** Without [return_exceptions], from a free lock: either exactly one
    coroutine has raised and the gather raises its exception at once,
    leaving the pool in the event loop as it is; or all have returned, the
    gather returns their values and the lock is free. *)
Lemma gather_strict (sched : list nat) (cs : list pcode) (m : Master) :
  lock m = false ->
  in_step m (fst (gather false sched cs m))
    (snd (run_pool true sched m (Running <$> cs))) /\
  ((exists i c e,
       cs !! i = Some c /\ ends c (Raised e) /\
       snd (run_pool true sched m (Running <$> cs)) !! i
         = Some (Finished (Raised e)) /\
       (forall j t, snd (run_pool true sched m (Running <$> cs)) !! j
                      = Some t ->
                    is_Some (failure_of t) -> j = i) /\
       snd (gather false sched cs m) = Some (Raised e) /\
       loop (fst (gather false sched cs m))
       = snd (run_pool true sched m (Running <$> cs))) \/
   (exists vs,
       Forall2 (fun c v => ends c (Returned v)) cs vs /\
       snd (run_pool true sched m (Running <$> cs))
         = (fun v => Finished (Returned v)) <$> vs /\
       snd (gather false sched cs m) = Some (Returned (Returned <$> vs)) /\
       channel_state m (fst (gather false sched cs m)) None /\
       fst (gather false sched cs m)
       = fst (run_pool true sched m (Running <$> cs)))).
Proof.
  intros Hl. unfold gather. simpl negb.
  destruct (run_pool_done true sched m (Running <$> cs) Hl
              (quiet_start cs)) as [Hc Hd].
  pose proof (run_pool_follows cs true sched m (Running <$> cs)
                (follows_start cs)) as HF.
  pose proof (run_pool_single_failure sched m (Running <$> cs)
                (single_failure_start cs)) as Hs.
  destruct (run_pool true sched m (Running <$> cs)) as [m' ts].
  simpl in *.
  destruct (first_failure ts) as [e|] eqn:Hff.
  - split; [exact Hc|]. left.
    destruct (first_failure_Some ts e Hff) as [i Hi].
    apply Forall2_same_length_lookup in HF as [Hlen HF].
    destruct (lookup_lt_is_Some_2 cs i) as [c Hci].
    { rewrite Hlen. eapply lookup_lt_Some; eauto. }
    exists i, c, e. repeat split; auto.
    + apply (HF i c _ Hci Hi).
    + intros j t Hj Hf. apply (Hs j i t _ Hj Hi Hf). simpl. eauto.
  - destruct Hd as [Hst|[Hk Hd]].
    { apply stopped_true in Hst as (_ & e & He). congruence. }
    destruct (results_all_done cs ts HF Hd) as (os & Hos & He & Hts).
    split; [rewrite Hos; exact Hc|]. right.
    assert (Hvs : exists vs, os = Returned <$> vs).
    { rewrite first_failure_None in Hff. subst ts. clear -Hff.
      induction os as [|o os IH]; [exists []; auto|].
      destruct IH as [vs ->].
      { intros i t Hi. apply (Hff (S i)). auto. }
      destruct o as [v|e].
      - exists (v :: vs). auto.
      - specialize (Hff 0 _ eq_refl). discriminate. }
    destruct Hvs as [vs ->]. exists vs. rewrite Hos.
    split; [exact (proj1 (Forall2_fmap_r Returned ends cs vs) He)|].
    split; [rewrite Hts, <- list_fmap_compose; reflexivity|].
    split; [reflexivity|]. split; [exact Hk|reflexivity].
Qed.

(** ** The fan-out methods *)

Lemma enable_established (sched : list nat) (m : Master)
    (bv ca : Peripheral) :
  initialized m = true ->
  bill_validator m = Some bv -> coin_acceptor m = Some ca ->
  enable sched m =
  gather true sched [on_enable bv; on_enable ca] (invoked OpEnable m).
Proof.
  intros Hi Hb Hc.
  unfold enable, mbind, coroutine_bind, assert_initialized, attribute,
    invoke, assign, invoked.
  rewrite Hi, Hb. simpl. rewrite Hc. reflexivity.
Qed.

Lemma disable_established (sched : list nat) (m : Master)
    (bv ca : Peripheral) :
  initialized m = true ->
  bill_validator m = Some bv -> coin_acceptor m = Some ca ->
  disable sched m =
  gather true sched [on_disable bv; on_disable ca] (invoked OpDisable m).
Proof.
  intros Hi Hb Hc.
  unfold disable, mbind, coroutine_bind, assert_initialized, attribute,
    invoke, assign, invoked.
  rewrite Hi, Hb. simpl. rewrite Hc. reflexivity.
Qed.

Lemma status_established (sched : list nat) (m : Master)
    (bv ca : Peripheral) :
  initialized m = true ->
  bill_validator m = Some bv -> coin_acceptor m = Some ca ->
  status sched m =
  gather true sched [on_status bv; on_status ca] (invoked OpStatus m).
Proof.
  intros Hi Hb Hc.
  unfold status, mbind, coroutine_bind, assert_initialized, attribute,
    invoke, assign, invoked.
  rewrite Hi, Hb. simpl. rewrite Hc. reflexivity.
Qed.

Lemma run_established (sched : list nat) (m : Master) (bv ca : Peripheral) :
  initialized m = true ->
  bill_validator m = Some bv -> coin_acceptor m = Some ca ->
  run sched m =
  match gather false sched [on_run bv; on_run ca] (invoked OpRun m) with
  | (m', Some (Returned _)) => (m', Some (Returned tt))
  | (m', Some (Raised e)) => (m', Some (Raised e))
  | (m', None) => (m', None)
  end.
Proof.
  intros Hi Hb Hc.
  unfold run, mbind, coroutine_bind, assert_initialized, attribute,
    invoke, assign, invoked.
  rewrite Hi, Hb. simpl. rewrite Hc. reflexivity.
Qed.

Lemma gather_two_outcomes (sched : list nat) (c0 c1 : pcode) (m : Master) :
  lock m = false ->
  two_outcomes (snd (gather true sched [c0; c1] m)) c0 c1.
Proof.
  intros Hl.
  destruct (gather_isolated sched [c0; c1] m Hl) as (os & Hr & He & _).
  inversion He as [|? o0 ? os' H0 He']; subst.
  inversion He' as [|? o1 ? os'' H1 He'']; subst.
  inversion He''; subst. exists o0, o1. auto.
Qed.

(** ** [initialize], step by step *)

Lemma acknowledged_true (r : reply string) :
  acknowledged r = true <-> r = Returned "m,ACK".
Proof.
  destruct r as [s|e]; simpl.
  - rewrite String.eqb_eq. split; congruence.
  - split; discriminate.
Qed.

Lemma claim_mastership (h : USBHandler) (bv ca : Peripheral) (m : Master) :
  lock m = false ->
  with_lock (usb_sendread Self claim_text "m") (stored h bv ca m)
  = (after_claim h bv ca m, Some (mastership_reply h)).
Proof.
  intros Hl. unfold with_lock, usb_sendread, complete_sendread,
    after_claim, claimed_adapter, mastership_reply.
  simpl. rewrite Hl.
  destruct (adapter_sendread h (state h) (to_ascii claim_text) "m")
    as [c r].
  simpl. unfold record, entry_at. simpl.
  rewrite <- (app_assoc _ [_] [_]). reflexivity.
Qed.

Lemma reset_bus (h : USBHandler) (bv ca : Peripheral) (m : Master) :
  send Self reset_text (set_initialized true (after_claim h bv ca m))
  = (after_reset h bv ca m, Some (reset_reply h)).
Proof.
  unfold send, mbind, coroutine_bind, assert_initialized, with_lock,
    usb_send, complete_send, after_reset, reset_adapter, reset_reply.
  simpl.
  destruct (adapter_send h _ (to_ascii reset_text)) as [c r].
  simpl. unfold record, entry_at. simpl.
  rewrite <- (app_assoc _ [_] [_]). reflexivity.
Qed.

(** [initialize] by cases on what the adapter answers. *)
Lemma initialize_cases (h : USBHandler) (bv ca : Peripheral)
    (bus_reset : bool) (sched : list nat) (m : Master) :
  lock m = false ->
  initialize h bv ca bus_reset sched m =
  match mastership_reply h with
  | Raised e => (after_claim h bv ca m, Some (Raised e))
  | Returned s =>
      if String.eqb s "m,ACK" then
        if bus_reset then
          match reset_reply h with
          | Raised e => (after_reset h bv ca m, Some (Raised e))
          | Returned _ =>
              bring_up bv ca true sched (after_settle h bv ca m)
          end
        else bring_up bv ca false sched
               (set_initialized true (after_claim h bv ca m))
      else (after_claim h bv ca m, Some (Raised refusal))
  end.
Proof.
  intros Hl. unfold initialize.
  unfold mbind at 1 2 3 4. unfold coroutine_bind at 1 2 3 4.
  unfold assign at 1 2 3.
  fold (stored h bv ca m). fold claim_text.
  rewrite (claim_mastership h bv ca m Hl).
  destruct (mastership_reply h) as [s|e]; [|reflexivity].
  destruct (String.eqb s "m,ACK"); simpl; [|reflexivity].
  unfold mbind, coroutine_bind, assign. fold reset_text.
  destruct bus_reset.
  - rewrite (reset_bus h bv ca m).
    destruct (reset_reply h) as [[]|e]; [|reflexivity].
    unfold sleep, invoke, assign, bring_up, invoked, after_settle,
      settle_delay. simpl.
    destruct (gather false sched _ _) as [m' [[vs|e]|]]; reflexivity.
  - unfold mret, coroutine_ret, invoke, assign, bring_up, invoked. simpl.
    destruct (gather false sched _ _) as [m' [[vs|e]|]]; reflexivity.
Qed.

(** One peripheral fails, the other succeeds: the list holds the captured
    exception of the first and the value of the second, in place. *)
Lemma enable_one_fails (sched : list nat) (m : Master) (bv ca : Peripheral)
    (e : exn) (v : value) :
  initialized m = true -> lock m = false ->
  bill_validator m = Some bv -> coin_acceptor m = Some ca ->
  only_ends (on_enable bv) (Raised e) ->
  only_ends (on_enable ca) (Returned v) ->
  snd (enable sched m) = Some (Returned [Raised e; Returned v]).
Proof.
  intros Hi Hl Hb Hc H0 H1.
  rewrite (enable_established sched m bv ca Hi Hb Hc).
  destruct (gather_two_outcomes sched (on_enable bv) (on_enable ca)
              (invoked OpEnable m) Hl) as (o0 & o1 & -> & E0 & E1).
  rewrite (H0 o0 E0), (H1 o1 E1). reflexivity.
Qed.

(** ** The bring-up of the peripherals *)

Lemma bring_up_grows (bv ca : Peripheral) (bus_reset : bool)
    (sched : list nat) (m : Master) :
  pool_grows (invoked (OpInitialize (negb bus_reset)) m)
    (fst (bring_up bv ca bus_reset sched m)).
Proof.
  unfold bring_up.
  pose proof (gather_grows false sched
                [on_initialize bv (negb bus_reset);
                 on_initialize ca (negb bus_reset)]
                (invoked (OpInitialize (negb bus_reset)) m)) as H.
  destruct (gather false sched _ _) as [m' [[vs|e]|]]; exact H.
Qed.

Lemma bring_up_result (bv ca : Peripheral) (bus_reset : bool)
    (sched : list nat) (m : Master) :
  lock m = false ->
  (snd (bring_up bv ca bus_reset sched m) = Some (Returned tt) /\
   lock (fst (bring_up bv ca bus_reset sched m)) = false) \/
  exists e,
    snd (bring_up bv ca bus_reset sched m) = Some (Raised e) /\
    (ends (on_initialize bv (negb bus_reset)) (Raised e) \/
     ends (on_initialize ca (negb bus_reset)) (Raised e)).
Proof.
  intros Hl. unfold bring_up.
  destruct (gather_strict sched
              [on_initialize bv (negb bus_reset);
               on_initialize ca (negb bus_reset)]
              (invoked (OpInitialize (negb bus_reset)) m) Hl)
    as [_ [(i & c & e & Hci & He & _ & _ & Hr & _)
          |(vs & _ & _ & Hr & (_ & Hk & _) & _)]];
    destruct (gather false sched _ _) as [m' r]; simpl in *; subst r;
    simpl.
  - right. exists e. split; auto.
    destruct i as [|[|i]]; simpl in Hci; inversion Hci; subst; auto.
  - left. split; [reflexivity|exact Hk].
Qed.

(** ** The log, the fields and the result of [initialize] *)

Lemma bring_up_log (bv ca : Peripheral) (bus_reset : bool)
    (sched : list nat) (m : Master) :
  initialized m = true ->
  exists pool,
    Forall (written_at (clock m) true child_exchange) pool /\
    log (fst (bring_up bv ca bus_reset sched m)) =
    log m
    ++ [entry_at (clock m) true (Invoke 0 (OpInitialize (negb bus_reset)));
        entry_at (clock m) true (Invoke 1 (OpInitialize (negb bus_reset)))]
    ++ pool.
Proof.
  intros Hi.
  destruct (bring_up_grows bv ca bus_reset sched m)
    as (_ & _ & _ & _ & _ & pool & Hlog & Hp).
  exists pool. split.
  - eapply Forall_impl; [exact Hp|]. unfold by_children. simpl.
    rewrite Hi. auto.
  - rewrite Hlog. unfold invoked, record, entry_at. simpl. rewrite Hi.
    rewrite <- !app_assoc. reflexivity.
Qed.

Lemma initialize_log (h : USBHandler) (bv ca : Peripheral)
    (bus_reset : bool) (sched : list nat) (m : Master) :
  lock m = false ->
  exists pool,
    Forall (written_at (ready_clock bus_reset m) true child_exchange) pool /\
    log (fst (initialize h bv ca bus_reset sched m)) =
    log m ++ initialize_entries h bus_reset m pool.
Proof.
  intros Hl. rewrite (initialize_cases h bv ca bus_reset sched m Hl).
  unfold initialize_entries.
  destruct (mastership_reply h) as [s|e] eqn:Hr; simpl.
  2: { exists []. split; [apply List.Forall_nil|]. rewrite Hr.
       reflexivity. }
  destruct (String.eqb s "m,ACK"); simpl.
  2: { exists []. split; [apply List.Forall_nil|]. rewrite Hr.
       reflexivity. }
  destruct bus_reset.
  - destruct (reset_reply h) as [[]|e] eqn:Hs; simpl.
    + destruct (bring_up_log bv ca true sched (after_settle h bv ca m)
                  eq_refl) as (pool & Hp & Hlog).
      exists pool. split; [exact Hp|]. rewrite Hlog. simpl.
      rewrite Hr, Hs. unfold entry_at. simpl.
      rewrite <- !app_assoc. reflexivity.
    + exists []. split; [apply List.Forall_nil|]. rewrite Hr, Hs.
      rewrite <- !app_assoc. reflexivity.
  - destruct (bring_up_log bv ca false sched
                (set_initialized true (after_claim h bv ca m)) eq_refl)
      as (pool & Hp & Hlog).
    exists pool. split; [exact Hp|]. rewrite Hlog. simpl.
    rewrite Hr. rewrite <- !app_assoc. reflexivity.
Qed.

Lemma initialize_fields (h : USBHandler) (bv ca : Peripheral)
    (bus_reset : bool) (sched : list nat) (m : Master) :
  lock m = false ->
  initialized (fst (initialize h bv ca bus_reset sched m))
  = initialized m || acknowledged (mastership_reply h) /\
  (acknowledged (mastership_reply h) = false ->
   lock (fst (initialize h bv ca bus_reset sched m)) = false) /\
  is_Some (usb_handler (fst (initialize h bv ca bus_reset sched m))) /\
  bill_validator (fst (initialize h bv ca bus_reset sched m)) = Some bv /\
  coin_acceptor (fst (initialize h bv ca bus_reset sched m)) = Some ca.
Proof.
  intros Hl. rewrite (initialize_cases h bv ca bus_reset sched m Hl).
  assert (Hup : forall b m0,
    initialized m0 = true ->
    is_Some (usb_handler m0) ->
    bill_validator m0 = Some bv -> coin_acceptor m0 = Some ca ->
    initialized (fst (bring_up bv ca b sched m0)) = true /\
    is_Some (usb_handler (fst (bring_up bv ca b sched m0))) /\
    bill_validator (fst (bring_up bv ca b sched m0)) = Some bv /\
    coin_acceptor (fst (bring_up bv ca b sched m0)) = Some ca).
  { intros b m0 Hi0 Hu0 Hb0 Hc0.
    destruct (bring_up_grows bv ca b sched m0) as (Hi & _ & Hb & Hc & Hu & _).
    simpl in *. repeat split; try congruence; auto. }
  destruct (mastership_reply h) as [s|e]; simpl;
    [|rewrite orb_false_r; repeat split; eauto].
  destruct (String.eqb s "m,ACK"); simpl;
    [|rewrite orb_false_r; repeat split; eauto].
  rewrite orb_true_r.
  destruct bus_reset; [destruct (reset_reply h) as [[]|e]|].
  - destruct (Hup true (after_settle h bv ca m)) as (H1 & H2); simpl; eauto.
    split; [exact H1|]. split; [discriminate|exact H2].
  - simpl. split; [reflexivity|]. split; [discriminate|]. eauto.
  - destruct (Hup false (set_initialized true (after_claim h bv ca m)))
      as (H1 & H2); simpl; eauto.
    split; [exact H1|]. split; [discriminate|exact H2].
Qed.


Lemma initialize_result (h : USBHandler) (bv ca : Peripheral)
    (bus_reset : bool) (sched : list nat) (m : Master) :
  lock m = false ->
  match mastership_reply h with
  | Raised e =>
      snd (initialize h bv ca bus_reset sched m) = Some (Raised e)
  | Returned s =>
      if String.eqb s "m,ACK" then
        snd (initialize h bv ca bus_reset sched m) = Some (Returned tt) \/
        (bus_reset = true /\
         exists e, reset_reply h = Raised e /\
                   snd (initialize h bv ca bus_reset sched m)
                   = Some (Raised e)) \/
        (exists e,
            snd (initialize h bv ca bus_reset sched m) = Some (Raised e) /\
            (ends (on_initialize bv (negb bus_reset)) (Raised e) \/
             ends (on_initialize ca (negb bus_reset)) (Raised e)))
      else snd (initialize h bv ca bus_reset sched m) = Some (Raised refusal)
  end.
Proof.
  intros Hl. rewrite (initialize_cases h bv ca bus_reset sched m Hl).
  destruct (mastership_reply h) as [s|e]; [|reflexivity].
  destruct (String.eqb s "m,ACK"); [|reflexivity].
  destruct bus_reset; [destruct (reset_reply h) as [[]|e]|].
  - destruct (bring_up_result bv ca true sched (after_settle h bv ca m)
                eq_refl) as [[H _]|H]; auto.
  - right. left. eauto.
  - destruct (bring_up_result bv ca false sched
                (set_initialized true (after_claim h bv ca m)) eq_refl)
      as [[H _]|H]; auto.
Qed.

Lemma initialize_events_refused (h : USBHandler) (bv ca : Peripheral)
    (bus_reset : bool) (sched : list nat) (m : Master) :
  lock m = false -> acknowledged (mastership_reply h) = false ->
  events (fst (initialize h bv ca bus_reset sched m))
  = events m ++ [Transmit Self claim_text (Some "m");
                 Complete Self (seen_of_sendread (mastership_reply h))].
Proof.
  intros Hl Ha.
  destruct (initialize_log h bv ca bus_reset sched m Hl) as (pool & _ & Hlog).
  unfold events. rewrite Hlog. unfold initialize_entries. rewrite Ha.
  rewrite fmap_app. reflexivity.
Qed.

Lemma child_exchange_not_self (t : Q) (b : bool) (pool : list entry) :
  Forall (written_at t b child_exchange) pool ->
  Forall (fun e => ~ exchange_of Self e) (what <$> pool).
Proof.
  intros Hp. apply Forall_fmap. eapply Forall_impl; [exact Hp|].
  intros x (_ & _ & Hx). simpl.
  destruct (what x) as [[|i] ? ?|[|i] ?| |]; simpl in *; auto; discriminate.
Qed.




(** ** The flag over a life of calls *)

Lemma fan_out_flag (op : operation) (return_exceptions : bool)
    (sched : list nat) (cs : list pcode) (m : Master) :
  initialized (fst (gather return_exceptions sched cs (invoked op m)))
  = initialized m.
Proof.
  destruct (gather_grows return_exceptions sched cs (invoked op m))
    as (Hi & _).
  rewrite Hi. reflexivity.
Qed.

Lemma enable_flag (sched : list nat) (m : Master) :
  initialized (fst (enable sched m)) = initialized m.
Proof.
  unfold enable, mbind, coroutine_bind, assert_initialized, attribute,
    invoke, assign.
  destruct (initialized m) eqn:Hi; simpl; auto.
  destruct (bill_validator m) as [bv|]; simpl; auto.
  destruct (coin_acceptor m) as [ca|]; simpl; auto.
  pose proof (fan_out_flag OpEnable true sched [on_enable bv; on_enable ca] m)
    as H.
  unfold invoked in H. rewrite H. exact Hi.
Qed.

Lemma disable_flag (sched : list nat) (m : Master) :
  initialized (fst (disable sched m)) = initialized m.
Proof.
  unfold disable, mbind, coroutine_bind, assert_initialized, attribute,
    invoke, assign.
  destruct (initialized m) eqn:Hi; simpl; auto.
  destruct (bill_validator m) as [bv|]; simpl; auto.
  destruct (coin_acceptor m) as [ca|]; simpl; auto.
  pose proof (fan_out_flag OpDisable true sched
                [on_disable bv; on_disable ca] m) as H.
  unfold invoked in H. rewrite H. exact Hi.
Qed.

Lemma status_flag (sched : list nat) (m : Master) :
  initialized (fst (status sched m)) = initialized m.
Proof.
  unfold status, mbind, coroutine_bind, assert_initialized, attribute,
    invoke, assign.
  destruct (initialized m) eqn:Hi; simpl; auto.
  destruct (bill_validator m) as [bv|]; simpl; auto.
  destruct (coin_acceptor m) as [ca|]; simpl; auto.
  pose proof (fan_out_flag OpStatus true sched [on_status bv; on_status ca] m)
    as H.
  unfold invoked in H. rewrite H. exact Hi.
Qed.

Lemma run_flag (sched : list nat) (m : Master) :
  initialized (fst (run sched m)) = initialized m.
Proof.
  unfold run, mbind, coroutine_bind, assert_initialized, attribute,
    invoke, assign.
  destruct (initialized m) eqn:Hi; simpl; auto.
  destruct (bill_validator m) as [bv|]; simpl; auto.
  destruct (coin_acceptor m) as [ca|]; simpl; auto.
  pose proof (fan_out_flag OpRun false sched [on_run bv; on_run ca] m) as H.
  unfold invoked in H. rewrite Hi in H.
  destruct (gather false sched _ _) as [m' [[vs|e]|]]; exact H.
Qed.

Lemma initialize_flag (h : USBHandler) (bv ca : Peripheral)
    (bus_reset : bool) (sched : list nat) (m : Master) :
  initialized (fst (initialize h bv ca bus_reset sched m))
  = initialized m || (negb (lock m) && acknowledged (mastership_reply h)).
Proof.
  destruct (lock m) eqn:Hl.
  - unfold initialize, mbind, coroutine_bind, assign, with_lock. simpl.
    rewrite Hl. simpl. rewrite orb_false_r. reflexivity.
  - destruct (initialize_fields h bv ca bus_reset sched m Hl) as (Hf & _).
    exact Hf.
Qed.

Lemma quiesce_grows (m : Master) : pool_grows m (quiesce m).
Proof. exact (drain_grows false m (loop m)). Qed.

Lemma quiesce_flag (m : Master) : initialized (quiesce m) = initialized m.
Proof. destruct (quiesce_grows m) as (Hi & _). exact Hi. Qed.

Lemma at_return_flag (r : request) (m : Master) :
  is_initialize r = false -> initialized (at_return r m) = initialized m.
Proof.
  destruct r as [| who message | who message pfx | | | |]; simpl;
    try discriminate; intros _.
  - destruct (send_grows who message m) as (Hi & _). exact Hi.
  - destruct (sendread_grows who message pfx m) as (Hi & _). exact Hi.
  - apply enable_flag.
  - apply disable_flag.
  - apply status_flag.
  - apply run_flag.
Qed.

Lemma perform_flag (r : request) (m : Master) :
  is_initialize r = false -> initialized (perform r m) = initialized m.
Proof.
  intros Hr. unfold perform. rewrite quiesce_flag.
  apply at_return_flag, Hr.
Qed.

Lemma perform_all_established (rs : list request) (m : Master) :
  initialized m = true -> initialized (perform_all rs m) = true.
Proof.
  revert m. induction rs as [|r rs IH]; intros m Hi; simpl; auto.
  apply IH. destruct (is_initialize r) eqn:Hr.
  - destruct r; try discriminate. unfold perform.
    rewrite quiesce_flag. simpl.
    rewrite initialize_flag, Hi. reflexivity.
  - rewrite perform_flag; auto.
Qed.

(** ** Exchanges come one at a time *)

Lemma caller_eqb_eq (a b : caller) : caller_eqb a b = true -> a = b.
Proof.
  destruct a as [|i], b as [|j]; simpl; try discriminate; auto.
  intros H. apply Nat.eqb_eq in H. congruence.
Qed.

Lemma cycles_app (l1 l2 : list event) :
  cycles l1 -> cycles l2 -> cycles (l1 ++ l2).
Proof.
  induction 1; simpl; auto. intros H2. constructor. auto.
Qed.

Lemma serial_cycles (l : list event) :
  Forall on_channel l ->
  forall h0 h1,
    serial h0 l = Some h1 ->
    match h0 with
    | None => upto_holder h1 l
    | Some w =>
        (l = [] /\ h1 = Some w) \/
        exists r l', l = Complete w r :: l' /\ upto_holder h1 l'
    end.
Proof.
  induction 1 as [|e l He Hl IH]; intros h0 h1 Hs; simpl in Hs.
  - injection Hs as <-. destruct h0 as [w|]; simpl; auto. constructor.
  - destruct e as [w message expects|w r| |]; simpl in He;
      try contradiction.
    + destruct h0 as [w0|]; [discriminate|].
      specialize (IH (Some w) h1 Hs). simpl in IH.
      destruct IH as [[-> ->]|(r & l' & -> & Hu)].
      * simpl. exists [], message, expects. split; auto. constructor.
      * destruct h1 as [w1|]; simpl in *.
        -- destruct Hu as (l'' & message1 & expects1 & -> & Hc).
           exists (Transmit w message expects :: Complete w r :: l''),
             message1, expects1.
           split; auto. constructor. auto.
        -- constructor. auto.
    + destruct h0 as [w0|]; [|discriminate].
      destruct (caller_eqb w w0) eqn:Hw; [|discriminate].
      apply caller_eqb_eq in Hw. subst w0.
      specialize (IH None h1 Hs). simpl in IH.
      right. eauto.
Qed.

Lemma pool_events_on_channel (t : Q) (b : bool) (new : list entry) :
  Forall (written_at t b child_exchange) new ->
  Forall on_channel (what <$> new).
Proof.
  intros H. apply Forall_fmap. eapply Forall_impl; [exact H|].
  intros x (_ & _ & Hx). simpl.
  destruct (what x) as [[|i] ? ?|[|i] ?| |]; simpl in *; auto.
Qed.

Lemma grown_log_unique (m m' : Master) (l1 l2 : list entry) :
  log m' = log m ++ l1 -> log m' = log m ++ l2 -> l1 = l2.
Proof. intros H1 H2. rewrite H1 in H2. eapply app_inv_head; eauto. Qed.

(** In a pool in step the log since the start is whole exchanges, with
    one more under way when the lock is held. *)
Lemma in_step_so_far (m0 m : Master) (ts : list task) :
  in_step m0 m ts -> pool_grows m0 m ->
  exists new,
    log m = log m0 ++ new /\
    cycles_so_far (what <$> new) /\
    (lock m = false -> cycles (what <$> new)).
Proof.
  intros H (_ & _ & _ & _ & _ & new & Hlog & Hnew).
  exists new. split; [exact Hlog|].
  apply pool_events_on_channel in Hnew.
  destruct H as [[((new' & Hlog' & Hs) & _) _]
                |(i & ((new' & Hlog' & Hs) & Hk & _) & _)];
    rewrite (grown_log_unique _ _ _ _ Hlog Hlog');
    rewrite (grown_log_unique _ _ _ _ Hlog Hlog') in Hnew;
    apply (serial_cycles _ Hnew) in Hs; simpl in Hs.
  - split; [left; exact Hs|intros _; exact Hs].
  - split.
    + right. destruct Hs as (l' & message & expects & Hl' & Hc).
      exists l', (Child i), message, expects. auto.
    + intros Hf. rewrite Hf in Hk.
      rewrite bool_decide_eq_true_2 in Hk by eauto. discriminate.
Qed.

(** A call of [send] from a pool, step by step, is [send]: the step that
    takes the lock and the step that takes the answer do together what the
    method does when it runs alone. *)
Lemma send_in_two_steps (i : nat) (message : string)
    (k : reply unit -> pcode) (m : Master) :
  initialized m = true -> lock m = false -> is_Some (usb_handler m) ->
  exists r,
    send (Child i) message m
    = (fst (step_task i (snd (step_task i (Running (CallSend message k)) m))
              (fst (step_task i (Running (CallSend message k)) m))),
       Some r) /\
    snd (step_task i (snd (step_task i (Running (CallSend message k)) m))
           (fst (step_task i (Running (CallSend message k)) m)))
    = Running (k r).
Proof.
  intros Hi Hl [h Hh].
  unfold send, mbind, coroutine_bind, assert_initialized, with_lock,
    usb_send.
  simpl. rewrite Hi, Hl, Hh. simpl.
  destruct (complete_send (Child i) message _) as [m' r]. simpl. eauto.
Qed.

Lemma sendread_in_two_steps (i : nat) (message prefix : string)
    (k : reply string -> pcode) (m : Master) :
  initialized m = true -> lock m = false -> is_Some (usb_handler m) ->
  exists r,
    sendread (Child i) message prefix m
    = (fst (step_task i
              (snd (step_task i (Running (CallSendRead message prefix k)) m))
              (fst (step_task i (Running (CallSendRead message prefix k)) m))),
       Some r) /\
    snd (step_task i
           (snd (step_task i (Running (CallSendRead message prefix k)) m))
           (fst (step_task i (Running (CallSendRead message prefix k)) m)))
    = Running (k r).
Proof.
  intros Hi Hl [h Hh].
  unfold sendread, mbind, coroutine_bind, assert_initialized, with_lock,
    usb_sendread.
  simpl. rewrite Hi, Hl, Hh. simpl.
  destruct (complete_sendread (Child i) message prefix _) as [m' r].
  simpl. eauto.
Qed.

(** ** Running the pool to its end is a schedule *)

Lemma interleave_app
    (move : nat -> Master -> list task -> Master * list task)
    (s1 s2 : list nat) (m : Master) (ts : list task) :
  interleave move false (s1 ++ s2) m ts
  = interleave move false s2 (fst (interleave move false s1 m ts))
      (snd (interleave move false s1 m ts)).
Proof.
  revert m ts. induction s1 as [|i s1 IH]; intros m ts; simpl; auto.
  unfold stopped. simpl. destruct (move i m ts) as [m' ts']. apply IH.
Qed.

Lemma interleave_strict_prefix
    (move : nat -> Master -> list task -> Master * list task)
    (strict : bool) (sched : list nat) (m : Master) (ts : list task) :
  exists steps,
    interleave move strict sched m ts = interleave move false steps m ts.
Proof.
  revert m ts. induction sched as [|i sched IH]; intros m ts; simpl.
  - exists []. reflexivity.
  - destruct (stopped strict ts); [exists []; reflexivity|].
    destruct (move i m ts) as [m' ts'] eqn:Hm.
    destruct (IH m' ts') as [steps Hs]. exists (i :: steps). simpl.
    unfold stopped. simpl. rewrite Hm. exact Hs.
Qed.

Lemma set_lock_again (m : Master) :
  lock m = false -> set_lock false (set_lock true m) = m.
Proof. destruct m. simpl. intros ->. reflexivity. Qed.

Lemma step_at (i : nat) (m : Master) (ts : list task) (t : task) :
  ts !! i = Some t ->
  step i m ts = (fst (step_task i t m), <[i := snd (step_task i t m)]> ts).
Proof.
  intros Hi. unfold step. rewrite Hi.
  destruct (step_task i t m) as [m' t']. reflexivity.
Qed.

(** [finish] is a number of steps of the same coroutine. *)
Lemma finish_steps (i : nat) (c : pcode) :
  forall (m : Master) (ts : list task),
    ts !! i = Some (Running c) ->
    exists n,
      interleave step false (replicate n i) m ts
      = (fst (finish i c m), <[i := snd (finish i c m)]> ts).
Proof.
  assert (Hgo : forall (m m' : Master) (ts : list task) (c' : pcode)
                       (t : task),
    ts !! i = Some t ->
    step_task i t m = (m', Running c') ->
    (forall ts', ts' !! i = Some (Running c') ->
       exists n, interleave step false (replicate n i) m' ts'
                 = (fst (finish i c' m'), <[i := snd (finish i c' m')]> ts')) ->
    exists n, interleave step false (replicate n i) m ts
              = (fst (finish i c' m'), <[i := snd (finish i c' m')]> ts)).
  { intros m m' ts c' t Hi Hst IH.
    destruct (IH (<[i := Running c']> ts)) as [n Hn].
    { apply list_lookup_insert_eq. eapply lookup_lt_Some; eauto. }
    exists (S n). simpl. unfold stopped. simpl.
    rewrite (step_at i m ts t Hi), Hst. simpl. rewrite Hn.
    rewrite list_insert_insert_eq. reflexivity. }
  induction c as [v|e|k IH|message k IH|message prefix k IH]; intros m ts Hi;
    simpl.
  - exists 1. simpl. unfold stopped. simpl.
    rewrite (step_at i m ts _ Hi). reflexivity.
  - exists 1. simpl. unfold stopped. simpl.
    rewrite (step_at i m ts _ Hi). reflexivity.
  - apply (Hgo m m ts k _ Hi eq_refl). intros ts'. apply IH.
  - unfold send, mbind, coroutine_bind, assert_initialized, with_lock,
      usb_send.
    destruct (initialized m) eqn:Hin; simpl.
    + destruct (lock m) eqn:Hl; simpl.
      * exists 0. simpl. rewrite list_insert_id by auto. reflexivity.
      * destruct (usb_handler m) as [h|] eqn:Hh; simpl.
        -- destruct (complete_send (Child i) message
                       (transmit (Child i) message None (set_lock true m)))
             as [m1 r] eqn:Hc.
           destruct (IH r (set_lock false m1)
                       (<[i := Running (k r)]> ts)) as [n Hn].
           { apply list_lookup_insert_eq. eapply lookup_lt_Some; eauto. }
           exists (S (S n)). simpl. unfold stopped. simpl.
           rewrite (step_at i m ts _ Hi). simpl. rewrite Hin, Hl, Hh. simpl.
           rewrite (step_at i _ _ (InFlightSend message k)).
           2: { apply list_lookup_insert_eq. eapply lookup_lt_Some; eauto. }
           simpl. rewrite Hc. simpl.
           rewrite list_insert_insert_eq, Hn, list_insert_insert_eq.
           reflexivity.
        -- rewrite (set_lock_again m Hl).
           apply (Hgo m m ts _ _ Hi).
           ++ simpl. rewrite Hin, Hl, Hh. reflexivity.
           ++ intros ts'. apply IH.
    + apply (Hgo m m ts _ _ Hi).
      * simpl. rewrite Hin. reflexivity.
      * intros ts'. apply IH.
  - unfold sendread, mbind, coroutine_bind, assert_initialized, with_lock,
      usb_sendread.
    destruct (initialized m) eqn:Hin; simpl.
    + destruct (lock m) eqn:Hl; simpl.
      * exists 0. simpl. rewrite list_insert_id by auto. reflexivity.
      * destruct (usb_handler m) as [h|] eqn:Hh; simpl.
        -- destruct (complete_sendread (Child i) message prefix
                       (transmit (Child i) message (Some prefix)
                          (set_lock true m)))
             as [m1 r] eqn:Hc.
           destruct (IH r (set_lock false m1)
                       (<[i := Running (k r)]> ts)) as [n Hn].
           { apply list_lookup_insert_eq. eapply lookup_lt_Some; eauto. }
           exists (S (S n)). simpl. unfold stopped. simpl.
           rewrite (step_at i m ts _ Hi). simpl. rewrite Hin, Hl, Hh. simpl.
           rewrite (step_at i _ _ (InFlightSendRead message prefix k)).
           2: { apply list_lookup_insert_eq. eapply lookup_lt_Some; eauto. }
           simpl. rewrite Hc. simpl.
           rewrite list_insert_insert_eq, Hn, list_insert_insert_eq.
           reflexivity.
        -- rewrite (set_lock_again m Hl).
           apply (Hgo m m ts _ _ Hi).
           ++ simpl. rewrite Hin, Hl, Hh. reflexivity.
           ++ intros ts'. apply IH.
    + apply (Hgo m m ts _ _ Hi).
      * simpl. rewrite Hin. reflexivity.
      * intros ts'. apply IH.
Qed.

Lemma finish_at_steps (i : nat) (m : Master) (ts : list task) :
  exists steps, finish_at i m ts = interleave step false steps m ts.
Proof.
  unfold finish_at.
  destruct (ts !! i) as [[c| | |]|] eqn:Hi; try (exists []; reflexivity).
  destruct (finish_steps i c m ts Hi) as [n Hn].
  exists (replicate n i). rewrite Hn.
  destruct (finish i c m) as [m' t']. reflexivity.
Qed.

Lemma finish_all_steps (strict : bool) (sched : list nat) (m : Master)
    (ts : list task) :
  exists steps,
    interleave finish_at strict sched m ts
    = interleave step false steps m ts.
Proof.
  revert m ts. induction sched as [|i sched IH]; intros m ts; simpl.
  - exists []. reflexivity.
  - destruct (stopped strict ts); [exists []; reflexivity|].
    destruct (finish_at_steps i m ts) as [s1 H1]. rewrite H1.
    destruct (interleave step false s1 m ts) as [m' ts'] eqn:Hs1.
    destruct (IH m' ts') as [s2 H2]. exists (s1 ++ s2).
    rewrite interleave_app, Hs1. exact H2.
Qed.

(** The rest of a pool is a number of steps of its coroutines. *)
Lemma drain_is_a_schedule (strict : bool) (m : Master) (ts : list task) :
  exists steps, drain strict m ts = interleave step false steps m ts.
Proof.
  unfold drain.
  assert (H2 : exists s2, settle m ts = interleave step false s2 m ts).
  { unfold settle. destruct (list_find _ ts) as [[i t]|].
    - exists [i]. simpl. unfold stopped. simpl.
      destruct (step i m ts). reflexivity.
    - exists []. reflexivity. }
  destruct H2 as [s2 H2]. rewrite H2.
  destruct (interleave step false s2 m ts) as [m2 ts2] eqn:E2.
  destruct (finish_all_steps strict (seq 0 (length ts2)) m2 ts2)
    as [s3 H3].
  exists (s2 ++ s3). rewrite interleave_app, E2. exact H3.
Qed.

(** The end of the pool under [run_pool] is a state the pool reaches step
    by step under some schedule. *)
Lemma run_pool_is_a_schedule (strict : bool) (sched : list nat) (m : Master)
    (ts : list task) :
  exists steps, run_pool strict sched m ts = interleave step false steps m ts.
Proof.
  unfold run_pool.
  destruct (interleave_strict_prefix step strict sched m ts) as [s1 H1].
  rewrite H1.
  destruct (interleave step false s1 m ts) as [m1 ts1] eqn:E1.
  destruct (stopped strict ts1); [exists s1; symmetry; exact E1|].
  destruct (drain_is_a_schedule strict m1 ts1) as [s2 H2].
  exists (s1 ++ s2). rewrite interleave_app, E1. exact H2.
Qed.

(** * The claims *)

(** C1.  From a master that is not established, with the lock
    free, for every adapter, every pair of peripherals, every flag and
    every schedule: the session is established after [initialize] exactly
    when the adapter answered the claim with 'm,ACK', and [initialize]
    returns only in that case (after 'm,ACK' it raises when the reset could
    not be sent or when a peripheral's initialize raised).  Any other
    answer makes it raise the [RuntimeError] of the claim, with the session
    not established and nothing in the log but the claim's exchange: no
    reset sent, no peripheral called.  An exception of the adapter during
    the claim goes to the caller, with the same state. *)
Theorem initialize_claims_mastership (h : USBHandler) (bv ca : Peripheral)
    (bus_reset : bool) (sched : list nat) (m : Master) :
  lock m = false -> initialized m = false ->
  (initialized (fst (initialize h bv ca bus_reset sched m)) = true <->
   mastership_reply h = Returned "m,ACK") /\
  (snd (initialize h bv ca bus_reset sched m) = Some (Returned tt) ->
   mastership_reply h = Returned "m,ACK") /\
  (mastership_reply h = Returned "m,ACK" ->
   snd (initialize h bv ca bus_reset sched m) = Some (Returned tt) \/
   (bus_reset = true /\
    exists e, reset_reply h = Raised e /\
              snd (initialize h bv ca bus_reset sched m) = Some (Raised e)) \/
   (exists e,
       snd (initialize h bv ca bus_reset sched m) = Some (Raised e) /\
       (ends (on_initialize bv (negb bus_reset)) (Raised e) \/
        ends (on_initialize ca (negb bus_reset)) (Raised e)))) /\
  (forall s,
      mastership_reply h = Returned s -> s <> "m,ACK" ->
      snd (initialize h bv ca bus_reset sched m)
      = Some (Raised
                (RuntimeError "Unable to start master mode on MDB board.")) /\
      initialized (fst (initialize h bv ca bus_reset sched m)) = false /\
      events (fst (initialize h bv ca bus_reset sched m))
      = events m ++ [Transmit Self ("M,1" +:+ LF) (Some "m");
                     Complete Self (Returned (Some s))]) /\
  (forall e,
      mastership_reply h = Raised e ->
      snd (initialize h bv ca bus_reset sched m) = Some (Raised e) /\
      initialized (fst (initialize h bv ca bus_reset sched m)) = false /\
      events (fst (initialize h bv ca bus_reset sched m))
      = events m ++ [Transmit Self ("M,1" +:+ LF) (Some "m");
                     Complete Self (Raised e)]).
Proof.
  intros Hl Hi.
  destruct (initialize_fields h bv ca bus_reset sched m Hl) as (Hf & _).
  rewrite Hi in Hf. simpl in Hf.
  pose proof (initialize_result h bv ca bus_reset sched m Hl) as Hr.
  pose proof (initialize_events_refused h bv ca bus_reset sched m Hl) as He.
  split; [rewrite Hf; apply acknowledged_true|].
  destruct (mastership_reply h) as [s|e] eqn:Hm; simpl in *.
  - destruct (String.eqb s "m,ACK") eqn:Hs.
    + apply String.eqb_eq in Hs. subst s.
      split; [auto|]. split; [auto|].
      split; [intros s0 [= <-] Hne; congruence|discriminate].
    + assert (Hne : s <> "m,ACK")
        by (intros ->; rewrite String.eqb_refl in Hs; discriminate).
      split; [rewrite Hr; discriminate|].
      split; [intros [= ->]; congruence|].
      split; [|discriminate].
      intros s0 [= <-] _. rewrite He by reflexivity. auto.
  - split; [rewrite Hr; discriminate|].
    split; [discriminate|].
    split; [discriminate|].
    intros e0 [= <-]. rewrite He by reflexivity. auto.
Qed.



(** C4.  Whatever the adapter, the log of [initialize] opens
    with the claim: the text 'M,1' followed by a line feed, sent with
    [sendread] and the prefix 'm'.  Only the answer 'm,ACK', exactly,
    lets [initialize] go on; otherwise nothing more is sent and it raises.
    With [bus_reset] the next thing the master sends is the text 'R,RESET'
    followed by a line feed, with [send]: no prefix is given and what comes
    back holds no text.  Apart from these two the master itself sends
    nothing. *)
Theorem wire_handshake (h : USBHandler) (bv ca : Peripheral)
    (bus_reset : bool) (sched : list nat) (m : Master) :
  lock m = false ->
  exists rest,
    events (fst (initialize h bv ca bus_reset sched m))
    = events m ++ Transmit Self ("M,1" +:+ LF) (Some "m")
               :: Complete Self (seen_of_sendread (mastership_reply h))
               :: rest /\
    (mastership_reply h <> Returned "m,ACK" ->
     rest = [] /\
     exists e, snd (initialize h bv ca bus_reset sched m) = Some (Raised e)) /\
    (mastership_reply h = Returned "m,ACK" -> bus_reset = true ->
     exists rest',
       rest = Transmit Self ("R,RESET" +:+ LF) None
              :: Complete Self (seen_of_send (reset_reply h)) :: rest' /\
       (forall s, seen_of_send (reset_reply h) <> Returned (Some s)) /\
       Forall (fun e => ~ exchange_of Self e) rest') /\
    (mastership_reply h = Returned "m,ACK" -> bus_reset = false ->
     Forall (fun e => ~ exchange_of Self e) rest).
Proof.
  intros Hl.
  destruct (initialize_log h bv ca bus_reset sched m Hl) as (pool & Hp & Hlog).
  pose proof (initialize_result h bv ca bus_reset sched m Hl) as Hr.
  apply child_exchange_not_self in Hp.
  unfold events. rewrite Hlog. unfold initialize_entries.
  rewrite fmap_app. simpl.
  destruct (acknowledged (mastership_reply h)) eqn:Ha.
  - apply acknowledged_true in Ha. destruct bus_reset.
    + eexists. split; [reflexivity|].
      split; [contradiction|]. split; [|discriminate]. intros _ _.
      simpl. eexists. split; [reflexivity|]. split.
      * intros s. destruct (reset_reply h); discriminate.
      * destruct (reset_reply h); simpl; [|apply List.Forall_nil].
        repeat (apply List.Forall_cons; [simpl; tauto|]). exact Hp.
    + eexists. split; [reflexivity|].
      split; [contradiction|]. split; [discriminate|]. intros _ _.
      simpl. repeat (apply List.Forall_cons; [simpl; tauto|]). exact Hp.
  - exists []. split; [reflexivity|].
    assert (Hne : mastership_reply h <> Returned "m,ACK").
    { intros H. apply acknowledged_true in H. congruence. }
    split; [|split; contradiction]. intros _. split; [reflexivity|].
    destruct (mastership_reply h) as [s|e]; simpl in Ha; [|eauto].
    rewrite Ha in Hr. eauto.
Qed.

(** C5.  [send] and [sendread], called while the session is not
    established, fail with the assertion fault whatever the message and
    whatever the state of the channel (adapter assigned or not, lock free
    or held), and leave the master as it was: nothing is handed to the
    adapter.  The same holds for a peripheral's coroutine that calls them
    from a pool: it is resumed with the assertion fault. *)
Theorem send_before_initialize (m : Master) (who : caller)
    (message prefix : string) :
  initialized m = false ->
  send who message m = (m, Some (Raised AssertionError)) /\
  sendread who message prefix m = (m, Some (Raised AssertionError)) /\
  (forall i k,
      step_task i (Running (CallSend message k)) m
      = (m, Running (k (Raised AssertionError)))) /\
  (forall i k,
      step_task i (Running (CallSendRead message prefix k)) m
      = (m, Running (k (Raised AssertionError)))).
Proof.
  intros Hi.
  unfold send, sendread, mbind, coroutine_bind, assert_initialized.
  simpl. rewrite Hi. simpl. auto.
Qed.



(** C8.  The flag is false on a new master.  [send], [sendread],
    [enable], [disable], [status] and [run] leave it as it is, in every
    state and under every schedule.  [initialize] sets it when, and only
    when, it got the lock and the claim was acknowledged, and never clears
    it.  Hence in every state reached by any calls after an [initialize]
    that returned, the session is established. *)
Theorem established_once :
  initialized Master_init = false /\
  (forall r m,
      is_initialize r = false -> initialized (perform r m) = initialized m) /\
  (forall h bv ca bus_reset sched m,
      initialized (fst (initialize h bv ca bus_reset sched m))
      = initialized m
        || (negb (lock m) && acknowledged (mastership_reply h))) /\
  (forall h bv ca bus_reset sched m rs,
      snd (initialize h bv ca bus_reset sched m) = Some (Returned tt) ->
      initialized
        (perform_all rs (fst (initialize h bv ca bus_reset sched m)))
      = true).
Proof.
  split; [reflexivity|]. split; [apply perform_flag|].
  split; [apply initialize_flag|].
  intros h bv ca bus_reset sched m rs Hr.
  apply perform_all_established. rewrite initialize_flag.
  destruct (lock m) eqn:Hl.
  - unfold initialize, mbind, coroutine_bind, assign, with_lock in Hr.
    simpl in Hr. rewrite Hl in Hr. discriminate.
  - pose proof (initialize_result h bv ca bus_reset sched m Hl) as H.
    destruct (mastership_reply h) as [s|e]; simpl; [|congruence].
    destruct (String.eqb s "m,ACK"); [|congruence].
    apply orb_true_r.
Qed.

(** C9.  Take any number of coroutines that call [send] and [sendread]
    as they please, and run them together from a free lock under any
    schedule, strict gather or not.  At every moment the log of what went
    to the adapter since the start is a sequence of whole exchanges, each
    request followed at once by the answer to the same caller, with at most
    one exchange under way at the end: no request is handed to the adapter
    while another caller's exchange is open.  This holds when the gather
    is over, and then all the exchanges are whole, unless a strict gather
    has raised: it is over at once, and the exchange of a coroutine it
    leaves behind may be under way.  When the coroutines left behind have
    ended, all the exchanges are whole again. *)
Theorem exchanges_never_interleave (strict : bool) (sched : list nat)
    (cs : list pcode) (m : Master) :
  lock m = false ->
  (exists new,
      log (fst (interleave step strict sched m (Running <$> cs)))
      = log m ++ new /\
      cycles_so_far (what <$> new)) /\
  (exists new,
      log (fst (run_pool strict sched m (Running <$> cs))) = log m ++ new /\
      cycles_so_far (what <$> new) /\
      (strict = false \/
       first_failure (snd (run_pool strict sched m (Running <$> cs))) = None ->
       cycles (what <$> new))) /\
  (exists new,
      log (fst (drain false
                  (fst (run_pool strict sched m (Running <$> cs)))
                  (snd (run_pool strict sched m (Running <$> cs)))))
      = log m ++ new /\
      cycles (what <$> new)).
Proof.
  intros Hl.
  assert (Hin : in_step m m (Running <$> cs))
    by (left; split; auto using channel_state_start, quiet_start).
  destruct (run_pool_done strict sched m (Running <$> cs) Hl
              (quiet_start cs)) as [Hrp Hend].
  pose proof (run_pool_grows strict sched m (Running <$> cs)) as Hg.
  split; [|split].
  - pose proof (interleave_in_step step strict sched m m (Running <$> cs)
                  (fun i m1 ts1 => step_in_step m m1 ts1 i) Hin) as H.
    destruct (in_step_so_far _ _ _ H
                (interleave_grows step strict sched m (Running <$> cs)
                   step_grows)) as (new & Hlog & Hc & _).
    exists new. auto.
  - destruct (in_step_so_far _ _ _ Hrp Hg) as (new & Hlog & Hc & Hfree).
    exists new. split; [exact Hlog|]. split; [exact Hc|].
    intros Hquiet. apply Hfree.
    destruct Hend as [Hs|[(_ & Hk & _) _]]; [|exact Hk].
    apply stopped_true in Hs as (-> & e & He).
    destruct Hquiet as [Hq|Hq]; [discriminate|congruence].
  - destruct (drain_done false m _ _ Hrp) as (Hc & Hq & _).
    destruct (in_step_so_far m
                (fst (drain false
                        (fst (run_pool strict sched m (Running <$> cs)))
                        (snd (run_pool strict sched m (Running <$> cs)))))
                (snd (drain false
                        (fst (run_pool strict sched m (Running <$> cs)))
                        (snd (run_pool strict sched m (Running <$> cs))))))
      as (new & Hlog & _ & Hfree).
    + left. split; assumption.
    + eapply pool_grows_trans; [exact Hg|apply drain_grows].
    + exists new. split; [exact Hlog|]. apply Hfree.
      destruct Hc as (_ & Hk & _). exact Hk.
Qed.

(** C10.  [initialize] stores the adapter and both
    peripherals before the claim is answered: they are on the master
    whatever the answer.  After a failed claim the adapter stored is the
    one given, in the state the exchange left it in, the lock is free, the
    clock untouched and the flag false, as it was before the call: the
    flag does not tell the failed master from the one before the call, the
    stored references do. *)
Theorem failed_initialize_keeps_references (h : USBHandler)
    (bv ca : Peripheral) (bus_reset : bool) (sched : list nat) (m : Master) :
  lock m = false -> initialized m = false ->
  (is_Some (usb_handler (fst (initialize h bv ca bus_reset sched m))) /\
   bill_validator (fst (initialize h bv ca bus_reset sched m)) = Some bv /\
   coin_acceptor (fst (initialize h bv ca bus_reset sched m)) = Some ca) /\
  (mastership_reply h <> Returned "m,ACK" ->
   usb_handler (fst (initialize h bv ca bus_reset sched m))
   = Some (claimed_adapter h) /\
   initialized (fst (initialize h bv ca bus_reset sched m)) = false /\
   initialized (fst (initialize h bv ca bus_reset sched m)) = initialized m /\
   lock (fst (initialize h bv ca bus_reset sched m)) = lock m /\
   clock (fst (initialize h bv ca bus_reset sched m)) = clock m /\
   (exists e, snd (initialize h bv ca bus_reset sched m) = Some (Raised e)) /\
   (usb_handler m = None ->
    usb_handler (fst (initialize h bv ca bus_reset sched m))
    <> usb_handler m)).
Proof.
  intros Hl Hi.
  destruct (initialize_fields h bv ca bus_reset sched m Hl)
    as (Hf & Hk & Hu & Hb & Hc).
  split; [auto|]. intros Hne.
  assert (Ha : acknowledged (mastership_reply h) = false).
  { destruct (acknowledged (mastership_reply h)) eqn:Ha; auto.
    apply acknowledged_true in Ha. contradiction. }
  rewrite Ha, Hi in Hf. simpl in Hf.
  assert (Hcase : exists e,
    initialize h bv ca bus_reset sched m
    = (after_claim h bv ca m, Some (Raised e))).
  { rewrite (initialize_cases h bv ca bus_reset sched m Hl).
    destruct (mastership_reply h) as [s|e]; simpl in Ha; [|eauto].
    rewrite Ha. eauto. }
  destruct Hcase as [e Hcase]. rewrite Hcase. simpl.
  repeat split; eauto. intros Hn. rewrite Hn. discriminate.
Qed.

(** * Further properties *)

(** ** The methods on a master that is not established *)

Lemma enable_unestablished (sched : list nat) (m : Master) :
  initialized m = false -> enable sched m = (m, Some (Raised AssertionError)).
Proof.
  intros Hi. unfold enable, mbind, coroutine_bind, assert_initialized.
  rewrite Hi. reflexivity.
Qed.

Lemma disable_unestablished (sched : list nat) (m : Master) :
  initialized m = false ->
  disable sched m = (m, Some (Raised AssertionError)).
Proof.
  intros Hi. unfold disable, mbind, coroutine_bind, assert_initialized.
  rewrite Hi. reflexivity.
Qed.

Lemma status_unestablished (sched : list nat) (m : Master) :
  initialized m = false -> status sched m = (m, Some (Raised AssertionError)).
Proof.
  intros Hi. unfold status, mbind, coroutine_bind, assert_initialized.
  rewrite Hi. reflexivity.
Qed.

Lemma run_unestablished (sched : list nat) (m : Master) :
  initialized m = false -> run sched m = (m, Some (Raised AssertionError)).
Proof.
  intros Hi. unfold run, mbind, coroutine_bind, assert_initialized.
  rewrite Hi. reflexivity.
Qed.

Lemma send_unestablished (who : caller) (message : string) (m : Master) :
  initialized m = false ->
  send who message m = (m, Some (Raised AssertionError)).
Proof.
  intros Hi. unfold send, mbind, coroutine_bind, assert_initialized.
  rewrite Hi. reflexivity.
Qed.

Lemma sendread_unestablished (who : caller) (message prefix : string)
    (m : Master) :
  initialized m = false ->
  sendread who message prefix m = (m, Some (Raised AssertionError)).
Proof.
  intros Hi. unfold sendread, mbind, coroutine_bind, assert_initialized.
  rewrite Hi. reflexivity.
Qed.

(** ** What a gather leaves *)

Lemma exchanges_app (l1 l2 : list entry) :
  exchanges (l1 ++ l2) = exchanges l1 ++ exchanges l2.
Proof. unfold exchanges. rewrite fmap_app, filter_app. reflexivity. Qed.

Lemma exchanges_on_channel (l : list entry) :
  Forall on_channel (what <$> l) -> exchanges l = what <$> l.
Proof.
  unfold exchanges. induction (what <$> l) as [|e es IH]; intros H; auto.
  inversion H as [|? ? He Hes]; subst.
  rewrite filter_cons_True, IH; auto.
  destruct e; simpl in *; auto; contradiction.
Qed.

Lemma quiet_nil : quiet [].
Proof. intros j t Hj. rewrite lookup_nil in Hj. discriminate. Qed.

Lemma gather_answers (return_exceptions : bool) (sched : list nat)
    (cs : list pcode) (m : Master) :
  lock m = false ->
  answers (snd (gather return_exceptions sched cs m)) = true.
Proof.
  intros Hl. destruct return_exceptions.
  - destruct (gather_isolated sched cs m Hl) as (os & Hr & _).
    rewrite Hr. reflexivity.
  - destruct (gather_strict sched cs m Hl)
      as [_ [(i & c & e & _ & _ & _ & _ & Hr & _)|(vs & _ & _ & Hr & _)]];
      rewrite Hr; reflexivity.
Qed.

Lemma gather_isolated_loop (sched : list nat) (cs : list pcode)
    (m : Master) :
  loop (fst (gather true sched cs m)) = loop m.
Proof.
  unfold gather. simpl negb.
  pose proof (run_pool_loop false sched m (Running <$> cs)) as H.
  destruct (run_pool false sched m (Running <$> cs)) as [m' ts]. exact H.
Qed.

(** When a gather comes back, from a free lock and a quiet event loop,
    the coroutines it has left in the event loop are in step with the
    master: the lock is held exactly when one of them is in an exchange. *)
Lemma gather_landing (return_exceptions : bool) (sched : list nat)
    (cs : list pcode) (m : Master) :
  lock m = false -> loop m = [] ->
  in_step m (fst (gather return_exceptions sched cs m))
    (loop (fst (gather return_exceptions sched cs m))).
Proof.
  intros Hl Hq. destruct return_exceptions.
  - destruct (gather_isolated sched cs m Hl) as (os & _ & _ & Hc).
    rewrite gather_isolated_loop, Hq. left. split; [exact Hc|].
    apply quiet_nil.
  - destruct (gather_strict sched cs m Hl)
      as [Hin [(i & c & e & _ & _ & _ & _ & _ & Hloop)
              |(vs & _ & _ & _ & Hc & Hfst)]].
    + rewrite Hloop. exact Hin.
    + rewrite Hfst at 2. rewrite run_pool_loop, Hq.
      left. split; [exact Hc|apply quiet_nil].
Qed.

(** When the coroutines left in the event loop have ended the lock is
    free. *)
Lemma quiesce_in_step (m0 m : Master) :
  in_step m0 m (loop m) -> channel_state m0 (quiesce m) None.
Proof.
  intros H. destruct (drain_done false m0 m (loop m) H) as (Hc & _).
  exact Hc.
Qed.

(** From an established master with the lock free and a quiet event loop,
    a gather and then the end of the coroutines it left behind leave the
    lock free and the attributes as they were, but for the adapter's
    state; what is written are whole exchanges of the coroutines, stamped
    as established. *)
Lemma gather_sound (return_exceptions : bool) (sched : list nat)
    (cs : list pcode) (m : Master) :
  initialized m = true -> lock m = false -> loop m = [] ->
  lock (quiesce (fst (gather return_exceptions sched cs m))) = false /\
  initialized (quiesce (fst (gather return_exceptions sched cs m))) = true /\
  clock (quiesce (fst (gather return_exceptions sched cs m))) = clock m /\
  bill_validator (quiesce (fst (gather return_exceptions sched cs m)))
  = bill_validator m /\
  coin_acceptor (quiesce (fst (gather return_exceptions sched cs m)))
  = coin_acceptor m /\
  (is_Some (usb_handler m) ->
   is_Some (usb_handler
              (quiesce (fst (gather return_exceptions sched cs m))))) /\
  answers (snd (gather return_exceptions sched cs m)) = true /\
  exists new,
    log (quiesce (fst (gather return_exceptions sched cs m)))
    = log m ++ new /\
    Forall (written_at (clock m) true child_exchange) new /\
    cycles (what <$> new).
Proof.
  intros Hi Hl Hq.
  pose proof (gather_landing return_exceptions sched cs m Hl Hq) as Hin.
  destruct (quiesce_in_step m _ Hin) as ((new' & Hlog' & Hs) & Hk & _).
  pose proof (pool_grows_trans _ _ _
                (gather_grows return_exceptions sched cs m)
                (quiesce_grows _)) as Hg.
  destruct Hg as (Hi' & Hc & Hb & Hca & Hu & new & Hlog & Hnew).
  pose proof (gather_answers return_exceptions sched cs m Hl) as Ha.
  repeat split; auto; try congruence.
  exists new. split; [exact Hlog|].
  unfold by_children in Hnew. rewrite Hi in Hnew. split; [exact Hnew|].
  pose proof (pool_events_on_channel _ _ _ Hnew) as Hch.
  rewrite (grown_log_unique _ _ _ _ Hlog Hlog').
  rewrite (grown_log_unique _ _ _ _ Hlog Hlog') in Hch.
  exact (serial_cycles _ Hch None None Hs).
Qed.

Lemma child_entries_allowed (t : Q) (new : list entry) :
  Forall (written_at t true child_exchange) new -> Forall allowed new.
Proof.
  intros H. eapply Forall_impl; [exact H|].
  intros x (_ & He & _). left. exact He.
Qed.

Lemma child_entries_exchanges (t : Q) (b : bool) (new : list entry) :
  Forall (written_at t b child_exchange) new -> exchanges new = what <$> new.
Proof.
  intros H. apply exchanges_on_channel. eapply pool_events_on_channel, H.
Qed.

(** ** [send] and [sendread] on an established master *)

(** With the session established, the lock free and an adapter assigned,
    [send] hands the message to the adapter once and comes back with what
    the adapter answered, value or exception. *)
Lemma send_established (who : caller) (message : string) (m : Master)
    (h : USBHandler) :
  initialized m = true -> lock m = false -> usb_handler m = Some h ->
  send who message m
  = ({| lock := false;
        initialized := true;
        usb_handler :=
          Some (with_state h
                  (fst (adapter_send h (state h) (to_ascii message))));
        bill_validator := bill_validator m;
        coin_acceptor := coin_acceptor m;
        clock := clock m;
        log := log m ++
               [entry_at (clock m) true (Transmit who message None);
                entry_at (clock m) true
                  (Complete who
                     (seen_of_send
                        (snd (adapter_send h (state h)
                                (to_ascii message)))))];
        loop := loop m |},
     Some (snd (adapter_send h (state h) (to_ascii message)))).
Proof.
  intros Hi Hl Hh.
  unfold send, mbind, coroutine_bind, assert_initialized, with_lock,
    usb_send, complete_send.
  rewrite Hi, Hl. simpl. rewrite Hh. simpl.
  destruct (adapter_send h (state h) (to_ascii message)) as [c r].
  unfold set_lock, set_usb_handler, transmit, record, set_log, entry_at.
  simpl. rewrite Hi. rewrite <- (app_assoc _ [_] [_]). reflexivity.
Qed.

Lemma sendread_established (who : caller) (message prefix : string)
    (m : Master) (h : USBHandler) :
  initialized m = true -> lock m = false -> usb_handler m = Some h ->
  sendread who message prefix m
  = ({| lock := false;
        initialized := true;
        usb_handler :=
          Some (with_state h
                  (fst (adapter_sendread h (state h) (to_ascii message)
                          prefix)));
        bill_validator := bill_validator m;
        coin_acceptor := coin_acceptor m;
        clock := clock m;
        log := log m ++
               [entry_at (clock m) true
                  (Transmit who message (Some prefix));
                entry_at (clock m) true
                  (Complete who
                     (seen_of_sendread
                        (snd (adapter_sendread h (state h)
                                (to_ascii message) prefix))))];
        loop := loop m |},
     Some (snd (adapter_sendread h (state h) (to_ascii message) prefix))).
Proof.
  intros Hi Hl Hh.
  unfold sendread, mbind, coroutine_bind, assert_initialized, with_lock,
    usb_sendread, complete_sendread.
  rewrite Hi, Hl. simpl. rewrite Hh. simpl.
  destruct (adapter_sendread h (state h) (to_ascii message) prefix)
    as [c r].
  unfold set_lock, set_usb_handler, transmit, record, set_log, entry_at.
  simpl. rewrite Hi. rewrite <- (app_assoc _ [_] [_]). reflexivity.
Qed.

(** ** What each call does to a sound master *)

Lemma sound_effect (m m' : Master) : sound m -> effect m m' -> sound m'.
Proof.
  intros (_ & _ & Ha & Hc & _) (Hl' & He' & new & Hlog & Hn & Hcn & Hq).
  split; [exact Hl'|]. split; [exact He'|].
  split; [rewrite Hlog; apply Forall_app; auto|].
  split; [rewrite Hlog, exchanges_app; apply cycles_app; auto|exact Hq].
Qed.

Lemma effect_none (m : Master) : sound m -> effect m m.
Proof.
  intros (Hl & He & _ & _ & Hq). split; [exact Hl|]. split; [exact He|].
  exists []. rewrite app_nil_r. repeat split; auto. constructor.
Qed.

Lemma effect_quiesce (m m' : Master) : effect m m' -> effect m (quiesce m').
Proof.
  intros H. pose proof H as (_ & _ & new & _ & _ & _ & Hq).
  rewrite (quiesce_quiet m' Hq). exact H.
Qed.

Lemma pair_cycles (who : caller) (message : string)
    (expects : option string) (r : reply (option string)) (t : Q) (b : bool) :
  cycles (exchanges [entry_at t b (Transmit who message expects);
                     entry_at t b (Complete who r)]).
Proof. repeat constructor. Qed.

Lemma send_effect (who : caller) (message : string) (m : Master) :
  sound m ->
  effect m (fst (send who message m)) /\
  answers (snd (send who message m)) = true.
Proof.
  intros Hs. destruct (initialized m) eqn:Hi.
  - pose proof Hs as (Hl & He & _ & _ & Hq).
    destruct (He Hi) as ([h Hh] & Hb & Hc).
    rewrite (send_established who message m h Hi Hl Hh). simpl.
    split; [|reflexivity]. split; [reflexivity|].
    split; [intros _; repeat split; simpl; eauto|].
    eexists. split; [reflexivity|]. split; [repeat constructor|].
    split; [apply pair_cycles|exact Hq].
  - rewrite (send_unestablished who message m Hi). simpl.
    split; [apply effect_none, Hs|reflexivity].
Qed.

Lemma sendread_effect (who : caller) (message prefix : string)
    (m : Master) :
  sound m ->
  effect m (fst (sendread who message prefix m)) /\
  answers (snd (sendread who message prefix m)) = true.
Proof.
  intros Hs. destruct (initialized m) eqn:Hi.
  - pose proof Hs as (Hl & He & _ & _ & Hq).
    destruct (He Hi) as ([h Hh] & Hb & Hc).
    rewrite (sendread_established who message prefix m h Hi Hl Hh). simpl.
    split; [|reflexivity]. split; [reflexivity|].
    split; [intros _; repeat split; simpl; eauto|].
    eexists. split; [reflexivity|]. split; [repeat constructor|].
    split; [apply pair_cycles|exact Hq].
  - rewrite (sendread_unestablished who message prefix m Hi). simpl.
    split; [apply effect_none, Hs|reflexivity].
Qed.

(** Both calls of a fan-out, then its gather, then the end of the
    coroutines the gather may have left behind. *)
Lemma fan_out_effect (op : operation) (return_exceptions : bool)
    (sched : list nat) (cs : list pcode) (m : Master) :
  sound m -> initialized m = true ->
  effect m
    (quiesce (fst (gather return_exceptions sched cs (invoked op m)))) /\
  answers (snd (gather return_exceptions sched cs (invoked op m))) = true.
Proof.
  intros (Hl & He & _ & _ & Hq) Hi.
  destruct (He Hi) as (Hu & Hb & Hc).
  destruct (gather_sound return_exceptions sched cs (invoked op m) Hi Hl Hq)
    as (Hl' & Hi' & _ & Hb' & Hc' & Hu' & Ha & new & Hlog & Hnew & Hcyc).
  split; [|exact Ha]. split; [exact Hl'|]. split.
  - intros _. repeat split; [apply Hu', Hu|rewrite Hb'; exact Hb
                            |rewrite Hc'; exact Hc].
  - exists ([entry_at (clock m) true (Invoke 0 op);
             entry_at (clock m) true (Invoke 1 op)] ++ new).
    split; [|split; [|split]].
    + rewrite Hlog. unfold invoked, record, entry_at. simpl. rewrite Hi.
      rewrite <- !app_assoc. reflexivity.
    + apply Forall_app. split; [repeat constructor|].
      eapply child_entries_allowed, Hnew.
    + rewrite exchanges_app.
      rewrite (child_entries_exchanges _ _ _ Hnew). exact Hcyc.
    + reflexivity.
Qed.

Lemma enable_effect (sched : list nat) (m : Master) :
  sound m ->
  effect m (quiesce (fst (enable sched m))) /\
  answers (snd (enable sched m)) = true.
Proof.
  intros Hs. destruct (initialized m) eqn:Hi.
  - pose proof Hs as (_ & He & _ & _).
    destruct (He Hi) as (_ & [bv Hb] & [ca Hc]).
    rewrite (enable_established sched m bv ca Hi Hb Hc).
    apply fan_out_effect; auto.
  - rewrite (enable_unestablished sched m Hi). simpl.
    split; [apply effect_quiesce, effect_none, Hs|reflexivity].
Qed.

Lemma disable_effect (sched : list nat) (m : Master) :
  sound m ->
  effect m (quiesce (fst (disable sched m))) /\
  answers (snd (disable sched m)) = true.
Proof.
  intros Hs. destruct (initialized m) eqn:Hi.
  - pose proof Hs as (_ & He & _ & _).
    destruct (He Hi) as (_ & [bv Hb] & [ca Hc]).
    rewrite (disable_established sched m bv ca Hi Hb Hc).
    apply fan_out_effect; auto.
  - rewrite (disable_unestablished sched m Hi). simpl.
    split; [apply effect_quiesce, effect_none, Hs|reflexivity].
Qed.

Lemma status_effect (sched : list nat) (m : Master) :
  sound m ->
  effect m (quiesce (fst (status sched m))) /\
  answers (snd (status sched m)) = true.
Proof.
  intros Hs. destruct (initialized m) eqn:Hi.
  - pose proof Hs as (_ & He & _ & _).
    destruct (He Hi) as (_ & [bv Hb] & [ca Hc]).
    rewrite (status_established sched m bv ca Hi Hb Hc).
    apply fan_out_effect; auto.
  - rewrite (status_unestablished sched m Hi). simpl.
    split; [apply effect_quiesce, effect_none, Hs|reflexivity].
Qed.

Lemma run_effect (sched : list nat) (m : Master) :
  sound m ->
  effect m (quiesce (fst (run sched m))) /\
  answers (snd (run sched m)) = true.
Proof.
  intros Hs. destruct (initialized m) eqn:Hi.
  - pose proof Hs as (_ & He & _ & _).
    destruct (He Hi) as (_ & [bv Hb] & [ca Hc]).
    rewrite (run_established sched m bv ca Hi Hb Hc).
    pose proof (fan_out_effect OpRun false sched [on_run bv; on_run ca] m
                  Hs Hi) as H.
    destruct (gather false sched _ _) as [m' [[vs|e]|]]; exact H.
  - rewrite (run_unestablished sched m Hi). simpl.
    split; [apply effect_quiesce, effect_none, Hs|reflexivity].
Qed.

Lemma bring_up_sound (bv ca : Peripheral) (bus_reset : bool)
    (sched : list nat) (m : Master) :
  initialized m = true -> lock m = false -> loop m = [] ->
  lock (quiesce (fst (bring_up bv ca bus_reset sched m))) = false /\
  exists pool,
    Forall (written_at (clock m) true child_exchange) pool /\
    cycles (what <$> pool) /\
    log (quiesce (fst (bring_up bv ca bus_reset sched m))) =
    log m
    ++ [entry_at (clock m) true (Invoke 0 (OpInitialize (negb bus_reset)));
        entry_at (clock m) true (Invoke 1 (OpInitialize (negb bus_reset)))]
    ++ pool.
Proof.
  intros Hi Hl Hq.
  destruct (gather_sound false sched
              [on_initialize bv (negb bus_reset);
               on_initialize ca (negb bus_reset)]
              (invoked (OpInitialize (negb bus_reset)) m) Hi Hl Hq)
    as (Hk & _ & _ & _ & _ & _ & _ & pool & Hlog & Hp & Hc).
  unfold bring_up.
  destruct (gather false sched _ _) as [m' [[vs|e]|]]; simpl in *;
    (split; [exact Hk|]); exists pool; (split; [exact Hp|]);
    (split; [exact Hc|]);
    rewrite Hlog; unfold invoked, record, entry_at; simpl; rewrite Hi;
    rewrite <- !app_assoc; reflexivity.
Qed.

Lemma initialize_log_cycles (h : USBHandler) (bv ca : Peripheral)
    (bus_reset : bool) (sched : list nat) (m : Master) :
  lock m = false -> loop m = [] ->
  lock (quiesce (fst (initialize h bv ca bus_reset sched m))) = false /\
  exists pool,
    Forall (written_at (ready_clock bus_reset m) true child_exchange) pool /\
    cycles (what <$> pool) /\
    log (quiesce (fst (initialize h bv ca bus_reset sched m))) =
    log m ++ initialize_entries h bus_reset m pool.
Proof.
  intros Hl Hq. rewrite (initialize_cases h bv ca bus_reset sched m Hl).
  unfold initialize_entries.
  assert (Hnone : forall m1 : Master,
             loop m1 = [] -> lock m1 = false ->
             forall l, log m1 = log m ++ l ->
             lock (quiesce m1) = false /\
             exists pool : list entry,
               Forall (written_at (ready_clock bus_reset m) true
                         child_exchange) pool /\
               cycles (what <$> pool) /\
               log (quiesce m1) = log m ++ l).
  { intros m1 Hq1 Hl1 l Hlog. rewrite (quiesce_quiet m1 Hq1).
    split; [exact Hl1|]. exists [].
    split; [apply List.Forall_nil|]. split; [constructor|exact Hlog]. }
  destruct (mastership_reply h) as [s|e] eqn:Hr;
    unfold acknowledged; cbv beta iota.
  2: { apply Hnone; [exact Hq|reflexivity|]. simpl. rewrite Hr.
       reflexivity. }
  destruct (String.eqb s "m,ACK"); cbv beta iota.
  2: { apply Hnone; [exact Hq|reflexivity|]. simpl. rewrite Hr.
       reflexivity. }
  destruct bus_reset.
  - destruct (reset_reply h) as [[]|e] eqn:Hs; cbv beta iota.
    + destruct (bring_up_sound bv ca true sched (after_settle h bv ca m)
                  eq_refl eq_refl Hq) as (Hk & pool & Hp & Hc & Hlog).
      split; [exact Hk|].
      exists pool. split; [exact Hp|]. split; [exact Hc|].
      rewrite Hlog. simpl. rewrite Hr, Hs. unfold entry_at. simpl.
      rewrite <- !app_assoc. reflexivity.
    + apply Hnone; [exact Hq|reflexivity|]. simpl. rewrite Hr, Hs.
      rewrite <- !app_assoc. reflexivity.
  - destruct (bring_up_sound bv ca false sched
                (set_initialized true (after_claim h bv ca m)) eq_refl
                eq_refl Hq) as (Hk & pool & Hp & Hc & Hlog).
    split; [exact Hk|].
    exists pool. split; [exact Hp|]. split; [exact Hc|].
    rewrite Hlog. simpl. rewrite Hr. rewrite <- !app_assoc. reflexivity.
Qed.

Lemma initialize_answers (h : USBHandler) (bv ca : Peripheral)
    (bus_reset : bool) (sched : list nat) (m : Master) :
  lock m = false ->
  answers (snd (initialize h bv ca bus_reset sched m)) = true.
Proof.
  intros Hl.
  pose proof (initialize_result h bv ca bus_reset sched m Hl) as H.
  destruct (mastership_reply h) as [s|e]; [|rewrite H; reflexivity].
  destruct (String.eqb s "m,ACK"); [|rewrite H; reflexivity].
  destruct H as [H|[(_ & e & _ & H)|(e & H & _)]]; rewrite H; reflexivity.
Qed.

Lemma initialize_entries_allowed (h : USBHandler) (bus_reset : bool)
    (m : Master) (pool : list entry) :
  Forall (written_at (ready_clock bus_reset m) true child_exchange) pool ->
  Forall allowed (initialize_entries h bus_reset m pool).
Proof.
  intros Hp. apply child_entries_allowed in Hp.
  unfold initialize_entries, claim_text.
  apply Forall_app. split.
  - apply List.Forall_cons; [right; left; reflexivity|].
    apply List.Forall_cons; [right; right; eexists; reflexivity|].
    apply List.Forall_nil.
  - destruct (acknowledged (mastership_reply h)); [|apply List.Forall_nil].
    destruct bus_reset.
    + apply Forall_app. split; [repeat constructor|].
      destruct (reset_reply h); [|apply List.Forall_nil].
      apply Forall_app. split; [repeat constructor|exact Hp].
    + apply Forall_app. split; [repeat constructor|exact Hp].
Qed.

Lemma initialize_entries_cycles (h : USBHandler) (bus_reset : bool)
    (m : Master) (pool : list entry) :
  Forall (written_at (ready_clock bus_reset m) true child_exchange) pool ->
  cycles (what <$> pool) ->
  cycles (exchanges (initialize_entries h bus_reset m pool)).
Proof.
  intros Hp Hc. apply child_entries_exchanges in Hp.
  unfold initialize_entries. rewrite exchanges_app.
  apply cycles_app; [apply pair_cycles|].
  destruct (acknowledged (mastership_reply h)); [|constructor].
  destruct bus_reset.
  - rewrite exchanges_app. apply cycles_app; [apply pair_cycles|].
    destruct (reset_reply h); [|constructor].
    rewrite exchanges_app, Hp. exact Hc.
  - rewrite exchanges_app, Hp. exact Hc.
Qed.

Lemma initialize_effect (h : USBHandler) (bv ca : Peripheral)
    (bus_reset : bool) (sched : list nat) (m : Master) :
  sound m ->
  effect m (quiesce (fst (initialize h bv ca bus_reset sched m))) /\
  answers (snd (initialize h bv ca bus_reset sched m)) = true.
Proof.
  intros (Hl & _ & _ & _ & Hq).
  split; [|apply initialize_answers, Hl].
  destruct (initialize_fields h bv ca bus_reset sched m Hl)
    as (_ & _ & Hu & Hb & Hc).
  destruct (quiesce_grows (fst (initialize h bv ca bus_reset sched m)))
    as (_ & _ & Hb' & Hc' & Hu' & _).
  destruct (initialize_log_cycles h bv ca bus_reset sched m Hl Hq)
    as (Hl' & pool & Hp & Hcyc & Hlog).
  split; [exact Hl'|]. split.
  - intros _. repeat split; [exact (Hu' Hu)|rewrite Hb', Hb; eauto
                            |rewrite Hc', Hc; eauto].
  - eexists. split; [exact Hlog|]. split; [|split].
    + apply initialize_entries_allowed, Hp.
    + apply initialize_entries_cycles; auto.
    + reflexivity.
Qed.

(** Whatever the call, a sound master stays sound and the call comes
    back. *)
Lemma perform_sound (r : request) (m : Master) :
  sound m -> sound (perform r m) /\ came_back r m = true.
Proof.
  intros Hs.
  assert (H : effect m (perform r m) /\ came_back r m = true).
  { unfold perform.
    destruct r as [h bv ca bus_reset sched|who message|who message pfx
                  |sched|sched|sched|sched]; simpl.
    - apply initialize_effect, Hs.
    - destruct (send_effect who message m Hs) as [He Ha].
      split; [apply effect_quiesce, He|exact Ha].
    - destruct (sendread_effect who message pfx m Hs) as [He Ha].
      split; [apply effect_quiesce, He|exact Ha].
    - apply enable_effect, Hs.
    - apply disable_effect, Hs.
    - apply status_effect, Hs.
    - apply run_effect, Hs. }
  destruct H as [He Ha]. split; [|exact Ha].
  eapply sound_effect; eauto.
Qed.

Lemma sound_new : sound Master_init.
Proof. repeat split; try discriminate; constructor. Qed.

Lemma perform_all_sound (rs : list request) (m : Master) :
  sound m -> sound (perform_all rs m).
Proof.
  revert m. induction rs as [|r rs IH]; intros m Hs; simpl; auto.
  apply IH, perform_sound, Hs.
Qed.

(** ** The moment a call comes back *)

Lemma cycles_so_far_app (l1 l2 : list event) :
  cycles l1 -> cycles_so_far l2 -> cycles_so_far (l1 ++ l2).
Proof.
  intros H1 [H2|(l' & w & message & expects & -> & H2)].
  - left. apply cycles_app; assumption.
  - right. exists (l1 ++ l'), w, message, expects.
    split; [apply app_assoc|apply cycles_app; assumption].
Qed.

(** A gather from an established master with the lock free and a quiet
    event loop: when it comes back, what its coroutines have written are
    whole exchanges, with at most one more under way. *)
Lemma gather_so_far (return_exceptions : bool) (sched : list nat)
    (cs : list pcode) (m : Master) :
  initialized m = true -> lock m = false -> loop m = [] ->
  exists new,
    log (fst (gather return_exceptions sched cs m)) = log m ++ new /\
    Forall (written_at (clock m) true child_exchange) new /\
    cycles_so_far (what <$> new).
Proof.
  intros Hi Hl Hq.
  pose proof (gather_grows return_exceptions sched cs m) as Hg.
  destruct (in_step_so_far _ _ _
              (gather_landing return_exceptions sched cs m Hl Hq) Hg)
    as (new & Hlog & Hc & _).
  destruct Hg as (_ & _ & _ & _ & _ & new' & Hlog' & Hnew).
  rewrite (grown_log_unique _ _ _ _ Hlog' Hlog) in Hnew.
  unfold by_children in Hnew. rewrite Hi in Hnew.
  exists new. auto.
Qed.

Lemma fan_out_so_far (op : operation) (return_exceptions : bool)
    (sched : list nat) (cs : list pcode) (m : Master) :
  initialized m = true -> lock m = false -> loop m = [] ->
  exists new,
    log (fst (gather return_exceptions sched cs (invoked op m)))
    = log m ++ new /\
    cycles_so_far (exchanges new).
Proof.
  intros Hi Hl Hq.
  destruct (gather_so_far return_exceptions sched cs (invoked op m) Hi Hl Hq)
    as (new & Hlog & Hnew & Hc).
  exists ([entry_at (clock m) true (Invoke 0 op);
           entry_at (clock m) true (Invoke 1 op)] ++ new).
  split.
  - rewrite Hlog. unfold invoked, record, entry_at. simpl. rewrite Hi.
    rewrite <- !app_assoc. reflexivity.
  - rewrite exchanges_app, (child_entries_exchanges _ _ _ Hnew). exact Hc.
Qed.

Lemma bring_up_so_far (bv ca : Peripheral) (bus_reset : bool)
    (sched : list nat) (m : Master) :
  initialized m = true -> lock m = false -> loop m = [] ->
  exists pool,
    Forall (written_at (clock m) true child_exchange) pool /\
    cycles_so_far (what <$> pool) /\
    log (fst (bring_up bv ca bus_reset sched m)) =
    log m
    ++ [entry_at (clock m) true (Invoke 0 (OpInitialize (negb bus_reset)));
        entry_at (clock m) true (Invoke 1 (OpInitialize (negb bus_reset)))]
    ++ pool.
Proof.
  intros Hi Hl Hq.
  destruct (gather_so_far false sched
              [on_initialize bv (negb bus_reset);
               on_initialize ca (negb bus_reset)]
              (invoked (OpInitialize (negb bus_reset)) m) Hi Hl Hq)
    as (pool & Hlog & Hp & Hc).
  exists pool. split; [exact Hp|]. split; [exact Hc|].
  unfold bring_up.
  destruct (gather false sched _ _) as [m' [[vs|e]|]]; simpl in *;
    rewrite Hlog; unfold invoked, record, entry_at; simpl; rewrite Hi;
    rewrite <- !app_assoc; reflexivity.
Qed.

Lemma initialize_entries_so_far (h : USBHandler) (bus_reset : bool)
    (m : Master) (pool : list entry) :
  Forall (written_at (ready_clock bus_reset m) true child_exchange) pool ->
  cycles_so_far (what <$> pool) ->
  cycles_so_far (exchanges (initialize_entries h bus_reset m pool)).
Proof.
  intros Hp Hc. apply child_entries_exchanges in Hp.
  unfold initialize_entries. rewrite exchanges_app.
  apply cycles_so_far_app; [apply pair_cycles|].
  destruct (acknowledged (mastership_reply h)); [|left; constructor].
  destruct bus_reset.
  - rewrite exchanges_app. apply cycles_so_far_app; [apply pair_cycles|].
    destruct (reset_reply h); [|left; constructor].
    rewrite exchanges_app, Hp. exact Hc.
  - rewrite exchanges_app, Hp. exact Hc.
Qed.

Lemma initialize_so_far (h : USBHandler) (bv ca : Peripheral)
    (bus_reset : bool) (sched : list nat) (m : Master) :
  lock m = false -> loop m = [] ->
  exists new,
    log (fst (initialize h bv ca bus_reset sched m)) = log m ++ new /\
    cycles_so_far (exchanges new).
Proof.
  intros Hl Hq.
  assert (H : exists pool,
             Forall (written_at (ready_clock bus_reset m) true
                       child_exchange) pool /\
             cycles_so_far (what <$> pool) /\
             log (fst (initialize h bv ca bus_reset sched m)) =
             log m ++ initialize_entries h bus_reset m pool).
  { rewrite (initialize_cases h bv ca bus_reset sched m Hl).
    unfold initialize_entries.
    destruct (mastership_reply h) as [s|e] eqn:Hr; simpl.
    2: { exists []. split; [apply List.Forall_nil|].
         split; [left; constructor|]. rewrite Hr. reflexivity. }
    destruct (String.eqb s "m,ACK"); simpl.
    2: { exists []. split; [apply List.Forall_nil|].
         split; [left; constructor|]. rewrite Hr. reflexivity. }
    destruct bus_reset.
    - destruct (reset_reply h) as [[]|e] eqn:Hs; simpl.
      + destruct (bring_up_so_far bv ca true sched (after_settle h bv ca m)
                    eq_refl eq_refl Hq) as (pool & Hp & Hc & Hlog).
        exists pool. split; [exact Hp|]. split; [exact Hc|].
        rewrite Hlog. simpl. rewrite Hr, Hs. unfold entry_at. simpl.
        rewrite <- !app_assoc. reflexivity.
      + exists []. split; [apply List.Forall_nil|].
        split; [left; constructor|]. rewrite Hr, Hs.
        rewrite <- !app_assoc. reflexivity.
    - destruct (bring_up_so_far bv ca false sched
                  (set_initialized true (after_claim h bv ca m)) eq_refl
                  eq_refl Hq) as (pool & Hp & Hc & Hlog).
      exists pool. split; [exact Hp|]. split; [exact Hc|].
      rewrite Hlog. simpl. rewrite Hr. rewrite <- !app_assoc.
      reflexivity. }
  destruct H as (pool & Hp & Hc & Hlog).
  exists (initialize_entries h bus_reset m pool). split; [exact Hlog|].
  apply initialize_entries_so_far; assumption.
Qed.

(** When a call on a sound master comes back, what it has added to the log
    on the channel are whole exchanges, with at most one more under
    way. *)
Lemma at_return_so_far (r : request) (m : Master) :
  sound m ->
  exists new,
    log (at_return r m) = log m ++ new /\ cycles_so_far (exchanges new).
Proof.
  intros Hs. pose proof Hs as (Hl & He & _ & _ & Hq).
  assert (Hnone : exists new,
             log m = log m ++ new /\ cycles_so_far (exchanges new)).
  { exists []. rewrite app_nil_r. split; [reflexivity|left; constructor]. }
  assert (Hquiet : forall m', effect m m' ->
             exists new,
               log m' = log m ++ new /\ cycles_so_far (exchanges new)).
  { intros m' (_ & _ & new & Hlog & _ & Hc & _). exists new.
    split; [exact Hlog|left; exact Hc]. }
  destruct r as [h bv ca b sched|who message|who message pfx
                 |sched|sched|sched|sched]; simpl.
  - apply initialize_so_far; assumption.
  - apply Hquiet, send_effect, Hs.
  - apply Hquiet, sendread_effect, Hs.
  - destruct (initialized m) eqn:Hi.
    + destruct (He eq_refl) as (_ & [bv Hb] & [ca Hc]).
      rewrite (enable_established sched m bv ca Hi Hb Hc).
      apply fan_out_so_far; assumption.
    + rewrite (enable_unestablished sched m Hi). exact Hnone.
  - destruct (initialized m) eqn:Hi.
    + destruct (He eq_refl) as (_ & [bv Hb] & [ca Hc]).
      rewrite (disable_established sched m bv ca Hi Hb Hc).
      apply fan_out_so_far; assumption.
    + rewrite (disable_unestablished sched m Hi). exact Hnone.
  - destruct (initialized m) eqn:Hi.
    + destruct (He eq_refl) as (_ & [bv Hb] & [ca Hc]).
      rewrite (status_established sched m bv ca Hi Hb Hc).
      apply fan_out_so_far; assumption.
    + rewrite (status_unestablished sched m Hi). exact Hnone.
  - destruct (initialized m) eqn:Hi.
    + destruct (He eq_refl) as (_ & [bv Hb] & [ca Hc]).
      rewrite (run_established sched m bv ca Hi Hb Hc).
      pose proof (fan_out_so_far OpRun false sched [on_run bv; on_run ca] m
                    Hi Hl Hq) as H.
      destruct (gather false sched _ _) as [m' [[vs|e]|]]; exact H.
    + rewrite (run_unestablished sched m Hi). exact Hnone.
Qed.


(** ** Every state the master reaches *)



(** X3.  In every log a new master can have written, an entry written
    while the session was not established belongs to the exchange of the
    claim: it is the request 'M,1' with its line feed, sent by the master
    itself, or the answer to the master.  Nothing else reaches the
    adapter, and no peripheral is called, before the session is
    established. *)
Theorem only_the_claim_before_establishment (rs : list request) (x : entry) :
  x ∈ log (perform_all rs Master_init) ->
  established x = false ->
  what x = Transmit Self ("M,1" +:+ LF) (Some "m") \/
  exists r, what x = Complete Self r.
Proof.
  intros Hx He.
  destruct (perform_all_sound rs Master_init sound_new) as (_ & _ & Ha & _).
  rewrite Forall_forall in Ha. destruct (Ha x Hx) as [H|H]; [congruence|].
  exact H.
Qed.

(** X4.  The methods of a new master are called one after the other,
    each when the event loop is quiet.  Whenever the event loop is quiet
    the requests and answers in the log, of the master itself and of the
    peripherals alike, are whole exchanges one after the other: each
    request is followed at once by the answer to the same caller.  At the
    moment a call comes back, what it has added to the log are whole
    exchanges with at most one more under way: the request of a coroutine
    that a gather which raised has left inside its exchange. *)
Theorem whole_exchanges_between_calls (rs : list request) (r : request) :
  cycles (exchanges (log (perform_all rs Master_init))) /\
  exists new,
    log (at_return r (perform_all rs Master_init))
    = log (perform_all rs Master_init) ++ new /\
    cycles_so_far (exchanges new).
Proof.
  pose proof (perform_all_sound rs Master_init sound_new) as Hs.
  split; [apply Hs|apply at_return_so_far, Hs].
Qed.

(** X5.  [enable], [disable], [status] and [run], called while the
    session is not established, fail with the assertion fault, whatever
    the schedule and whether or not peripherals are assigned, and leave the
    master as it was: no peripheral is called and nothing is written. *)
Theorem fan_out_before_initialize (sched : list nat) (m : Master) :
  initialized m = false ->
  enable sched m = (m, Some (Raised AssertionError)) /\
  disable sched m = (m, Some (Raised AssertionError)) /\
  status sched m = (m, Some (Raised AssertionError)) /\
  run sched m = (m, Some (Raised AssertionError)).
Proof.
  intros Hi. split; [apply enable_unestablished, Hi|].
  split; [apply disable_unestablished, Hi|].
  split; [apply status_unestablished, Hi|apply run_unestablished, Hi].
Qed.

Lemma perform_all_flag (rs : list request) (m : Master) :
  sound m ->
  initialized (perform_all rs m)
  = initialized m || existsb claim_acknowledged rs.
Proof.
  revert m. induction rs as [|r rs IH]; intros m Hs; simpl.
  - rewrite orb_false_r. reflexivity.
  - fold (perform_all rs (perform r m)).
    rewrite (IH _ (proj1 (perform_sound r m Hs))).
    rewrite orb_assoc. f_equal.
    destruct (is_initialize r) eqn:Hr.
    + destruct r; try discriminate. unfold perform.
      rewrite quiesce_flag. simpl.
      rewrite initialize_flag. destruct Hs as (-> & _). reflexivity.
    + rewrite (perform_flag r m Hr).
      destruct r; try discriminate; simpl; rewrite orb_false_r;
        reflexivity.
Qed.

(** X6.  After any calls on a new master, the session is established
    exactly when one of the calls was an [initialize] whose claim the
    adapter acknowledged with 'm,ACK': no other method, and no other
    answer, establishes it, and nothing takes it back, be it a later
    [initialize] that is refused or that fails. *)
Theorem established_by_acknowledged_claim (rs : list request) :
  initialized (perform_all rs Master_init) = existsb claim_acknowledged rs.
Proof. apply (perform_all_flag rs Master_init sound_new). Qed.

Lemma refused_claim (h : USBHandler) (bv ca : Peripheral)
    (bus_reset : bool) (sched : list nat) (m : Master) :
  lock m = false -> mastership_reply h <> Returned "m,ACK" ->
  fst (initialize h bv ca bus_reset sched m) = after_claim h bv ca m /\
  exists e, snd (initialize h bv ca bus_reset sched m) = Some (Raised e).
Proof.
  intros Hl Hn. rewrite (initialize_cases h bv ca bus_reset sched m Hl).
  destruct (mastership_reply h) as [s|e]; [|eauto].
  destruct (String.eqb s "m,ACK") eqn:Hs; [|eauto].
  apply String.eqb_eq in Hs. congruence.
Qed.

(** X7.  [initialize] called again on an established master, with the
    lock free, and refused by the adapter (any answer to the claim but
    'm,ACK', or an exception): it raises, but the session stays flagged as
    established, and the adapter and the peripherals of the refused call
    have replaced the former ones.  So the next [send] does not fail on
    the assertion: it goes to the adapter that has just refused the
    claim. *)
Theorem refused_again_stays_established (h : USBHandler)
    (bv ca : Peripheral) (bus_reset : bool) (sched : list nat)
    (m : Master) :
  lock m = false -> initialized m = true ->
  mastership_reply h <> Returned "m,ACK" ->
  (exists e, snd (initialize h bv ca bus_reset sched m) = Some (Raised e)) /\
  initialized (fst (initialize h bv ca bus_reset sched m)) = true /\
  usb_handler (fst (initialize h bv ca bus_reset sched m))
  = Some (claimed_adapter h) /\
  bill_validator (fst (initialize h bv ca bus_reset sched m)) = Some bv /\
  coin_acceptor (fst (initialize h bv ca bus_reset sched m)) = Some ca /\
  (forall who message,
      snd (send who message (fst (initialize h bv ca bus_reset sched m)))
      = Some (snd (adapter_send h (state (claimed_adapter h))
                     (to_ascii message)))).
Proof.
  intros Hl Hi Hn.
  destruct (refused_claim h bv ca bus_reset sched m Hl Hn) as [-> He].
  split; [exact He|]. simpl. repeat split; auto.
  intros who message.
  rewrite (send_established who message (after_claim h bv ca m)
             (claimed_adapter h) Hi eq_refl eq_refl).
  reflexivity.
Qed.

(** X8.  [initialize] with [bus_reset], from a free lock, when the claim
    is acknowledged and the adapter raises on the reset: [initialize]
    raises that exception and stops there.  The log holds the two
    exchanges and nothing more, no sleep and no call of a peripheral; the
    clock has not moved; the lock is free; and the session is established
    all the same, although [initialize] has failed. *)
Theorem failed_reset_aborts (h : USBHandler) (bv ca : Peripheral)
    (sched : list nat) (m : Master) (e : exn) :
  lock m = false ->
  mastership_reply h = Returned "m,ACK" ->
  reset_reply h = Raised e ->
  snd (initialize h bv ca true sched m) = Some (Raised e) /\
  events (fst (initialize h bv ca true sched m))
  = events m ++ [Transmit Self ("M,1" +:+ LF) (Some "m");
                 Complete Self (Returned (Some "m,ACK"));
                 Transmit Self ("R,RESET" +:+ LF) None;
                 Complete Self (Raised e)] /\
  clock (fst (initialize h bv ca true sched m)) = clock m /\
  lock (fst (initialize h bv ca true sched m)) = false /\
  initialized (fst (initialize h bv ca true sched m)) = true /\
  usb_handler (fst (initialize h bv ca true sched m))
  = Some (reset_adapter h).
Proof.
  intros Hl Ha Hr. rewrite (initialize_cases h bv ca true sched m Hl).
  rewrite Ha. simpl. rewrite Hr. simpl. repeat split; auto.
  unfold events. simpl. rewrite Ha, Hr. rewrite !fmap_app.
  rewrite <- app_assoc. reflexivity.
Qed.








(** ** The adapter's side of the log *)

Lemma with_state_id (h : USBHandler) : with_state h (state h) = h.
Proof. destruct h; reflexivity. Qed.

Lemma replay_app (h : USBHandler) (s : adapter_state h)
    (r1 r2 : list request_on_channel) :
  replay h s (r1 ++ r2)
  = (fst (replay h s r1) ++ fst (replay h (snd (replay h s r1)) r2),
     snd (replay h (snd (replay h s r1)) r2)).
Proof.
  revert s. induction r1 as [|[[w message] expects] r1 IH]; intros s; simpl.
  - destruct (replay h s r2); reflexivity.
  - rewrite IH. reflexivity.
Qed.

Lemma requests_replay (h : USBHandler) (s : adapter_state h)
    (reqs : list request_on_channel) :
  requests (fst (replay h s reqs)) = reqs.
Proof.
  revert s. induction reqs as [|[[w message] expects] reqs IH]; intros s;
    [reflexivity|].
  simpl. unfold requests in *. simpl. rewrite IH. reflexivity.
Qed.

Lemma replay_with_state (h : USBHandler) (s0 s : adapter_state h)
    (reqs : list request_on_channel) :
  replay (with_state h s0) s reqs = replay h s reqs.
Proof.
  revert s. induction reqs as [|[[w message] expects] reqs IH]; intros s;
    [reflexivity|].
  simpl. rewrite IH. destruct expects; reflexivity.
Qed.

Lemma tuned_nil (h : USBHandler) : tuned h [] (state h).
Proof. exists []. reflexivity. Qed.

Lemma tuned_exchange (h : USBHandler) (l : list event)
    (s : adapter_state h) (who : caller) (message : string)
    (expects : option string) :
  tuned h l s ->
  tuned h (l ++ [Transmit who message expects;
                 Complete who (snd (adapter_answer h s message expects))])
    (fst (adapter_answer h s message expects)).
Proof.
  intros [reqs Hr]. exists (reqs ++ [(who, message, expects)]).
  rewrite replay_app, Hr. reflexivity.
Qed.

Lemma tuned_app (h : USBHandler) (l1 l2 : list event)
    (s1 s2 : adapter_state h) :
  tuned h l1 s1 -> tuned (with_state h s1) l2 s2 -> tuned h (l1 ++ l2) s2.
Proof.
  intros [r1 H1] [r2 H2]. exists (r1 ++ r2).
  rewrite replay_with_state in H2. simpl in H2.
  rewrite replay_app, H1. simpl. rewrite H2. reflexivity.
Qed.

Lemma tuned_replay (h : USBHandler) (l : list event)
    (s : adapter_state h) :
  tuned h l s -> replay h (state h) (requests l) = (l, s).
Proof.
  intros [reqs Hr].
  assert (Hl : l = fst (replay h (state h) reqs)) by (rewrite Hr; auto).
  rewrite Hl at 1. rewrite requests_replay. exact Hr.
Qed.

Lemma in_tune_start (h : USBHandler) (m : Master) :
  usb_handler m = Some h -> in_tune h m m.
Proof.
  intros Hh. exists [], (state h). rewrite app_nil_r, with_state_id.
  split; [reflexivity|]. split; [exact Hh|apply tuned_nil].
Qed.

Lemma in_tune_same (h : USBHandler) (m0 m m' : Master) :
  log m' = log m -> usb_handler m' = usb_handler m ->
  in_tune h m0 m -> in_tune h m0 m'.
Proof.
  intros Hl Hh (new & s & Hlog & Hu & Ht). exists new, s.
  rewrite Hl, Hh. auto.
Qed.

Lemma in_tune_record (h : USBHandler) (m0 m : Master) (e : event) :
  is_channel e = false -> in_tune h m0 m -> in_tune h m0 (record e m).
Proof.
  intros He (new & s & Hlog & Hu & Ht).
  exists (new ++ [entry_at (clock m) (initialized m) e]), s.
  split; [|split; [exact Hu|]].
  - unfold record, entry_at. simpl. rewrite Hlog, app_assoc. reflexivity.
  - rewrite exchanges_app. unfold exchanges at 2. simpl.
    rewrite filter_cons_False by (rewrite He; discriminate).
    rewrite filter_nil, app_nil_r. exact Ht.
Qed.

Lemma in_tune_trans (h : USBHandler) (m0 m1 m2 : Master) :
  in_tune h m0 m1 ->
  (forall s1, usb_handler m1 = Some (with_state h s1) ->
              in_tune (with_state h s1) m1 m2) ->
  in_tune h m0 m2.
Proof.
  intros (new1 & s1 & Hlog1 & Hu1 & Ht1) H.
  destruct (H s1 Hu1) as (new2 & s2 & Hlog2 & Hu2 & Ht2).
  exists (new1 ++ new2), s2. split; [|split; [exact Hu2|]].
  - rewrite Hlog2, Hlog1, app_assoc. reflexivity.
  - rewrite exchanges_app. eapply tuned_app; eauto.
Qed.

(** A caller opens an exchange, and the adapter answers it. *)
Lemma open_exchange (h : USBHandler) (m0 m : Master) (who : caller)
    (message : string) (expects : option string) :
  in_tune h m0 m ->
  in_tune_open h m0 (transmit who message expects (set_lock true m))
    who message expects.
Proof.
  intros (new & s & Hlog & Hu & Ht).
  exists (new ++ [entry_at (clock m) (initialized m)
                    (Transmit who message expects)]), s, (exchanges new).
  split; [|split; [exact Hu|split; [|exact Ht]]].
  - unfold transmit, record, entry_at. simpl.
    rewrite Hlog, app_assoc. reflexivity.
  - rewrite exchanges_app. reflexivity.
Qed.

Lemma close_send (h : USBHandler) (m0 m : Master) (who : caller)
    (message : string) :
  in_tune_open h m0 m who message None ->
  in_tune h m0 (set_lock false (fst (complete_send who message m))).
Proof.
  intros (new & s & l & Hlog & Hu & Hx & Ht).
  unfold complete_send. rewrite Hu. simpl.
  pose proof (tuned_exchange h l s who message None Ht) as Ht'.
  simpl in Ht'.
  destruct (adapter_send h s (to_ascii message)) as [c r]. simpl in *.
  exists (new ++ [entry_at (clock m) (initialized m)
                    (Complete who (seen_of_send r))]), c.
  split; [|split; [reflexivity|]].
  - unfold record, entry_at. simpl. rewrite Hlog, app_assoc. reflexivity.
  - rewrite exchanges_app, Hx. rewrite <- app_assoc. exact Ht'.
Qed.

Lemma close_sendread (h : USBHandler) (m0 m : Master) (who : caller)
    (message prefix : string) :
  in_tune_open h m0 m who message (Some prefix) ->
  in_tune h m0
    (set_lock false (fst (complete_sendread who message prefix m))).
Proof.
  intros (new & s & l & Hlog & Hu & Hx & Ht).
  unfold complete_sendread. rewrite Hu. simpl.
  pose proof (tuned_exchange h l s who message (Some prefix) Ht) as Ht'.
  simpl in Ht'.
  destruct (adapter_sendread h s (to_ascii message) prefix) as [c r].
  simpl in *.
  exists (new ++ [entry_at (clock m) (initialized m)
                    (Complete who (seen_of_sendread r))]), c.
  split; [|split; [reflexivity|]].
  - unfold record, entry_at. simpl. rewrite Hlog, app_assoc. reflexivity.
  - rewrite exchanges_app, Hx. rewrite <- app_assoc. exact Ht'.
Qed.

Lemma send_in_tune (h : USBHandler) (m0 m : Master) (who : caller)
    (message : string) :
  lock m = false -> in_tune h m0 m ->
  lock (fst (send who message m)) = false /\
  in_tune h m0 (fst (send who message m)).
Proof.
  intros Hl Hin. unfold send, mbind, coroutine_bind, assert_initialized.
  destruct (initialized m); [|split; auto].
  unfold with_lock. rewrite Hl. unfold usb_send. simpl.
  pose proof Hin as (_ & s & _ & Hu & _). rewrite Hu.
  pose proof (close_send h m0 _ who message
                (open_exchange h m0 m who message None Hin)) as H.
  destruct (complete_send who message _) as [m' r]. simpl in *.
  split; auto.
Qed.

Lemma sendread_in_tune (h : USBHandler) (m0 m : Master) (who : caller)
    (message prefix : string) :
  lock m = false -> in_tune h m0 m ->
  lock (fst (sendread who message prefix m)) = false /\
  in_tune h m0 (fst (sendread who message prefix m)).
Proof.
  intros Hl Hin.
  unfold sendread, mbind, coroutine_bind, assert_initialized.
  destruct (initialized m); [|split; auto].
  unfold with_lock. rewrite Hl. unfold usb_sendread. simpl.
  pose proof Hin as (_ & s & _ & Hu & _). rewrite Hu.
  pose proof (close_sendread h m0 _ who message prefix
                (open_exchange h m0 m who message (Some prefix) Hin)) as H.
  destruct (complete_sendread who message prefix _) as [m' r].
  simpl in *. split; auto.
Qed.

Lemma pending_flying (t : task) (q : string * option string) :
  pending t = Some q -> flying t = true.
Proof. destruct t; simpl; auto; discriminate. Qed.

Lemma attuned_move (h : USBHandler) (m0 m : Master) (ts : list task)
    (i : nat) (t t' : task) :
  attuned h m0 m ts -> ts !! i = Some t -> flying t = false ->
  flying t' = false -> attuned h m0 m (<[i := t']> ts).
Proof.
  intros [(Hl & Hq & Hin)|(Hl & j & tj & message & expects & Hh & Hj
                           & Hp & Hin)] Hi Ht Ht'.
  - left. auto using quiet_insert.
  - right. split; [exact Hl|]. exists j, tj, message, expects.
    assert (Hne : i <> j).
    { intros ->. apply pending_flying in Hp. congruence. }
    split; [apply held_by_insert_other; auto|].
    rewrite list_lookup_insert_ne by auto. auto.
Qed.

Lemma attuned_free (h : USBHandler) (m0 m : Master) (ts : list task) :
  attuned h m0 m ts -> lock m = false -> quiet ts /\ in_tune h m0 m.
Proof. intros [(_ & Hq & Hin)|(Hl & _)] Hf; [auto|congruence]. Qed.

Lemma attuned_flying (h : USBHandler) (m0 m : Master) (ts : list task)
    (i : nat) (t : task) :
  attuned h m0 m ts -> ts !! i = Some t -> flying t = true ->
  held_by i ts /\
  exists message expects,
    pending t = Some (message, expects) /\
    in_tune_open h m0 m (Child i) message expects.
Proof.
  intros [(_ & Hq & _)|(_ & j & tj & message & expects & Hh & Hj & Hp
                        & Hin)] Hi Ht.
  - rewrite (Hq i t Hi) in Ht. discriminate.
  - pose proof (held_by_holder j i t ts Hh Hi Ht) as ->.
    assert (tj = t) as -> by congruence. eauto.
Qed.

Lemma step_task_attuned (h : USBHandler) (m0 m : Master) (ts : list task)
    (i : nat) (t : task) :
  attuned h m0 m ts -> ts !! i = Some t ->
  attuned h m0 (fst (step_task i t m)) (<[i := snd (step_task i t m)]> ts).
Proof.
  intros Hin Hi.
  destruct t as [c|message k|message prefix k|r]; simpl.
  - destruct c as [v|e|k|message k|message prefix k]; simpl;
      try (eapply attuned_move; eauto; fail).
    + destruct (initialized m); simpl;
        [|eapply attuned_move; eauto; fail].
      destruct (lock m) eqn:Hl; simpl;
        [rewrite list_insert_id by auto; auto|].
      destruct (usb_handler m) as [h'|] eqn:Hh; simpl;
        [|eapply attuned_move; eauto; fail].
      destruct (attuned_free _ _ _ _ Hin Hl) as [Hq Ht].
      right. split; [reflexivity|].
      exists i, (InFlightSend message k), message, None.
      split; [eapply quiet_take; eauto|].
      split; [apply list_lookup_insert_eq; eapply lookup_lt_Some; eauto|].
      split; [reflexivity|apply open_exchange, Ht].
    + destruct (initialized m); simpl;
        [|eapply attuned_move; eauto; fail].
      destruct (lock m) eqn:Hl; simpl;
        [rewrite list_insert_id by auto; auto|].
      destruct (usb_handler m) as [h'|] eqn:Hh; simpl;
        [|eapply attuned_move; eauto; fail].
      destruct (attuned_free _ _ _ _ Hin Hl) as [Hq Ht].
      right. split; [reflexivity|].
      exists i, (InFlightSendRead message prefix k), message, (Some prefix).
      split; [eapply quiet_take; eauto|].
      split; [apply list_lookup_insert_eq; eapply lookup_lt_Some; eauto|].
      split; [reflexivity|apply open_exchange, Ht].
  - destruct (attuned_flying _ _ _ _ _ _ Hin Hi eq_refl)
      as (Hh & message' & expects & [= <- <-] & Ho).
    pose proof (close_send _ _ _ _ _ Ho) as Hc.
    destruct (complete_send (Child i) message m) as [m' r]. simpl in *.
    left. split; [reflexivity|]. split; [|exact Hc].
    eapply held_by_release; eauto.
  - destruct (attuned_flying _ _ _ _ _ _ Hin Hi eq_refl)
      as (Hh & message' & expects & [= <- <-] & Ho).
    pose proof (close_sendread _ _ _ _ _ _ Ho) as Hc.
    destruct (complete_sendread (Child i) message prefix m) as [m' r].
    simpl in *.
    left. split; [reflexivity|]. split; [|exact Hc].
    eapply held_by_release; eauto.
  - rewrite list_insert_id by auto. auto.
Qed.

Lemma step_attuned (h : USBHandler) (m0 m : Master) (ts : list task)
    (i : nat) :
  attuned h m0 m ts ->
  attuned h m0 (fst (step i m ts)) (snd (step i m ts)).
Proof.
  intros Hin. unfold step. destruct (ts !! i) as [t|] eqn:Hi; auto.
  pose proof (step_task_attuned _ _ _ _ _ _ Hin Hi) as H.
  destruct (step_task i t m) as [m' t']. exact H.
Qed.

Lemma finish_not_flying (i : nat) (c : pcode) (m : Master) :
  flying (snd (finish i c m)) = false.
Proof.
  revert m.
  induction c as [v|e|k IH|message k IH|message prefix k IH]; intros m;
    simpl; auto.
  - destruct (send (Child i) message m) as [m' [r|]]; simpl; auto.
  - destruct (sendread (Child i) message prefix m) as [m' [r|]]; simpl;
      auto.
Qed.

Lemma finish_in_tune (h : USBHandler) (m0 m : Master) (i : nat)
    (c : pcode) :
  lock m = false -> in_tune h m0 m ->
  lock (fst (finish i c m)) = false /\ in_tune h m0 (fst (finish i c m)).
Proof.
  revert m.
  induction c as [v|e|k IH|message k IH|message prefix k IH];
    intros m Hl Hin; simpl; auto.
  - destruct (send_in_tune h m0 m (Child i) message Hl Hin) as [Hl' Hin'].
    destruct (send (Child i) message m) as [m' [r|]]; simpl in *; auto.
  - destruct (sendread_in_tune h m0 m (Child i) message prefix Hl Hin)
      as [Hl' Hin'].
    destruct (sendread (Child i) message prefix m) as [m' [r|]];
      simpl in *; auto.
Qed.

Lemma finish_at_attuned (h : USBHandler) (m0 m : Master) (ts : list task)
    (i : nat) :
  attuned h m0 m ts ->
  attuned h m0 (fst (finish_at i m ts)) (snd (finish_at i m ts)).
Proof.
  intros Hin. unfold finish_at.
  destruct (ts !! i) as [[c| | |]|] eqn:Hi; auto.
  pose proof (finish_not_flying i c m) as Hf.
  destruct (lock m) eqn:Hl.
  - destruct (finish_locked m i c Hl) as [Hm _].
    destruct (finish i c m) as [m' t']. simpl in *. subst m'.
    eapply attuned_move; eauto.
  - destruct (attuned_free _ _ _ _ Hin Hl) as [Hq Ht].
    destruct (finish_in_tune h m0 m i c Hl Ht) as [Hl' Ht'].
    destruct (finish i c m) as [m' t']. simpl in *.
    left. auto using quiet_insert.
Qed.

Lemma interleave_attuned (h : USBHandler)
    (move : nat -> Master -> list task -> Master * list task)
    (strict : bool) (sched : list nat) (m0 m : Master) (ts : list task) :
  (forall i m1 ts1,
      attuned h m0 m1 ts1 ->
      attuned h m0 (fst (move i m1 ts1)) (snd (move i m1 ts1))) ->
  attuned h m0 m ts ->
  attuned h m0 (fst (interleave move strict sched m ts))
               (snd (interleave move strict sched m ts)).
Proof.
  intros Hmove. revert m ts.
  induction sched as [|i sched IH]; intros m ts Hin; simpl; auto.
  destruct (stopped strict ts); auto.
  pose proof (Hmove i m ts Hin) as H.
  destruct (move i m ts) as [m' ts']. apply IH, H.
Qed.

Lemma settle_attuned (h : USBHandler) (m0 m : Master) (ts : list task) :
  attuned h m0 m ts ->
  attuned h m0 (fst (settle m ts)) (snd (settle m ts)).
Proof.
  intros Hin. unfold settle.
  destruct (list_find _ ts) as [[i t]|]; [apply step_attuned|]; exact Hin.
Qed.

Lemma drain_attuned (h : USBHandler) (strict : bool) (m0 m : Master)
    (ts : list task) :
  attuned h m0 m ts ->
  attuned h m0 (fst (drain strict m ts)) (snd (drain strict m ts)).
Proof.
  intros H1. unfold drain.
  pose proof (settle_attuned h m0 m ts H1) as H2.
  destruct (settle m ts) as [m2 ts2]. simpl in H2.
  apply (interleave_attuned h finish_at strict _ m0 m2 ts2
           (fun i m3 ts3 => finish_at_attuned h m0 m3 ts3 i) H2).
Qed.

(** The pool talks to the adapter the master holds, and to nothing else:
    from a free lock, when the gather is over the log since its start is a
    dialogue with that adapter, with the request of a coroutine left in
    an exchange open. *)
Lemma run_pool_attuned (h : USBHandler) (strict : bool) (sched : list nat)
    (m : Master) (cs : list pcode) :
  lock m = false -> usb_handler m = Some h ->
  attuned h m (fst (run_pool strict sched m (Running <$> cs)))
    (snd (run_pool strict sched m (Running <$> cs))).
Proof.
  intros Hl Hh. unfold run_pool.
  assert (H0 : attuned h m m (Running <$> cs)).
  { left. split; [exact Hl|]. split; [apply quiet_start|].
    apply in_tune_start, Hh. }
  pose proof (interleave_attuned h step strict sched m m (Running <$> cs)
                (fun i m1 ts1 => step_attuned h m m1 ts1 i) H0) as H1.
  destruct (interleave step strict sched m _) as [m1 ts1]. simpl in H1.
  destruct (stopped strict ts1); [exact H1|].
  apply drain_attuned, H1.
Qed.

Lemma gather_attuned (h : USBHandler) (return_exceptions : bool)
    (sched : list nat) (cs : list pcode) (m : Master) :
  lock m = false -> loop m = [] -> usb_handler m = Some h ->
  attuned h m (fst (gather return_exceptions sched cs m))
    (loop (fst (gather return_exceptions sched cs m))).
Proof.
  intros Hl Hq Hh.
  pose proof (gather_landing return_exceptions sched cs m Hl Hq) as Hin.
  revert Hin. unfold gather.
  pose proof (run_pool_attuned h (negb return_exceptions) sched m cs Hl Hh)
    as Ha.
  pose proof (run_pool_loop (negb return_exceptions) sched m
                (Running <$> cs)) as Hloop.
  destruct (run_pool _ sched m _) as [m' ts]. simpl in Ha, Hloop.
  assert (Hfree : in_step m m' (loop m') -> attuned h m m' (loop m')).
  { rewrite Hloop, Hq. intros Hin.
    destruct (in_step_locked _ _ _ Hin) as [_ _].
    - destruct Hin as [[(_ & Hk & _) _]|(i & _ & (t & Ht & _) & _)];
        [exact Hk|].
      rewrite lookup_nil in Ht. discriminate.
    - left.
      assert (Hk : lock m' = false).
      { destruct Hin as [[(_ & Hk & _) _]|(i & _ & (t & Ht & _) & _)];
          [exact Hk|].
        rewrite lookup_nil in Ht. discriminate. }
      split; [exact Hk|]. split; [apply quiet_nil|].
      apply (attuned_free _ _ _ _ Ha Hk). }
  destruct return_exceptions; [exact Hfree|].
  destruct (first_failure ts); [intros _; exact Ha|exact Hfree].
Qed.

(** When the coroutines left in the event loop have ended the log is a
    dialogue with the adapter. *)
Lemma quiesce_in_tune (h : USBHandler) (m0 m1 m : Master) :
  in_step m1 m (loop m) -> attuned h m0 m (loop m) ->
  in_tune h m0 (quiesce m).
Proof.
  intros Hin Ha.
  destruct (quiesce_in_step m1 m Hin) as (_ & Hk & _).
  pose proof (drain_attuned h false m0 m (loop m) Ha) as Hd.
  destruct (attuned_free _ _ _ _ Hd Hk) as [_ (new & s & Hlog & Hu & Ht)].
  exists new, s. auto.
Qed.

Lemma gather_in_tune (h : USBHandler) (return_exceptions : bool)
    (sched : list nat) (cs : list pcode) (m : Master) :
  lock m = false -> loop m = [] -> usb_handler m = Some h ->
  in_tune h m (quiesce (fst (gather return_exceptions sched cs m))).
Proof.
  intros Hl Hq Hh.
  apply (quiesce_in_tune h m m).
  - apply gather_landing; assumption.
  - apply gather_attuned; assumption.
Qed.

Lemma fan_out_in_tune (h : USBHandler) (op : operation)
    (return_exceptions : bool) (sched : list nat) (cs : list pcode)
    (m0 m : Master) :
  lock m = false -> loop m = [] -> in_tune h m0 m ->
  in_tune h m0
    (quiesce (fst (gather return_exceptions sched cs (invoked op m)))).
Proof.
  intros Hl Hq Hin.
  apply (in_tune_trans h m0 (invoked op m)).
  - unfold invoked. apply in_tune_record; [reflexivity|].
    apply in_tune_record; [reflexivity|exact Hin].
  - intros s1 Hu. apply gather_in_tune; [exact Hl|exact Hq|exact Hu].
Qed.

Lemma after_claim_in_tune (h : USBHandler) (bv ca : Peripheral)
    (m : Master) :
  in_tune h m (after_claim h bv ca m).
Proof.
  eexists [_; _], _. split; [reflexivity|]. split; [reflexivity|].
  exact (tuned_exchange h [] (state h) Self claim_text (Some "m")
           (tuned_nil h)).
Qed.

Lemma after_reset_in_tune (h : USBHandler) (bv ca : Peripheral)
    (m : Master) :
  in_tune h m (after_reset h bv ca m).
Proof.
  eexists [_; _; _; _], _. split; [|split; [reflexivity|]].
  - simpl. rewrite <- app_assoc. reflexivity.
  - exact (tuned_exchange h _ _ Self reset_text None
             (tuned_exchange h [] (state h) Self claim_text (Some "m")
                (tuned_nil h))).
Qed.

Lemma bring_up_in_tune (h : USBHandler) (bv ca : Peripheral)
    (bus_reset : bool) (sched : list nat) (m0 m : Master) :
  lock m = false -> loop m = [] -> in_tune h m0 m ->
  in_tune h m0 (quiesce (fst (bring_up bv ca bus_reset sched m))).
Proof.
  intros Hl Hq Hin. unfold bring_up.
  pose proof (fan_out_in_tune h (OpInitialize (negb bus_reset)) false sched
                [on_initialize bv (negb bus_reset);
                 on_initialize ca (negb bus_reset)] m0 m Hl Hq Hin) as H.
  destruct (gather false sched _ _) as [m' [[vs|e]|]]; exact H.
Qed.

Lemma initialize_in_tune (h : USBHandler) (bv ca : Peripheral)
    (bus_reset : bool) (sched : list nat) (m : Master) :
  lock m = false -> loop m = [] ->
  in_tune h m (quiesce (fst (initialize h bv ca bus_reset sched m))).
Proof.
  intros Hl Hq. rewrite (initialize_cases h bv ca bus_reset sched m Hl).
  assert (Hc : in_tune h m (quiesce (after_claim h bv ca m))).
  { rewrite quiesce_quiet by exact Hq. apply after_claim_in_tune. }
  destruct (mastership_reply h) as [s|e]; [|exact Hc].
  destruct (String.eqb s "m,ACK"); [|exact Hc].
  destruct bus_reset; [destruct (reset_reply h) as [[]|e]|].
  - apply bring_up_in_tune; [reflexivity|exact Hq|].
    unfold after_settle.
    apply (in_tune_same h m
             (record (Sleep settle_delay) (after_reset h bv ca m)));
      [reflexivity|reflexivity|].
    apply in_tune_record; [reflexivity|apply after_reset_in_tune].
  - cbv beta iota. rewrite quiesce_quiet by exact Hq.
    apply after_reset_in_tune.
  - apply bring_up_in_tune; [reflexivity|exact Hq|].
    apply (in_tune_same h m (after_claim h bv ca m));
      [reflexivity|reflexivity|apply after_claim_in_tune].
Qed.

Lemma in_tune_quiesce (h : USBHandler) (m0 m : Master) :
  loop m = [] -> in_tune h m0 m -> in_tune h m0 (quiesce m).
Proof. intros Hq H. rewrite (quiesce_quiet m Hq). exact H. Qed.

Lemma perform_in_tune (r : request) (m : Master) (h : USBHandler) :
  sound m -> adapter_of r m = Some h -> in_tune h m (perform r m).
Proof.
  intros (Hl & He & _ & _ & Hq) Hh. unfold perform.
  assert (Hfan : forall op re sched cs,
             usb_handler m = Some h ->
             in_tune h m
               (quiesce (fst (gather re sched cs (invoked op m))))).
  { intros op re sched cs Hu.
    apply fan_out_in_tune; [exact Hl|exact Hq|apply in_tune_start, Hu]. }
  assert (Hsame : usb_handler m = Some h -> in_tune h m (quiesce m)).
  { intros Hu. apply in_tune_quiesce; [exact Hq|apply in_tune_start, Hu]. }
  destruct r as [h' bv ca b sched|who message|who message pfx
                 |sched|sched|sched|sched]; simpl in *.
  - injection Hh as ->. apply initialize_in_tune; assumption.
  - apply in_tune_quiesce; [rewrite send_loop; exact Hq|].
    apply send_in_tune; [exact Hl|apply in_tune_start, Hh].
  - apply in_tune_quiesce; [rewrite sendread_loop; exact Hq|].
    apply sendread_in_tune; [exact Hl|apply in_tune_start, Hh].
  - destruct (initialized m) eqn:Hi.
    + destruct (He eq_refl) as (_ & [bv Hb] & [ca Hc]).
      rewrite (enable_established sched m bv ca Hi Hb Hc). auto.
    + rewrite (enable_unestablished sched m Hi). auto.
  - destruct (initialized m) eqn:Hi.
    + destruct (He eq_refl) as (_ & [bv Hb] & [ca Hc]).
      rewrite (disable_established sched m bv ca Hi Hb Hc). auto.
    + rewrite (disable_unestablished sched m Hi). auto.
  - destruct (initialized m) eqn:Hi.
    + destruct (He eq_refl) as (_ & [bv Hb] & [ca Hc]).
      rewrite (status_established sched m bv ca Hi Hb Hc). auto.
    + rewrite (status_unestablished sched m Hi). auto.
  - destruct (initialized m) eqn:Hi.
    + destruct (He eq_refl) as (_ & [bv Hb] & [ca Hc]).
      rewrite (run_established sched m bv ca Hi Hb Hc).
      pose proof (Hfan OpRun false sched [on_run bv; on_run ca] Hh) as H.
      destruct (gather false sched _ _) as [m' [[vs|e]|]]; exact H.
    + rewrite (run_unestablished sched m Hi). auto.
Qed.

(** X12.  The methods of a new master are called one after the other,
    each when the event loop is quiet.  A call, with the coroutines it may
    leave in the event loop, talks to one adapter and to no other: the one
    it is given, for [initialize], and else the one the master holds.
    What the call and the coroutines it leaves behind add to the log on the
    channel, up to the end of the last of them, is exactly the replay of
    their requests against that adapter, from the state the adapter was
    in: every request, the master's own and those of the peripherals'
    coroutines under any schedule, was handed to the adapter once, encoded
    by [to_ascii], in the order of the log, and is followed by what the
    adapter answered in the state the request before had left it in.  The
    master then holds the adapter in the state after the last request. *)
Theorem adapter_dialogue (rs : list request) (r : request)
    (h : USBHandler) :
  adapter_of r (perform_all rs Master_init) = Some h ->
  exists new s,
    log (perform r (perform_all rs Master_init))
    = log (perform_all rs Master_init) ++ new /\
    replay h (state h) (requests (exchanges new)) = (exchanges new, s) /\
    usb_handler (perform r (perform_all rs Master_init))
    = Some (with_state h s).
Proof.
  intros Hh.
  destruct (perform_in_tune r _ h
              (perform_all_sound rs Master_init sound_new) Hh)
    as (new & s & Hlog & Hu & Ht).
  exists new, s. split; [exact Hlog|]. split; [|exact Hu].
  apply tuned_replay, Ht.
Qed.

(** X15.  [run] can come back with the lock taken.  On an established
    master with the lock free and an adapter assigned, let the bill
    validator's run coroutine begin with a call of [send] and the coin
    acceptor's raise [e], and let the event loop move the bill validator
    first: [run] raises [e] when the bill validator is inside its exchange.
    The lock is held, the request is in the log without its answer, and
    the bill validator's coroutine is left in the event loop; nothing
    releases the lock before that coroutine is run again.  When it has
    ended the lock is free. *)
Theorem run_leaves_the_lock_taken (sched : list nat) (m : Master)
    (h : USBHandler) (bv ca : Peripheral) (message : string)
    (k : reply unit -> pcode) (e : exn) :
  initialized m = true -> lock m = false -> loop m = [] ->
  usb_handler m = Some h ->
  bill_validator m = Some bv -> coin_acceptor m = Some ca ->
  on_run bv = CallSend message k -> on_run ca = Raise e ->
  snd (run (0 :: 1 :: sched) m) = Some (Raised e) /\
  lock (fst (run (0 :: 1 :: sched) m)) = true /\
  events (fst (run (0 :: 1 :: sched) m))
  = events m ++ [Invoke 0 OpRun; Invoke 1 OpRun;
                 Transmit (Child 0) message None] /\
  loop (fst (run (0 :: 1 :: sched) m))
  = [InFlightSend message k; Finished (Raised e)] /\
  lock (quiesce (fst (run (0 :: 1 :: sched) m))) = false.
Proof.
  intros Hi Hl Hq Hh Hb Hc Hbv Hca.
  assert (Hrun : run (0 :: 1 :: sched) m
                 = (set_loop [InFlightSend message k; Finished (Raised e)]
                      (transmit (Child 0) message None
                         (set_lock true (invoked OpRun m))),
                    Some (Raised e))).
  { rewrite (run_established _ m bv ca Hi Hb Hc). rewrite Hbv, Hca.
    unfold gather, run_pool. simpl negb. simpl fmap.
    simpl interleave. unfold stopped at 1. simpl.
    unfold step at 1. simpl. rewrite Hi, Hl, Hh. simpl.
    unfold stopped at 1. simpl.
    unfold step at 1. simpl.
    assert (Hst : stopped true [InFlightSend message k; Finished (Raised e)]
                  = true) by reflexivity.
    destruct sched as [|i sched]; simpl; rewrite ?Hst; reflexivity. }
  rewrite Hrun. simpl fst. simpl snd.
  split; [reflexivity|]. split; [reflexivity|]. split.
  - unfold events. simpl. rewrite Hi. rewrite !fmap_app. simpl.
    rewrite <- !app_assoc. reflexivity.
  - split; [reflexivity|].
    apply (quiesce_in_step (invoked OpRun m)). simpl loop.
    right. exists 0. split.
    + apply (channel_state_open (invoked OpRun m) (invoked OpRun m)
               (Child 0) message None).
      * apply channel_state_start. exact Hl.
      * simpl. rewrite Hh. eauto.
    + split.
      * exists (InFlightSend message k). split; reflexivity.
      * intros j t Hne Hj. destruct j as [|[|j]]; simpl in Hj;
          [congruence|injection Hj as <-; reflexivity|discriminate].
Qed.

(** ** The cashless slave *)

(** X13.  A [CashlessSlave] cannot be built: [__init__] stores a flag
    under the name [_initalized] and then reads [self._class__], which no
    instance has, so the construction raises the attribute fault.  Called
    on any instance whatever, [__init__] raises an attribute fault, having
    stored that flag and nothing else; it never returns. *)
Theorem slave_construction_fails (self : CashlessSlave) :
  CashlessSlave_new = Raised (AttributeError "_class__") /\
  fst (CashlessSlave_init self) = <["_initalized" := ABool false]> self /\
  exists name,
    snd (CashlessSlave_init self) = Raised (AttributeError name).
Proof.
  split; [reflexivity|]. unfold CashlessSlave_init.
  destruct (getattr _ "_class__") as [a|e] eqn:Hg; simpl.
  - eauto.
  - split; [reflexivity|]. revert Hg. unfold getattr.
    destruct (_ !! "_class__"); [discriminate|].
    intros [= <-]. eauto.
Qed.

Lemma slave_initialize_keeps (h : USBHandler) (self : CashlessSlave) :
  slave_initialize h self !! "_initialized" = self !! "_initialized".
Proof.
  unfold slave_initialize, CashlessSlave in *.
  rewrite lookup_insert_ne by discriminate.
  rewrite lookup_insert_ne by discriminate. reflexivity.
Qed.

Lemma slave_initialize_all_keeps (hs : list USBHandler)
    (self : CashlessSlave) :
  slave_initialize_all hs self !! "_initialized" = self !! "_initialized".
Proof.
  revert self. induction hs as [|h hs IH]; intros self; [reflexivity|].
  simpl. fold (slave_initialize_all hs (slave_initialize h self)).
  rewrite IH. apply slave_initialize_keeps.
Qed.

(** X14.  [CashlessSlave.initialize] does not make [run] pass: it sets
    the flag under the name [_initalized], and [run] asserts
    [_initialized].  So after any number of calls of [initialize], [run]
    does exactly what it did before them; and on an instance on which
    nothing else has assigned [_initialized], [run] raises the attribute
    fault, although the flag that [initialize] sets is true. *)
Theorem slave_run_ignores_initialize (hs : list USBHandler)
    (h : USBHandler) (self : CashlessSlave) :
  slave_run (slave_initialize_all hs self) = slave_run self /\
  (self !! "_initialized" = None ->
   slave_run (slave_initialize_all (hs ++ [h]) self)
   = Raised (AttributeError "_initialized") /\
   getattr (slave_initialize_all (hs ++ [h]) self) "_initalized"
   = Returned (ABool true)).
Proof.
  split.
  - unfold slave_run, getattr. rewrite slave_initialize_all_keeps.
    reflexivity.
  - intros Hn. split.
    + unfold slave_run, getattr. rewrite slave_initialize_all_keeps, Hn.
      reflexivity.
    + unfold slave_initialize_all. rewrite foldl_app. simpl.
      unfold slave_initialize, getattr, CashlessSlave in *.
      rewrite lookup_insert. reflexivity.
Qed.

End Master.

(** * Concrete runs *)

Example brought_up_is_reached :
  fst (initialize ascii_bytes setup_time acking jammed steady false
         [0; 1; 1; 0] Master_init)
  = brought_up.
Proof. reflexivity. Qed.

Example initialize_with_reset_log :
  events (fst (initialize ascii_bytes setup_time acking jammed steady true
                 [0; 1; 0; 1] Master_init))
  = [Transmit Self ("M,1" +:+ LF) (Some "m");
     Complete Self (Returned (Some "m,ACK"));
     Transmit Self ("R,RESET" +:+ LF) None;
     Complete Self (Returned None);
     Sleep (setup_time + (1 # 10));
     Invoke 0 (OpInitialize false);
     Invoke 1 (OpInitialize false);
     Transmit (Child 0) "J" (Some "j");
     Complete (Child 0) (Returned (Some "m,ACK"));
     Transmit (Child 1) "S" (Some "s");
     Complete (Child 1) (Returned (Some "m,ACK"));
     Transmit (Child 0) "K" None;
     Complete (Child 0) (Returned None)].
Proof. reflexivity. Qed.

Example initialize_refused_log :
  initialize ascii_bytes setup_time refusing jammed steady true [] Master_init
  = ({| lock := false; initialized := false;
        usb_handler := Some (claimed_adapter ascii_bytes refusing);
        bill_validator := Some jammed; coin_acceptor := Some steady;
        clock := 0;
        log := [ {| stamp := 0; established := false;
                    what := Transmit Self ("M,1" +:+ LF) (Some "m") |};
                 {| stamp := 0; established := false;
                    what := Complete Self (Returned (Some "x,NAK")) |} ];
        loop := [] |},
     Some (Raised
             (RuntimeError "Unable to start master mode on MDB board."))).
Proof. reflexivity. Qed.

Example enable_jammed :
  snd (enable ascii_bytes [1; 0] brought_up)
  = Some (Returned [Raised (OtherError "jam"); Returned VNone]).
Proof. reflexivity. Qed.

Example status_both :
  snd (status ascii_bytes [] brought_up)
  = Some (Returned [Returned (VStr "jammed"); Returned (VStr "ok")]).
Proof. reflexivity. Qed.

Example run_jammed :
  snd (run ascii_bytes [1; 0; 1] brought_up) = Some (Raised (OtherError "jam")).
Proof. reflexivity. Qed.

(** ** The claims on these runs *)

Lemma send_before_initialize_witness :
  initialized Master_init = false /\
  send ascii_bytes Self "P" Master_init
  = (Master_init, Some (Raised AssertionError)) /\
  sendread ascii_bytes Self "P" "p" Master_init
  = (Master_init, Some (Raised AssertionError)).
Proof.
  split; [reflexivity|].
  destruct (send_before_initialize ascii_bytes Master_init Self "P" "p"
              eq_refl) as (Hs & Hr & _).
  split; [exact Hs|exact Hr].
Defined.



Lemma initialize_claims_mastership_witness :
  lock Master_init = false /\ initialized Master_init = false /\
  (initialized
     (fst (initialize ascii_bytes setup_time refusing jammed steady true []
             Master_init)) = true <->
   mastership_reply ascii_bytes refusing = Returned "m,ACK").
Proof.
  repeat (split; [reflexivity|]).
  exact (proj1 (initialize_claims_mastership ascii_bytes setup_time
                  refusing jammed steady true [] Master_init eq_refl eq_refl)).
Defined.

(** The adapter acknowledges the claim and [initialize] still fails: the
    reset could not be sent. *)
Lemma initialize_fails_after_acknowledgement :
  mastership_reply ascii_bytes mute_after_claim = Returned "m,ACK" /\
  snd (initialize ascii_bytes setup_time mute_after_claim steady steady true
         [] Master_init)
  = Some (Raised (OtherError "ChannelError")) /\
  ~ (snd (initialize ascii_bytes setup_time mute_after_claim steady steady
            true [] Master_init) = Some (Returned tt) /\
     initialized
       (fst (initialize ascii_bytes setup_time mute_after_claim steady steady
               true [] Master_init)) = true <->
     mastership_reply ascii_bytes mute_after_claim = Returned "m,ACK").
Proof.
  split; [reflexivity|]. split; [reflexivity|].
  intros [_ H]. destruct (H eq_refl) as [Hr _]. discriminate Hr.
Qed.

(** Likewise when a peripheral's initialize raises. *)
Example initialize_fails_on_peripheral :
  snd (initialize ascii_bytes setup_time acking
         {| on_initialize := fun _ => Raise (OtherError "setup");
            on_enable := Return VNone; on_disable := Return VNone;
            on_status := Return VNone; on_run := Return VNone |}
         steady false [] Master_init)
  = Some (Raised (OtherError "setup")).
Proof. reflexivity. Qed.

Lemma failed_initialize_keeps_references_witness :
  lock Master_init = false /\ initialized Master_init = false /\
  is_Some (usb_handler (fst (initialize ascii_bytes setup_time refusing jammed
                               steady true [] Master_init))) /\
  bill_validator (fst (initialize ascii_bytes setup_time refusing jammed
                         steady true [] Master_init)) = Some jammed /\
  coin_acceptor (fst (initialize ascii_bytes setup_time refusing jammed
                        steady true [] Master_init)) = Some steady.
Proof.
  repeat (split; [reflexivity|]).
  exact (proj1 (failed_initialize_keeps_references ascii_bytes setup_time
                  refusing jammed steady true [] Master_init eq_refl eq_refl)).
Defined.

(** After the failed claim the flag is what it was before the call, and
    each of the three references is not. *)
Lemma failed_initialize_same_flag :
  snd (initialize ascii_bytes setup_time refusing jammed steady true []
         Master_init)
  = Some (Raised (RuntimeError "Unable to start master mode on MDB board."))
  /\
  initialized (fst (initialize ascii_bytes setup_time refusing jammed steady
                      true [] Master_init)) = initialized Master_init /\
  usb_handler (fst (initialize ascii_bytes setup_time refusing jammed steady
                      true [] Master_init)) <> usb_handler Master_init /\
  bill_validator (fst (initialize ascii_bytes setup_time refusing jammed
                         steady true [] Master_init))
  <> bill_validator Master_init /\
  coin_acceptor (fst (initialize ascii_bytes setup_time refusing jammed
                        steady true [] Master_init))
  <> coin_acceptor Master_init.
Proof.
  split; [reflexivity|]. split; [reflexivity|].
  repeat split; discriminate.
Qed.

Lemma wire_handshake_witness :
  lock Master_init = false /\
  exists rest,
    events (fst (initialize ascii_bytes setup_time acking jammed steady true
                   [0; 1] Master_init))
    = events Master_init ++ Transmit Self ("M,1" +:+ LF) (Some "m")
                   :: Complete Self
                        (seen_of_sendread (mastership_reply ascii_bytes acking))
                   :: rest.
Proof.
  split; [reflexivity|].
  destruct (wire_handshake ascii_bytes setup_time acking jammed steady
              true [0; 1] Master_init eq_refl) as (rest & Hrest & _).
  exists rest. exact Hrest.
Defined.

(** What goes to the adapter is not the bare text: the claim and the
    reset both end with a line feed. *)
Lemma handshake_texts_end_with_line_feed :
  events (fst (initialize ascii_bytes setup_time acking jammed steady true
                 [] Master_init)) !! 0
  = Some (Transmit Self ("M,1" +:+ LF) (Some "m")) /\
  "M,1" +:+ LF <> "M,1" /\
  ascii_bytes ("M,1" +:+ LF) <> ascii_bytes "M,1" /\
  events (fst (initialize ascii_bytes setup_time acking jammed steady true
                 [] Master_init)) !! 2
  = Some (Transmit Self ("R,RESET" +:+ LF) None) /\
  "R,RESET" +:+ LF <> "R,RESET" /\
  ascii_bytes ("R,RESET" +:+ LF) <> ascii_bytes "R,RESET".
Proof.
  split; [reflexivity|]. split; [discriminate|]. split; [discriminate|].
  split; [reflexivity|]. split; discriminate.
Qed.



Lemma exchanges_never_interleave_witness :
  lock brought_up = false /\
  exists new,
    log (fst (run_pool ascii_bytes false [0; 1; 1; 0]
                brought_up
                (Running <$> [CallSendRead "A" "a" (fun _ => Return VNone);
                              CallSendRead "B" "b" (fun _ => Return VNone)])))
    = log brought_up ++ new /\
    cycles (what <$> new).
Proof.
  split; [reflexivity|].
  destruct (proj1 (proj2 (exchanges_never_interleave ascii_bytes false
                            [0; 1; 1; 0]
                            [CallSendRead "A" "a" (fun _ => Return VNone);
                             CallSendRead "B" "b" (fun _ => Return VNone)]
                            brought_up eq_refl)))
    as (new & Hlog & _ & Hc).
  exists new. split; [exact Hlog|]. apply Hc. left. reflexivity.
Defined.

(** Two concurrent calls of [sendread]: the second caller asks for the
    channel while the first exchange is open, and has to wait. *)
Example two_sendreads :
  drop (length (log brought_up))
    (events (fst (run_pool ascii_bytes false [0; 1; 1; 0] brought_up
                    (Running <$>
                       [CallSendRead "A" "a" (fun _ => Return VNone);
                        CallSendRead "B" "b" (fun _ => Return VNone)]))))
  = [Transmit (Child 0) "A" (Some "a");
     Complete (Child 0) (Returned (Some "m,ACK"));
     Transmit (Child 1) "B" (Some "b");
     Complete (Child 1) (Returned (Some "m,ACK"))].
Proof. reflexivity. Qed.

(** ** The further properties on these runs *)


Lemma only_the_claim_before_establishment_witness :
  entry_at 0 false (Transmit Self ("M,1" +:+ LF) (Some "m"))
    ∈ log (perform_all ascii_bytes setup_time [refused_call]
             Master_init) /\
  established (entry_at 0 false (Transmit Self ("M,1" +:+ LF) (Some "m")))
  = false /\
  (what (entry_at 0 false (Transmit Self ("M,1" +:+ LF) (Some "m")))
   = Transmit Self ("M,1" +:+ LF) (Some "m") \/
   exists r,
     what (entry_at 0 false (Transmit Self ("M,1" +:+ LF) (Some "m")))
     = Complete Self r).
Proof.
  assert (H : entry_at 0 false (Transmit Self ("M,1" +:+ LF) (Some "m"))
                ∈ log (perform_all ascii_bytes setup_time
                         [refused_call] Master_init))
    by apply list_elem_of_here.
  split; [exact H|]. split; [reflexivity|].
  exact (only_the_claim_before_establishment ascii_bytes setup_time
           [refused_call] _ H eq_refl).
Defined.

Lemma fan_out_before_initialize_witness :
  initialized Master_init = false /\
  enable ascii_bytes [0; 1] Master_init
  = (Master_init, Some (Raised AssertionError)) /\
  disable ascii_bytes [0; 1] Master_init
  = (Master_init, Some (Raised AssertionError)) /\
  status ascii_bytes [0; 1] Master_init
  = (Master_init, Some (Raised AssertionError)) /\
  run ascii_bytes [0; 1] Master_init
  = (Master_init, Some (Raised AssertionError)).
Proof.
  split; [reflexivity|].
  exact (fan_out_before_initialize ascii_bytes [0; 1] Master_init eq_refl).
Defined.

Lemma refused_again_stays_established_witness :
  lock brought_up = false /\ initialized brought_up = true /\
  mastership_reply ascii_bytes refusing <> Returned "m,ACK" /\
  (exists e,
      snd (initialize ascii_bytes setup_time refusing steady steady true []
             brought_up) = Some (Raised e)) /\
  initialized
    (fst (initialize ascii_bytes setup_time refusing steady steady true []
            brought_up)) = true /\
  usb_handler
    (fst (initialize ascii_bytes setup_time refusing steady steady true []
            brought_up)) = Some (claimed_adapter ascii_bytes refusing).
Proof.
  assert (Hn : mastership_reply ascii_bytes refusing <> Returned "m,ACK")
    by discriminate.
  do 2 (split; [reflexivity|]). split; [exact Hn|].
  destruct (refused_again_stays_established ascii_bytes setup_time refusing
              steady steady true [] brought_up eq_refl eq_refl Hn)
    as (He & Hi & Hu & _).
  split; [exact He|]. split; [exact Hi|exact Hu].
Defined.

Lemma failed_reset_aborts_witness :
  lock Master_init = false /\
  mastership_reply ascii_bytes mute_after_claim = Returned "m,ACK" /\
  reset_reply ascii_bytes mute_after_claim
  = Raised (OtherError "ChannelError") /\
  snd (initialize ascii_bytes setup_time mute_after_claim jammed steady true
         [0; 1] Master_init)
  = Some (Raised (OtherError "ChannelError")) /\
  events (fst (initialize ascii_bytes setup_time mute_after_claim jammed
                 steady true [0; 1] Master_init))
  = events Master_init ++
    [Transmit Self ("M,1" +:+ LF) (Some "m");
     Complete Self (Returned (Some "m,ACK"));
     Transmit Self ("R,RESET" +:+ LF) None;
     Complete Self (Raised (OtherError "ChannelError"))] /\
  initialized
    (fst (initialize ascii_bytes setup_time mute_after_claim jammed steady
            true [0; 1] Master_init)) = true.
Proof.
  do 3 (split; [reflexivity|]).
  destruct (failed_reset_aborts ascii_bytes setup_time mute_after_claim
              jammed steady [0; 1] Master_init (OtherError "ChannelError")
              eq_refl eq_refl eq_refl)
    as (Hr & He & _ & _ & Hi & _).
  split; [exact Hr|]. split; [exact He|exact Hi].
Defined.




Lemma adapter_dialogue_witness :
  adapter_of (ReqInitialize acking jammed steady true [1; 0; 0; 1])
    (perform_all ascii_bytes setup_time [refused_call] Master_init)
  = Some acking /\
  exists new s,
    log (perform ascii_bytes setup_time
           (ReqInitialize acking jammed steady true [1; 0; 0; 1])
           (perform_all ascii_bytes setup_time [refused_call] Master_init))
    = log (perform_all ascii_bytes setup_time [refused_call] Master_init)
      ++ new /\
    replay ascii_bytes acking (state acking) (requests (exchanges new))
    = (exchanges new, s) /\
    usb_handler
      (perform ascii_bytes setup_time
         (ReqInitialize acking jammed steady true [1; 0; 0; 1])
         (perform_all ascii_bytes setup_time [refused_call] Master_init))
    = Some (with_state acking s).
Proof.
  split; [reflexivity|].
  exact (adapter_dialogue ascii_bytes setup_time [refused_call]
           (ReqInitialize acking jammed steady true [1; 0; 0; 1]) acking
           eq_refl).
Defined.

Lemma slave_run_ignores_initialize_witness :
  (∅ : CashlessSlave) !! "_initialized" = None /\
  slave_run (slave_initialize_all ([acking] ++ [refusing]) ∅)
  = Raised (AttributeError "_initialized") /\
  getattr (slave_initialize_all ([acking] ++ [refusing]) ∅) "_initalized"
  = Returned (ABool true).
Proof.
  split; [reflexivity|].
  exact (proj2 (slave_run_ignores_initialize [acking] refusing ∅) eq_refl).
Defined.

(** A bring-up with a bus reset, under a schedule that lets the coin
    acceptor start: the requests the adapter is handed, in order. *)
Example adapter_dialogue_run :
  requests
    (exchanges
       (log (perform ascii_bytes setup_time
               (ReqInitialize acking jammed steady true [1; 0; 0; 1])
               Master_init)))
  = [(Self, "M,1" +:+ LF, Some "m"); (Self, "R,RESET" +:+ LF, None);
     (Child 1, "S", Some "s"); (Child 0, "J", Some "j");
     (Child 0, "K", None)].
Proof. reflexivity. Qed.

Lemma run_leaves_the_lock_taken_witness :
  initialized polled_up = true /\ lock polled_up = false /\
  loop polled_up = [] /\
  usb_handler polled_up = Some (with_state acking 4) /\
  bill_validator polled_up = Some polling /\
  coin_acceptor polled_up = Some jammed /\
  on_run polling = CallSend "P" (fun _ => Return VNone) /\
  on_run jammed = Raise (OtherError "jam") /\
  snd (run ascii_bytes [0; 1; 0] polled_up)
  = Some (Raised (OtherError "jam")) /\
  lock (fst (run ascii_bytes [0; 1; 0] polled_up)) = true /\
  events (fst (run ascii_bytes [0; 1; 0] polled_up))
  = events polled_up ++ [Invoke 0 OpRun; Invoke 1 OpRun;
                         Transmit (Child 0) "P" None] /\
  loop (fst (run ascii_bytes [0; 1; 0] polled_up))
  = [InFlightSend "P" (fun _ => Return VNone);
     Finished (Raised (OtherError "jam"))] /\
  lock (quiesce ascii_bytes (fst (run ascii_bytes [0; 1; 0] polled_up)))
  = false.
Proof.
  do 8 (split; [reflexivity|]).
  exact (run_leaves_the_lock_taken ascii_bytes [0] polled_up
           (with_state acking 4) polling jammed "P"
           (fun _ => Return VNone) (OtherError "jam")
           eq_refl eq_refl eq_refl eq_refl eq_refl eq_refl eq_refl eq_refl).
Defined.

(** The same run, and the call after it: when the coroutine left behind
    has ended its exchange is whole, and [send] goes through. *)
Example run_then_send :
  drop (length (log polled_up))
    (events (fst (send ascii_bytes Self "Q"
                    (perform ascii_bytes setup_time (ReqRun [0; 1; 0])
                       polled_up))))
  = [Invoke 0 OpRun; Invoke 1 OpRun;
     Transmit (Child 0) "P" None; Complete (Child 0) (Returned None);
     Transmit Self "Q" None; Complete Self (Returned None)].
Proof. reflexivity. Qed.
